(** * A shallow embedding of the ORM table layer (packages [orm] and [table])

    The development follows the two Go files of the table layer:
    - [x/group/internal/orm/types.go]: the registered errors, [RowID],
      [NewTypeSafeRowGetter] and [assertCorrectType];
    - the [package table] part of [x/nft/nft.pb.go]: [Builder], [Table] and
      the operations [Create], [Update], [Delete], [Has], [GetOne],
      [PrefixScan], [ReversePrefixScan], and [typeSafeIterator];
    - the generated code of the message [Class] in [x/nft/nft.pb.go]: [Size],
      [Marshal], [MarshalToSizedBuffer], [Unmarshal], [encodeVarintNft],
      [sovNft] and [skipNft].

    Go values are modelled as the code has them: a [[]byte] is an optional
    list of bytes ([None] is the nil slice), an [error] is an optional error
    value, a function that may panic returns an [outcome], and the store that
    Go mutates in place is threaded through the operations explicitly. *)

From Stdlib Require Import Strings.Byte Numbers.DecimalString.
From Equations Require Import Equations.
From stdpp Require Import gmap strings list sorting.

(** ** Bytes, slices and their order *)

Abbreviation byte := Byte.byte.

#[global] Instance byte_eq_dec : EqDecision byte := Byte.byte_eq_dec.
#[global] Instance byte_countable : Countable byte :=
  inj_countable Byte.to_N Byte.of_N Byte.of_to_N.

(** A Go [[]byte]; [None] is [nil], [Some []] the empty non-nil slice. *)
Definition slice : Type := option (list byte).

Definition len (s : slice) : nat :=
  match s with
  | None => 0
  | Some l => length l
  end.

Definition elems (s : slice) : list byte :=
  match s with
  | None => []
  | Some l => l
  end.

(** Lexicographic comparison of byte strings, the order of [bytes.Compare]
    and of the keys of the store. *)
Fixpoint compare_bytes (a b : list byte) : comparison :=
  match a, b with
  | [], [] => Eq
  | [], _ :: _ => Lt
  | _ :: _, [] => Gt
  | x :: a', y :: b' =>
      match N.compare (Byte.to_N x) (Byte.to_N y) with
      | Eq => compare_bytes a' b'
      | c => c
      end
  end.

(** [bytes.Compare(a, b)]: -1, 0 or 1; a nil slice compares as the empty one. *)
Definition bytes_Compare (a b : slice) : Z :=
  match compare_bytes (elems a) (elems b) with
  | Lt => -1
  | Eq => 0
  | Gt => 1
  end.

Definition key_le (a b : list byte) : Prop := compare_bytes a b ≠ Gt.
Definition key_lt (a b : list byte) : Prop := compare_bytes a b = Lt.

#[global] Instance key_le_dec a b : Decision (key_le a b).
Proof. unfold key_le. apply _. Defined.
#[global] Instance key_lt_dec a b : Decision (key_lt a b).
Proof. unfold key_lt. apply _. Defined.

(** ** Errors (types.go) *)

Inductive error : Type :=
  | Registered (codespace : string) (code : N) (description : string)
  | Wrapped (cause : error) (description : string)
  | Foreign (description : string).

#[global] Instance error_eq_dec : EqDecision error.
Proof. solve_decision. Defined.

Definition ormCodespace : string := "orm".

Definition ErrNotFound : error := Registered ormCodespace 100 "not found".
Definition ErrIteratorDone : error := Registered ormCodespace 101 "iterator done".
Definition ErrIteratorInvalid : error := Registered ormCodespace 102 "iterator invalid".
Definition ErrType : error := Registered ormCodespace 110 "invalid type".
Definition ErrUniqueConstraint : error :=
  Registered ormCodespace 111 "unique constraint violation".
Definition ErrArgument : error := Registered ormCodespace 112 "invalid argument".
Definition ErrIndexKeyMaxLength : error :=
  Registered ormCodespace 113 "index key exceeds max length".
Definition ErrEmptyKey : error := Registered ormCodespace 114 "cannot use empty key".

(** [errors.Wrap(err, description)] for a non-nil [err]. *)
Definition Wrap (err : error) (description : string) : error :=
  Wrapped err description.

(** The registered error at the root of a chain of wraps. *)
Fixpoint Cause (err : error) : error :=
  match err with
  | Wrapped cause _ => Cause cause
  | _ => err
  end.

(** The decimal rendering of [%d]. *)
Definition itoa (i : nat) : string := NilZero.string_of_uint (Nat.to_uint i).

(** ** Panics *)

(** The result of a Go call that either returns or panics. *)
Inductive outcome (A : Type) : Type :=
  | Done (a : A)
  | Panic (msg : string).
Arguments Done {A} a.
Arguments Panic {A} msg.

#[global] Instance outcome_ret : MRet outcome := λ A a, Done a.
#[global] Instance outcome_bind : MBind outcome := λ A B f m,
  match m with
  | Done a => f a
  | Panic msg => Panic msg
  end.

(** ** Run-time types and protobuf messages *)

(** [reflect.Type], as far as the table looks at it: a named type or a
    pointer to a type. *)
Inductive reflect_Type : Type :=
  | Named (name : string)
  | PtrTo (elem : reflect_Type).

#[global] Instance reflect_Type_eq_dec : EqDecision reflect_Type.
Proof. solve_decision. Defined.

(** The rendering of [%T]. *)
Fixpoint type_String (t : reflect_Type) : string :=
  match t with
  | Named name => name
  | PtrTo elem => "*" +:+ type_String elem
  end.

(** A [codec.ProtoMarshaler] interface value: the dynamic type of the value
    and the message it holds ([*T] holds the message its pointer leads to).
    The operations document that their parameters must not be nil, so an
    interface value here is never nil; the one place where the code tests
    for nil, [NewTableBuilder], takes an optional value. *)
Record ProtoMarshaler (Msg : Type) : Type := mkProtoMarshaler {
  TypeOf : reflect_Type;
  message : Msg
}.
Arguments mkProtoMarshaler {Msg} TypeOf message.
Arguments TypeOf {Msg} p.
Arguments message {Msg} p.

(** What the Go run time knows about the message types: the zero value that
    [reflect.New] allocates, and the method [ValidateBasic] of the types that
    implement [Validateable] ([None] for a type that does not). *)
Class GoTypes (Msg : Type) : Type := {
  zeroValue : reflect_Type → Msg;
  ValidateBasic : reflect_Type → option (Msg → option error)
}.

(** [reflect.New(t).Interface()]: a pointer to a fresh zero value of [t]. *)
Definition reflect_New `{GoTypes Msg} (t : reflect_Type) : ProtoMarshaler Msg :=
  mkProtoMarshaler (PtrTo t) (zeroValue t).

(** [codec.Codec]: [Marshal] returns the bytes and an error, [Unmarshal]
    returns the destination as it leaves it and an error. *)
Record Codec (Msg : Type) : Type := mkCodec {
  Marshal : ProtoMarshaler Msg → list byte * option error;
  Unmarshal : list byte → ProtoMarshaler Msg → ProtoMarshaler Msg * option error
}.
Arguments mkCodec {Msg} Marshal Unmarshal.
Arguments Marshal {Msg} c o.
Arguments Unmarshal {Msg} c bz dest.

Definition nilDereference : string :=
  "invalid memory address or nil pointer dereference".

(** A method call on a [codec.Codec] interface value that may be nil. *)
Definition cdc_Marshal {Msg} (cdc : option (Codec Msg)) (o : ProtoMarshaler Msg)
  : outcome (list byte * option error) :=
  match cdc with
  | None => Panic nilDereference
  | Some c => Done (Marshal c o)
  end.

Definition cdc_Unmarshal {Msg} (cdc : option (Codec Msg)) (bz : list byte)
    (dest : ProtoMarshaler Msg) : outcome (ProtoMarshaler Msg * option error) :=
  match cdc with
  | None => Panic nilDereference
  | Some c => Done (Unmarshal c bz dest)
  end.

(** ** The ordered key-value store *)

(** Modelled from the spec: [sdk.KVStore] is not part of the sources. The
    spec requires "a byte-keyed ordered map offering Get(key), Set(key,
    value), Delete(key), Iterator(start, end) (ascending) and
    ReverseIterator(start, end) (descending)"; a store is a finite map from
    keys to values, and an iterator over it is the list of the entries it
    still has to visit. *)
Abbreviation KVStore := (gmap (list byte) (list byte)).

Definition entry : Type := list byte * list byte.

Definition entry_le (e1 e2 : entry) : Prop := key_le e1.1 e2.1.

#[global] Instance entry_le_dec e1 e2 : Decision (entry_le e1 e2).
Proof. unfold entry_le. apply _. Defined.

(** Modelled from the spec: [Get(key)]. *)
Definition store_Get (store : KVStore) (key : list byte) : option (list byte) :=
  store !! key.

(** Modelled from the spec: [Set(key, value)]. *)
Definition store_Set (store : KVStore) (key value : list byte) : KVStore :=
  <[key := value]> store.

(** Modelled from the spec: [Delete(key)]. *)
Definition store_Delete (store : KVStore) (key : list byte) : KVStore :=
  delete key store.

(** Modelled from the spec: the domain [[start, end)] of an iterator, with
    [end] exclusive; a nil bound is no bound. *)
Definition in_domain (start end_ : slice) (key : list byte) : Prop :=
  match start with
  | None => True
  | Some s => key_le s key
  end ∧
  match end_ with
  | None => True
  | Some e => key_lt key e
  end.

#[global] Instance in_domain_dec start end_ key : Decision (in_domain start end_ key).
Proof. unfold in_domain. destruct start, end_; apply _. Defined.

(** Modelled from the spec: [Iterator(start, end)] visits the entries of the
    domain in ascending order of their keys. *)
Definition store_Iterator (store : KVStore) (start end_ : slice) : list entry :=
  merge_sort entry_le
    (filter (λ e : entry, in_domain start end_ e.1) (map_to_list store)).

(** Modelled from the spec: [ReverseIterator(start, end)] visits the same
    entries in descending order. *)
Definition store_ReverseIterator (store : KVStore) (start end_ : slice)
  : list entry :=
  reverse (store_Iterator store start end_).

(** Modelled from the spec: [Valid()] of an iterator; [Key()], [Value()] and
    [Next()] on a valid iterator are the head and the tail of the list. *)
Definition Valid (it : list entry) : bool :=
  match it with
  | [] => false
  | _ :: _ => true
  end.

(** Modelled from the spec: the end of the range of the keys that start
    with [prefix], which is the least key above all of them, and nil ([None])
    when there is none (an empty prefix, or bytes 0xFF only). *)
Fixpoint prefixEnd (prefix : list byte) : slice :=
  match prefix with
  | [] => None
  | b :: rest =>
      match prefixEnd rest with
      | Some e => Some (b :: e)
      | None =>
          match Byte.of_N (Byte.to_N b + 1) with
          | Some b' => Some [b']
          | None => None
          end
      end
  end.

(** Modelled from the spec: [prefix.NewStore] is not part of the sources.
    "Namespacing is achieved by prepending the table's single-byte prefix to
    all keys before delegating": a prefix store prepends its prefix to the
    keys it is given and to the bounds of an iteration (a nil end becomes
    the end of the prefix), delegates to its parent, and shows the keys it
    visits without the prefix. *)
Record prefix_Store : Type := prefix_NewStore {
  parent : KVStore;
  storePrefix : list byte
}.

(** Modelled from the spec: [Set] of a prefix store. The spec does not say
    what [Set] does with an empty key; here it writes under the bare
    prefix. *)
Definition pStore_Set (s : prefix_Store) (key : slice) (value : list byte)
  : KVStore :=
  store_Set (parent s) (storePrefix s ++ elems key) value.

(** Modelled from the spec: [Delete] of a prefix store. *)
Definition pStore_Delete (s : prefix_Store) (key : slice) : KVStore :=
  store_Delete (parent s) (storePrefix s ++ elems key).

(** Modelled from the spec: a key without the prefix it starts with. *)
Fixpoint stripPrefix (prefix key : list byte) : option (list byte) :=
  match prefix, key with
  | [], _ => Some key
  | p :: prefix', k :: key' =>
      if decide (p = k) then stripPrefix prefix' key' else None
  | _ :: _, [] => None
  end.

(** Modelled from the spec: the iterator of a prefix store is valid as long
    as the iterator of its parent is and the parent's key starts with the
    prefix. *)
Fixpoint prefixIterator (prefix : list byte) (it : list entry) : list entry :=
  match it with
  | [] => []
  | (k, v) :: it' =>
      match stripPrefix prefix k with
      | Some k' => (k', v) :: prefixIterator prefix it'
      | None => []
      end
  end.

(** Modelled from the spec: [Iterator] of a prefix store. *)
Definition pStore_Iterator (s : prefix_Store) (start end_ : slice) : list entry :=
  let newstart := Some (storePrefix s ++ elems start) in
  let newend :=
    match end_ with
    | None => prefixEnd (storePrefix s)
    | Some e => Some (storePrefix s ++ e)
    end in
  prefixIterator (storePrefix s) (store_Iterator (parent s) newstart newend).

(** Modelled from the spec: the end of the range of [PrefixRange]. The spec
    calls the lookup of [Has] a "range probe" and does not say how the end
    of the range is computed; the end here is the key with its last byte
    incremented, at the length of the key: a byte 0xFF becomes 0x00 and the
    carry goes into the byte before it. [incrementKey] returns the bytes and
    the carry that is left; the end is nil ([None]) when a carry is left,
    for the empty key and for a key of bytes 0xFF only. *)
Fixpoint incrementKey (key : list byte) : list byte * bool :=
  match key with
  | [] => ([], true)
  | b :: rest =>
      let '(rest', carry) := incrementKey rest in
      if carry
      then
        match Byte.of_N (Byte.to_N b + 1) with
        | Some b' => (b' :: rest', false)
        | None => (x00 :: rest', true)
        end
      else (b :: rest', false)
  end.

(** Modelled from the spec: see [incrementKey]. *)
Definition rangeEnd (key : list byte) : slice :=
  match incrementKey key with
  | (end_, false) => Some end_
  | (_, true) => None
  end.

(** Modelled from the spec: [PrefixRange] is called by [Has] and by the row
    getter but is not part of the sources. It turns a key into the bounds of
    a range that starts at the key and holds the keys that start with it
    (the "range probe" of [Has]); [Has] documents that it panics on a nil
    key. For a key that ends in 0xFF the range also holds keys that do not
    start with the key: the end of 0x61FF is 0x6200, and the key 0x62 lies
    between them. *)
Definition PrefixRange (prefix : slice) : outcome (slice * slice) :=
  match prefix with
  | None => Panic "nil key not allowed"
  | Some p => Done (Some p, rangeEnd p)
  end.

(** ** Package orm (types.go) *)

(** Unique identifier of a persistent table row. *)
Definition RowID : Type := slice.

Definition Bytes (r : RowID) : slice := r.

(** [RowGetter]: the destination as the call leaves it, and the error. *)
Definition RowGetter (Msg : Type) : Type :=
  KVStore → RowID → ProtoMarshaler Msg →
  outcome (ProtoMarshaler Msg * option error).

Definition assertCorrectType {Msg} (model : reflect_Type) (obj : ProtoMarshaler Msg)
  : option error :=
  let tp := TypeOf obj in
  match tp with
  | PtrTo elem =>
      if decide (model ≠ elem)
      then Some (Wrap ErrType
                   ("can not use " +:+ type_String tp +:+ " with this bucket"))
      else None
  | Named _ => Some (Wrap ErrType "model destination must be a pointer")
  end.

(** [NewTypeSafeRowGetter] returns a [RowGetter] with type check on the
    [dest] parameter. types.go declares [prefixKey] as a two-byte array and
    the table hands it its one prefix byte; the getter is modelled for any
    prefix, as it only uses [prefixKey[:]]. *)
Definition NewTypeSafeRowGetter {Msg} (prefixKey : list byte) (model : reflect_Type)
    (cdc : option (Codec Msg)) : RowGetter Msg :=
  λ store rowID dest,
    if decide (len rowID = 0)
    then Done (dest, Some (Wrap ErrArgument "key must not be nil"))
    else
      match assertCorrectType model dest with
      | Some err => Done (dest, Some err)
      | None =>
          let pStore := prefix_NewStore store prefixKey in
          '(start, end_) ← PrefixRange rowID;
          let it := pStore_Iterator pStore start end_ in
          match it with
          | [] => Done (dest, Some ErrNotFound)
          | (_, value) :: _ => cdc_Unmarshal cdc value dest
          end
      end.

(** ** Package table *)

(** [AfterSaveInterceptor] and [AfterDeleteInterceptor] are handed the store
    and may write to it: they return the store as they leave it and their
    error. [oldValue] is nil ([None]) on [Create]. *)
Definition AfterSaveInterceptor (Msg : Type) : Type :=
  KVStore → RowID → ProtoMarshaler Msg → option (ProtoMarshaler Msg) →
  KVStore * option error.

Definition AfterDeleteInterceptor (Msg : Type) : Type :=
  KVStore → RowID → ProtoMarshaler Msg → KVStore * option error.

Record Builder (Msg IndexKeyCodec : Type) : Type := mkBuilder {
  builder_model : reflect_Type;
  prefixData : byte;
  indexKeyCodec : IndexKeyCodec;
  builder_afterSave : list (AfterSaveInterceptor Msg);
  builder_afterDelete : list (AfterDeleteInterceptor Msg);
  builder_cdc : option (Codec Msg)
}.
Arguments mkBuilder {Msg IndexKeyCodec}.
Arguments builder_model {Msg IndexKeyCodec} b.
Arguments prefixData {Msg IndexKeyCodec} b.
Arguments indexKeyCodec {Msg IndexKeyCodec} b.
Arguments builder_afterSave {Msg IndexKeyCodec} b.
Arguments builder_afterDelete {Msg IndexKeyCodec} b.
Arguments builder_cdc {Msg IndexKeyCodec} b.

(** [Table] is the high level object for storage mapper functionality. *)
Record Table (Msg : Type) : Type := mkTable {
  model : reflect_Type;
  prefix : byte;
  afterSave : list (AfterSaveInterceptor Msg);
  afterDelete : list (AfterDeleteInterceptor Msg);
  cdc : option (Codec Msg)
}.
Arguments mkTable {Msg}.
Arguments model {Msg} t.
Arguments prefix {Msg} t.
Arguments afterSave {Msg} t.
Arguments afterDelete {Msg} t.
Arguments cdc {Msg} t.

(** [NewTableBuilder] creates a builder to setup a [Table] object; the three
    interface parameters may be nil. *)
Definition NewTableBuilder {Msg IndexKeyCodec} (prefixData : byte)
    (model : option (ProtoMarshaler Msg)) (idxKeyCodec : option IndexKeyCodec)
    (cdc : option (Codec Msg)) : outcome (Builder Msg IndexKeyCodec) :=
  match model with
  | None => Panic "Model must not be nil"
  | Some m =>
      match idxKeyCodec with
      | None => Panic "IndexKeyCodec must not be nil"
      | Some ikc =>
          let tp := TypeOf m in
          let tp := match tp with
                    | PtrTo elem => elem
                    | Named _ => tp
                    end in
          Done (mkBuilder tp prefixData ikc [] [] cdc)
      end
  end.

Definition Builder_IndexKeyCodec {Msg IndexKeyCodec}
    (a : Builder Msg IndexKeyCodec) : IndexKeyCodec :=
  indexKeyCodec a.

(** [RowGetter] returns a type safe RowGetter. *)
Definition Builder_RowGetter {Msg IndexKeyCodec} (a : Builder Msg IndexKeyCodec)
  : RowGetter Msg :=
  NewTypeSafeRowGetter [prefixData a] (builder_model a) (builder_cdc a).

(** [Build] creates a new [Table] object. *)
Definition Build {Msg IndexKeyCodec} (a : Builder Msg IndexKeyCodec) : Table Msg :=
  mkTable (builder_model a) (prefixData a) (builder_afterSave a)
    (builder_afterDelete a) (builder_cdc a).

Definition AddAfterSaveInterceptor {Msg IndexKeyCodec}
    (a : Builder Msg IndexKeyCodec) (interceptor : AfterSaveInterceptor Msg)
  : Builder Msg IndexKeyCodec :=
  mkBuilder (builder_model a) (prefixData a) (indexKeyCodec a)
    (builder_afterSave a ++ [interceptor]) (builder_afterDelete a)
    (builder_cdc a).

Definition AddAfterDeleteInterceptor {Msg IndexKeyCodec}
    (a : Builder Msg IndexKeyCodec) (interceptor : AfterDeleteInterceptor Msg)
  : Builder Msg IndexKeyCodec :=
  mkBuilder (builder_model a) (prefixData a) (indexKeyCodec a)
    (builder_afterSave a) (builder_afterDelete a ++ [interceptor])
    (builder_cdc a).

Definition assertValid `{GoTypes Msg} (obj : ProtoMarshaler Msg) : option error :=
  match ValidateBasic (TypeOf obj) with
  | Some validate => validate (message obj)
  | None => None
  end.

(** The loop [for i, itc := range a.afterSave] of [Create] and [Update],
    from index [i] on. *)
Fixpoint runAfterSave {Msg} (itcs : list (AfterSaveInterceptor Msg)) (i : nat)
    (store : KVStore) (rowID : RowID) (newValue : ProtoMarshaler Msg)
    (oldValue : option (ProtoMarshaler Msg)) : KVStore * option error :=
  match itcs with
  | [] => (store, None)
  | itc :: itcs' =>
      match itc store rowID newValue oldValue with
      | (store', Some err) =>
          (store', Some (Wrap err ("interceptor " +:+ itoa i +:+ " failed")))
      | (store', None) => runAfterSave itcs' (S i) store' rowID newValue oldValue
      end
  end.

(** The loop [for i, itc := range a.afterDelete] of [Delete]. *)
Fixpoint runAfterDelete {Msg} (itcs : list (AfterDeleteInterceptor Msg)) (i : nat)
    (store : KVStore) (rowID : RowID) (value : ProtoMarshaler Msg)
  : KVStore * option error :=
  match itcs with
  | [] => (store, None)
  | itc :: itcs' =>
      match itc store rowID value with
      | (store', Some err) =>
          (store',
           Some (Wrap err ("delete interceptor " +:+ itoa i +:+ " failed")))
      | (store', None) => runAfterDelete itcs' (S i) store' rowID value
      end
  end.

(** [GetOne] load the object persisted for the given RowID into the dest
    parameter. *)
Definition GetOne {Msg} (a : Table Msg) (store : KVStore) (rowID : RowID)
    (dest : ProtoMarshaler Msg) : outcome (ProtoMarshaler Msg * option error) :=
  let x := NewTypeSafeRowGetter [prefix a] (model a) (cdc a) in
  x store rowID dest.

(** [Create] persists the given object under the rowID key. The result is
    the store as the call leaves it and the error returned. *)
Definition Create `{GoTypes Msg} (a : Table Msg) (store : KVStore) (rowID : RowID)
    (obj : ProtoMarshaler Msg) : outcome (KVStore * option error) :=
  match assertCorrectType (model a) obj with
  | Some err => Done (store, Some err)
  | None =>
      match assertValid obj with
      | Some err => Done (store, Some err)
      | None =>
          let pStore := prefix_NewStore store [prefix a] in
          '(v, err) ← cdc_Marshal (cdc a) obj;
          match err with
          | Some err =>
              Done (store,
                    Some (Wrap err
                            ("failed to serialize " +:+ type_String (TypeOf obj))))
          | None =>
              let store := pStore_Set pStore rowID v in
              Done (runAfterSave (afterSave a) 0 store rowID obj None)
          end
      end
  end.

(** [Update] updates the given object under the rowID key. *)
Definition Update `{GoTypes Msg} (a : Table Msg) (store : KVStore) (rowID : RowID)
    (newValue : ProtoMarshaler Msg) : outcome (KVStore * option error) :=
  match assertCorrectType (model a) newValue with
  | Some err => Done (store, Some err)
  | None =>
      match assertValid newValue with
      | Some err => Done (store, Some err)
      | None =>
          let pStore := prefix_NewStore store [prefix a] in
          let oldValue := reflect_New (model a) in
          '(oldValue, err) ← GetOne a store rowID oldValue;
          match err with
          | Some err => Done (store, Some (Wrap err "load old value"))
          | None =>
              '(newValueEncoded, err) ← cdc_Marshal (cdc a) newValue;
              match err with
              | Some err =>
                  Done (store,
                        Some (Wrap err
                                ("failed to serialize " +:+
                                 type_String (TypeOf newValue))))
              | None =>
                  let store := pStore_Set pStore rowID newValueEncoded in
                  Done (runAfterSave (afterSave a) 0 store rowID newValue
                          (Some oldValue))
              end
          end
      end
  end.

(** [Delete] removes the object under the rowID key. *)
Definition Delete `{GoTypes Msg} (a : Table Msg) (store : KVStore) (rowID : RowID)
  : outcome (KVStore * option error) :=
  let pStore := prefix_NewStore store [prefix a] in
  let oldValue := reflect_New (model a) in
  '(oldValue, err) ← GetOne a store rowID oldValue;
  match err with
  | Some err => Done (store, Some (Wrap err "load old value"))
  | None =>
      let store := pStore_Delete pStore rowID in
      Done (runAfterDelete (afterDelete a) 0 store rowID oldValue)
  end.

(** [Has] checks if a key exists. Panics on nil key. *)
Definition Has {Msg} (a : Table Msg) (store : KVStore) (rowID : RowID)
  : outcome bool :=
  let Store := prefix_NewStore store [prefix a] in
  '(start, end_) ← PrefixRange rowID;
  let it := pStore_Iterator Store start end_ in
  Done (Valid it).

(** [typeSafeIterator] is initialized with a type safe RowGetter only. *)
Record typeSafeIterator (Msg : Type) : Type := mkTypeSafeIterator {
  rowGetter : RowGetter Msg;
  it : list entry
}.
Arguments mkTypeSafeIterator {Msg} rowGetter it.
Arguments rowGetter {Msg} t.
Arguments it {Msg} t.

(** The values of the interface [Iterator] that the table returns: the
    iterator of [NewInvalidIterator] or a pointer to a [typeSafeIterator];
    [nilIterator] is the nil interface value. *)
Inductive Iterator (Msg : Type) : Type :=
  | nilIterator
  | invalidIterator
  | typeSafe (i : typeSafeIterator Msg).
Arguments nilIterator {Msg}.
Arguments invalidIterator {Msg}.
Arguments typeSafe {Msg} i.

(** Modelled from the spec: [NewInvalidIterator] is not part of the sources.
    "An iterator constructed from an invalid range check is a distinguished
    always-invalid/always-done variant"; [IteratorInvalid] is raised when
    "LoadNext [is] called on a construction-invalid iterator". *)
Definition NewInvalidIterator {Msg} : Iterator Msg := invalidIterator.

(** [LoadNext]: the iterator and the destination as the call leaves them,
    the row id and the error. The case of [typeSafe] is the method of the
    sources; the case of [invalidIterator] is modelled from the spec. *)
Definition LoadNext {Msg} (i : Iterator Msg) (store : KVStore)
    (dest : ProtoMarshaler Msg)
  : outcome (Iterator Msg * ProtoMarshaler Msg * (RowID * option error)) :=
  match i with
  | nilIterator => Panic nilDereference
  | invalidIterator => Done (i, dest, (None, Some ErrIteratorInvalid))
  | typeSafe ts =>
      match it ts with
      | [] => Done (i, dest, (None, Some ErrIteratorDone))
      | (key, _) :: rest =>
          let rowID := Some key in
          let i' := typeSafe (mkTypeSafeIterator (rowGetter ts) rest) in
          '(dest', err) ← rowGetter ts store rowID dest;
          Done (i', dest', (rowID, err))
      end
  end.

(** [PrefixScan] returns an Iterator over a domain of keys in ascending
    order. End is exclusive. *)
Definition PrefixScan {Msg} (a : Table Msg) (store : KVStore) (start end_ : RowID)
  : Iterator Msg * option error :=
  if decide (start ≠ None ∧ end_ ≠ None ∧ (bytes_Compare start end_ >= 0)%Z)
  then (NewInvalidIterator, Some (Wrap ErrArgument "start must be before end"))
  else
    (typeSafe (mkTypeSafeIterator
                 (NewTypeSafeRowGetter [prefix a] (model a) (cdc a))
                 (store_Iterator store start end_)),
     None).

(** [ReversePrefixScan] returns an Iterator over a domain of keys in
    descending order. End is exclusive. *)
Definition ReversePrefixScan {Msg} (a : Table Msg) (store : KVStore)
    (start end_ : RowID) : Iterator Msg * option error :=
  if decide (start ≠ None ∧ end_ ≠ None ∧ (bytes_Compare start end_ >= 0)%Z)
  then (NewInvalidIterator, Some (Wrap ErrArgument "start must be before end"))
  else
    (typeSafe (mkTypeSafeIterator
                 (NewTypeSafeRowGetter [prefix a] (model a) (cdc a))
                 (store_ReverseIterator store start end_)),
     None).

(** ** Interceptor chains *)

(** [saveChain rowID newValue oldValue itcs store store']: the AfterSave
    interceptors [itcs], called one after the other in the order of the
    list, each on the store that the one before it left, all return nil and
    leave [store']. *)
Inductive saveChain {Msg} (rowID : RowID) (newValue : ProtoMarshaler Msg)
    (oldValue : option (ProtoMarshaler Msg))
  : list (AfterSaveInterceptor Msg) → KVStore → KVStore → Prop :=
  | saveChain_nil store : saveChain rowID newValue oldValue [] store store
  | saveChain_cons itc itcs store store' store'' :
      itc store rowID newValue oldValue = (store', None) →
      saveChain rowID newValue oldValue itcs store' store'' →
      saveChain rowID newValue oldValue (itc :: itcs) store store''.

(** The same for the AfterDelete interceptors. *)
Inductive deleteChain {Msg} (rowID : RowID) (value : ProtoMarshaler Msg)
  : list (AfterDeleteInterceptor Msg) → KVStore → KVStore → Prop :=
  | deleteChain_nil store : deleteChain rowID value [] store store
  | deleteChain_cons itc itcs store store' store'' :
      itc store rowID value = (store', None) →
      deleteChain rowID value itcs store' store'' →
      deleteChain rowID value (itc :: itcs) store store''.

(** ** Example values *)

(** Messages that are plain byte strings, with a codec that writes a message
    as it is and reads the bytes into the destination. The type [*nft.Class]
    implements [Validateable] and rejects the empty message. *)
Definition classType : reflect_Type := Named "nft.Class".
Definition nftType : reflect_Type := Named "nft.NFT".

#[global] Instance exampleTypes : GoTypes (list byte) := {|
  zeroValue := λ _, [];
  ValidateBasic := λ t,
    if decide (t = PtrTo classType)
    then Some (λ m, if decide (m = []) then Some (Foreign "empty class") else None)
    else None
|}.

Definition exampleCodec : Codec (list byte) := {|
  Marshal := λ o, (message o, None);
  Unmarshal := λ bz dest, (mkProtoMarshaler (TypeOf dest) bz, None)
|}.

Definition classRow (m : list byte) : ProtoMarshaler (list byte) :=
  mkProtoMarshaler (PtrTo classType) m.

Definition nftRow (m : list byte) : ProtoMarshaler (list byte) :=
  mkProtoMarshaler (PtrTo nftType) m.

(** An interceptor that maintains an index under the prefix [p]. *)
Definition indexWriter (p : byte) : AfterSaveInterceptor (list byte) :=
  λ store rowID _ _, (store_Set store ([p] ++ elems rowID) [], None).

(** An interceptor that fails and leaves the store as it is. *)
Definition failingSave : AfterSaveInterceptor (list byte) :=
  λ store _ _ _, (store, Some (Foreign "index rejected")).

(** An interceptor that removes the row of the table with prefix 0x01 for
    which it is called. *)
Definition rowDropper : AfterSaveInterceptor (list byte) :=
  λ store rowID _ _, (store_Delete store ([x01] ++ elems rowID), None).

Definition indexEraser (p : byte) : AfterDeleteInterceptor (list byte) :=
  λ store rowID _, (store_Delete store ([p] ++ elems rowID), None).

Definition failingDelete : AfterDeleteInterceptor (list byte) :=
  λ store _ _, (store, Some (Foreign "index rejected")).

(** The table of the classes, under the prefix 0x01. *)
Definition classTable : Table (list byte) :=
  mkTable classType x01 [] [] (Some exampleCodec).

Definition indexedTable : Table (list byte) :=
  mkTable classType x01 [indexWriter x02; failingSave; indexWriter x03]
    [indexEraser x02; failingDelete; indexEraser x03] (Some exampleCodec).

Definition indexOnlyTable : Table (list byte) :=
  mkTable classType x01 [indexWriter x02] [indexEraser x02] (Some exampleCodec).

Definition droppingTable : Table (list byte) :=
  mkTable classType x01 [rowDropper] [] (Some exampleCodec).

Definition keyA : list byte := ["a"%byte].
Definition keyAB : list byte := ["a"%byte; "b"%byte].
Definition keyB : list byte := ["b"%byte].

(** A store with the one row "ab" of the table of the classes. *)
Definition storeAB : KVStore := {[ x01 :: keyAB := ["7"%byte] ]}.

(** A store shared by two tables: the row "a" under the prefix 0x01 and the
    row "b" under the prefix 0x02. *)
Definition sharedStore : KVStore :=
  <[ x01 :: keyA := ["1"%byte] ]> {[ x02 :: keyB := ["2"%byte] ]}.

(** The row "a" of the table of the classes with its entries in the indexes
    under the prefixes 0x02 and 0x03. *)
Definition indexedStore : KVStore :=
  <[ x01 :: keyA := ["1"%byte] ]>
    (<[ x02 :: keyA := [] ]> {[ x03 :: keyA := [] ]}).

(** * Package nft (nft.pb.go) *)

Section nft_definitions.
Local Open Scope Z_scope.

(** ** Go integers *)

(** Conversions to [uint64], to [int] and [int64] (64 bits, two's
    complement), to [int32] and to [uint8]: the value modulo the width. *)
Definition uint64 (z : Z) : Z := z mod 2 ^ 64.
Definition int (z : Z) : Z := (z + 2 ^ 63) mod 2 ^ 64 - 2 ^ 63.
Definition int32 (z : Z) : Z := (z + 2 ^ 31) mod 2 ^ 32 - 2 ^ 31.
Definition uint8 (z : Z) : byte := default x00 (Byte.of_N (Z.to_N (z mod 256))).

(** The value of a byte. *)
Definition byteVal (b : byte) : Z := Z.of_N (Byte.to_N b).

(** [len(s)] of a string or a slice, as an [int]. *)
Definition lenZ (s : list byte) : Z := Z.of_nat (length s).

(** The decimal rendering of [%d] for a signed integer. *)
Definition showZ (z : Z) : string := NilZero.string_of_int (Z.to_int z).

(** [math/bits.Len64]: the minimum number of bits required to represent
    [x]; 0 for [x = 0]. *)
Definition Len64 (x : Z) : Z := if decide (x = 0) then 0 else Z.log2 x + 1.

(** ** Slices that are written in place *)

(** [dAtA[i] = b]; the index must be in range. *)
Definition store_byte (dAtA : list byte) (i : Z) (b : byte) : outcome (list byte) :=
  if decide (0 ≤ i < lenZ dAtA)
  then Done (<[Z.to_nat i := b]> dAtA)
  else Panic "index out of range".

(** [copy(dAtA[i:], src)]: the slice expression needs [0 <= i <= len(dAtA)],
    and [copy] writes as many bytes as fit. *)
Definition copy_from (dAtA : list byte) (i : Z) (src : list byte)
  : outcome (list byte) :=
  if decide (0 ≤ i ≤ lenZ dAtA)
  then
    let n := Nat.min (length dAtA - Z.to_nat i) (length src) in
    Done (take (Z.to_nat i) dAtA ++ take n src ++ drop (Z.to_nat i + n) dAtA)
  else Panic "slice bounds out of range".

(** ** Errors of the package *)

Definition ErrInvalidLengthNft : error :=
  Foreign "proto: negative length found during unmarshaling".
Definition ErrIntOverflowNft : error := Foreign "proto: integer overflow".
Definition ErrUnexpectedEndOfGroupNft : error :=
  Foreign "proto: unexpected end of group".

(** [io.ErrUnexpectedEOF]. *)
Definition io_ErrUnexpectedEOF : error := Foreign "unexpected EOF".

(** ** Varints *)

Definition sovNft (x : Z) : Z := (Len64 (Z.lor x 1) + 6) / 7.

Definition sozNft (x : Z) : Z :=
  sovNft (uint64 (Z.lxor (uint64 (Z.shiftl x 1)) (uint64 (Z.shiftr (int x) 63)))).

#[local] Unset Equations With Funext.

(** The loop [for v >= 1<<7] of [encodeVarintNft] and the store that
    follows it. *)
Equations? encodeVarintLoop (dAtA : list byte) (offset v : Z) : outcome (list byte)
  by wf (Z.to_nat (Z.log2 v)) lt :=
  encodeVarintLoop dAtA offset v with decide (v >= 128) := {
    | left _ with store_byte dAtA offset (uint8 (Z.lor (Z.land v 0x7f) 0x80)) := {
        | Done dAtA' => encodeVarintLoop dAtA' (offset + 1) (Z.shiftr v 7)
        | Panic msg => Panic msg }
    | right _ => store_byte dAtA offset (uint8 v) }.
Proof.
  rewrite Z.log2_shiftr by lia.
  assert (7 ≤ Z.log2 v) by (apply Z.log2_le_pow2; lia). lia.
Qed.

(** [encodeVarintNft]: the slice as the call leaves it, and the offset that
    it returns. *)
Definition encodeVarintNft (dAtA : list byte) (offset v : Z)
  : outcome (list byte * Z) :=
  let offset := offset - sovNft v in
  let base := offset in
  dAtA ← encodeVarintLoop dAtA offset v;
  Done (dAtA, base).

(** The bytes of a varint with [n] continuation bytes, least significant
    group first; [varint v] is the varint of [v], of [sovNft v] bytes. This
    is the wire format that [encodeVarintNft] is compared with. *)
Fixpoint varintBytes (n : nat) (v : Z) : list byte :=
  match n with
  | O => [uint8 v]
  | S n => uint8 (Z.lor (Z.land v 0x7f) 0x80) :: varintBytes n (Z.shiftr v 7)
  end.

Definition varint (v : Z) : list byte := varintBytes (Z.to_nat (sovNft v - 1)) v.

(** The loop [for shift := uint(0); ; shift += 7] that reads a varint, which
    the source repeats wherever it reads one: [rest] is [dAtA[iNdEx:]], and
    [conv] is the conversion of the type of the variable that accumulates
    the value, [uint64] or [int]. The result is the value and the index
    after the varint. *)
Fixpoint varintLoop (conv : Z → Z) (rest : list byte) (shift iNdEx acc : Z)
  : error + Z * Z :=
  if decide (shift >= 64) then inl ErrIntOverflowNft
  else
    match rest with
    | [] => inl io_ErrUnexpectedEOF
    | b :: rest' =>
        let iNdEx := iNdEx + 1 in
        let acc := Z.lor acc (conv (Z.shiftl (Z.land (byteVal b) 0x7F) shift)) in
        if decide (byteVal b < 0x80) then inr (acc, iNdEx)
        else varintLoop conv rest' (shift + 7) iNdEx acc
    end.

Definition readVarint (conv : Z → Z) (dAtA : list byte) (iNdEx : Z)
  : error + Z * Z :=
  varintLoop conv (drop (Z.to_nat iNdEx) dAtA) 0 iNdEx 0.

(** ** Class *)

(** [Class] defines the class of the nft type; a Go string is a sequence of
    bytes. *)
Record Class : Type := mkClass {
  Id : list byte;
  Name : list byte;
  Symbol : list byte;
  Description : list byte;
  Uri : list byte;
  UriHash : list byte
}.

#[global] Instance Class_eq_dec : EqDecision Class.
Proof. solve_decision. Defined.

(** [Reset]: [*m = Class{}]. *)
Definition Class_Reset : Class := mkClass [] [] [] [] [] [].

(** The getters take a pointer that may be nil. *)
Definition Class_GetId (m : option Class) : list byte :=
  match m with Some m => Id m | None => [] end.
Definition Class_GetName (m : option Class) : list byte :=
  match m with Some m => Name m | None => [] end.
Definition Class_GetSymbol (m : option Class) : list byte :=
  match m with Some m => Symbol m | None => [] end.
Definition Class_GetDescription (m : option Class) : list byte :=
  match m with Some m => Description m | None => [] end.
Definition Class_GetUri (m : option Class) : list byte :=
  match m with Some m => Uri m | None => [] end.
Definition Class_GetUriHash (m : option Class) : list byte :=
  match m with Some m => UriHash m | None => [] end.

(** The term [1 + l + sovNft(uint64(l))] that [Size] adds for a string of
    length [l > 0]. *)
Definition sizeString (s : list byte) : Z :=
  let l := lenZ s in
  if decide (l > 0) then 1 + l + sovNft (uint64 l) else 0.

(** [Size]: [n] is an [int], and the additions [n += ...] wrap around: the
    result is the sum of the terms modulo the width. *)
Definition Class_Size (m : option Class) : Z :=
  match m with
  | None => 0
  | Some m =>
      int (sizeString (Id m) + sizeString (Name m) + sizeString (Symbol m)
           + sizeString (Description m) + sizeString (Uri m)
           + sizeString (UriHash m))
  end.

(** The block that [MarshalToSizedBuffer] repeats for each string field:
    [if len(s) > 0 { i -= len(s); copy(dAtA[i:], s);
    i = encodeVarintNft(dAtA, i, uint64(len(s))); i--; dAtA[i] = tag }]. *)
Definition putString (tag : byte) (s : list byte) (dAtA : list byte) (i : Z)
  : outcome (list byte * Z) :=
  if decide (lenZ s > 0)
  then
    let i := i - lenZ s in
    dAtA ← copy_from dAtA i s;
    '(dAtA, i) ← encodeVarintNft dAtA i (uint64 (lenZ s));
    let i := i - 1 in
    dAtA ← store_byte dAtA i tag;
    Done (dAtA, i)
  else Done (dAtA, i).

(** The wire format of a string field, which [Marshal] is compared with:
    nothing for the empty string, else the tag, the varint of the length and
    the bytes of the string. *)
Definition fieldBytes (tag : byte) (s : list byte) : list byte :=
  if decide (lenZ s > 0) then tag :: varint (uint64 (lenZ s)) ++ s else [].

(** The wire format of a [Class]: its non-empty fields in the order of their
    numbers. *)
Definition Class_wire (m : Class) : list byte :=
  fieldBytes x0a (Id m) ++ fieldBytes x12 (Name m) ++ fieldBytes x1a (Symbol m)
  ++ fieldBytes x22 (Description m) ++ fieldBytes x2a (Uri m)
  ++ fieldBytes x32 (UriHash m).

(** [MarshalToSizedBuffer]: the buffer as the call leaves it, and the pair
    it returns. *)
Definition Class_MarshalToSizedBuffer (m : option Class) (dAtA : list byte)
  : outcome (list byte * (Z * option error)) :=
  match m with
  | None => Panic nilDereference
  | Some m =>
      let i := lenZ dAtA in
      '(dAtA, i) ← putString x32 (UriHash m) dAtA i;
      '(dAtA, i) ← putString x2a (Uri m) dAtA i;
      '(dAtA, i) ← putString x22 (Description m) dAtA i;
      '(dAtA, i) ← putString x1a (Symbol m) dAtA i;
      '(dAtA, i) ← putString x12 (Name m) dAtA i;
      '(dAtA, i) ← putString x0a (Id m) dAtA i;
      Done (dAtA, (lenZ dAtA - i, None))
  end.

(** [dAtA[:n]] of a slice of length and capacity [len(dAtA)]. *)
Definition slice_to (dAtA : list byte) (n : Z) : outcome (list byte) :=
  if decide (0 ≤ n ≤ lenZ dAtA)
  then Done (take (Z.to_nat n) dAtA)
  else Panic "slice bounds out of range".

(** [Marshal]: [make] panics on a negative size; [dAtA[:size]] shares its
    array with [dAtA], so that the buffer that [MarshalToSizedBuffer] leaves
    is [dAtA]; the nil slice that is returned with an error is the empty
    list. *)
Definition Class_Marshal (m : option Class) : outcome (list byte * option error) :=
  let size := Class_Size m in
  if decide (size < 0) then Panic "makeslice: len out of range"
  else
    let dAtA := replicate (Z.to_nat size) x00 in
    buf ← slice_to dAtA size;
    '(dAtA, (n, err)) ← Class_MarshalToSizedBuffer m buf;
    match err with
    | Some err => Done ([], Some err)
    | None =>
        dAtA ← slice_to dAtA n;
        Done (dAtA, None)
    end.

(** ** Skipping a field *)

(** The loop [for iNdEx < l] of [skipNft]. [None] stands for a loop that
    has not ended after [fuel] iterations. *)
Fixpoint skipNft_loop (fuel : nat) (dAtA : list byte) (iNdEx depth : Z)
  : option (Z * option error) :=
  match fuel with
  | O => None
  | S fuel =>
      let l := lenZ dAtA in
      if decide (iNdEx < l)
      then
        match readVarint uint64 dAtA iNdEx with
        | inl err => Some (0, Some err)
        | inr (wire, iNdEx) =>
            let wireType := int (Z.land wire 0x7) in
            let after (iNdEx depth : Z) : option (Z * option error) :=
              if decide (iNdEx < 0) then Some (0, Some ErrInvalidLengthNft)
              else if decide (depth = 0) then Some (iNdEx, None)
              else skipNft_loop fuel dAtA iNdEx depth in
            match wireType with
            | 0 =>
                match readVarint uint64 dAtA iNdEx with
                | inl err => Some (0, Some err)
                | inr (_, iNdEx) => after iNdEx depth
                end
            | 1 => after (int (iNdEx + 8)) depth
            | 2 =>
                match readVarint int dAtA iNdEx with
                | inl err => Some (0, Some err)
                | inr (length, iNdEx) =>
                    if decide (length < 0) then Some (0, Some ErrInvalidLengthNft)
                    else after (int (iNdEx + length)) depth
                end
            | 3 => after iNdEx (int (depth + 1))
            | 4 =>
                if decide (depth = 0) then Some (0, Some ErrUnexpectedEndOfGroupNft)
                else after iNdEx (int (depth - 1))
            | 5 => after (int (iNdEx + 4)) depth
            | _ =>
                Some (0, Some (Foreign ("proto: illegal wireType " +:+ showZ wireType)))
            end
        end
      else Some (0, Some io_ErrUnexpectedEOF)
  end.

(** [skipNft]: every iteration of its loop reads at least one byte, so that
    the loop ends within [len(dAtA)] iterations. *)
Definition skipNft (dAtA : list byte) : option (Z * option error) :=
  skipNft_loop (S (length dAtA)) dAtA 0 0.

(** ** Unmarshal *)

(** The block that [Unmarshal] repeats for each string field: the check of
    the wire type, the varint of the length, the checks of the length, and
    the string [dAtA[iNdEx:postIndex]] with [postIndex]. *)
Definition readString (field : string) (wireType : Z) (dAtA : list byte)
    (iNdEx : Z) : error + list byte * Z :=
  let l := lenZ dAtA in
  if decide (wireType ≠ 2)
  then inl (Foreign ("proto: wrong wireType = " +:+ showZ wireType
                     +:+ " for field " +:+ field))
  else
    match readVarint uint64 dAtA iNdEx with
    | inl err => inl err
    | inr (stringLen, iNdEx) =>
        let intStringLen := int stringLen in
        if decide (intStringLen < 0) then inl ErrInvalidLengthNft
        else
          let postIndex := int (iNdEx + intStringLen) in
          if decide (postIndex < 0) then inl ErrInvalidLengthNft
          else if decide (postIndex > l) then inl io_ErrUnexpectedEOF
          else
            inr (take (Z.to_nat (postIndex - iNdEx)) (drop (Z.to_nat iNdEx) dAtA),
                 postIndex)
    end.

(** The loop [for iNdEx < l] of [Unmarshal] and the check that follows it:
    the message as the call leaves it, and the error. [None] stands for a
    loop that has not ended after [fuel] iterations. *)
Fixpoint Class_Unmarshal_loop (fuel : nat) (m : Class) (dAtA : list byte)
    (iNdEx : Z) : option (Class * option error) :=
  match fuel with
  | O => None
  | S fuel =>
      let l := lenZ dAtA in
      if decide (iNdEx < l)
      then
        let preIndex := iNdEx in
        match readVarint uint64 dAtA iNdEx with
        | inl err => Some (m, Some err)
        | inr (wire, iNdEx) =>
            let fieldNum := int32 (Z.shiftr wire 3) in
            let wireType := int (Z.land wire 0x7) in
            let field (name : string) (set : list byte → Class)
              : option (Class * option error) :=
              match readString name wireType dAtA iNdEx with
              | inl err => Some (m, Some err)
              | inr (s, postIndex) => Class_Unmarshal_loop fuel (set s) dAtA postIndex
              end in
            if decide (wireType = 4)
            then Some (m, Some (Foreign "proto: Class: wiretype end group for non-group"))
            else if decide (fieldNum <= 0)
            then Some (m, Some (Foreign ("proto: Class: illegal tag " +:+ showZ fieldNum
                                         +:+ " (wire type " +:+ showZ wire +:+ ")")))
            else
              match fieldNum with
              | 1 => field "Id" (λ s, mkClass s (Name m) (Symbol m) (Description m)
                                        (Uri m) (UriHash m))
              | 2 => field "Name" (λ s, mkClass (Id m) s (Symbol m) (Description m)
                                          (Uri m) (UriHash m))
              | 3 => field "Symbol" (λ s, mkClass (Id m) (Name m) s (Description m)
                                            (Uri m) (UriHash m))
              | 4 => field "Description" (λ s, mkClass (Id m) (Name m) (Symbol m) s
                                                 (Uri m) (UriHash m))
              | 5 => field "Uri" (λ s, mkClass (Id m) (Name m) (Symbol m)
                                         (Description m) s (UriHash m))
              | 6 => field "UriHash" (λ s, mkClass (Id m) (Name m) (Symbol m)
                                             (Description m) (Uri m) s)
              | _ =>
                  let iNdEx := preIndex in
                  match skipNft (drop (Z.to_nat iNdEx) dAtA) with
                  | None => None
                  | Some (_, Some err) => Some (m, Some err)
                  | Some (skippy, None) =>
                      if decide (skippy < 0 ∨ int (iNdEx + skippy) < 0)
                      then Some (m, Some ErrInvalidLengthNft)
                      else if decide (int (iNdEx + skippy) > l)
                      then Some (m, Some io_ErrUnexpectedEOF)
                      else Class_Unmarshal_loop fuel m dAtA (int (iNdEx + skippy))
                  end
              end
        end
      else Some (m, if decide (iNdEx > l) then Some io_ErrUnexpectedEOF else None)
  end.

(** [Unmarshal] on a non-nil receiver: every iteration of its loop reads at
    least one byte, so that the loop ends within [len(dAtA)] iterations. *)
Definition Class_Unmarshal (m : Class) (dAtA : list byte)
  : option (Class * option error) :=
  Class_Unmarshal_loop (S (length dAtA)) m dAtA 0.

(** The message that [Unmarshal] is expected to leave when it reads the
    wire format of [m] into [m0]: a field is the one of [m] when that is not
    empty, and else stays the one of [m0]. *)
Definition pick (new old : list byte) : list byte :=
  if decide (lenZ new > 0) then new else old.

Definition Class_merge (m0 m : Class) : Class :=
  mkClass (pick (Id m) (Id m0)) (pick (Name m) (Name m0))
    (pick (Symbol m) (Symbol m0)) (pick (Description m) (Description m0))
    (pick (Uri m) (Uri m0)) (pick (UriHash m) (UriHash m0)).

(** The assignment [m.Id = ...], [m.Name = ...], ... of the case of
    [Unmarshal] for the field number, and the message after the assignments
    for a sequence of fields, in the order of the sequence. *)
Definition Class_setField (fieldNum : Z) (s : list byte) (m : Class) : Class :=
  match fieldNum with
  | 1 => mkClass s (Name m) (Symbol m) (Description m) (Uri m) (UriHash m)
  | 2 => mkClass (Id m) s (Symbol m) (Description m) (Uri m) (UriHash m)
  | 3 => mkClass (Id m) (Name m) s (Description m) (Uri m) (UriHash m)
  | 4 => mkClass (Id m) (Name m) (Symbol m) s (Uri m) (UriHash m)
  | 5 => mkClass (Id m) (Name m) (Symbol m) (Description m) s (UriHash m)
  | 6 => mkClass (Id m) (Name m) (Symbol m) (Description m) (Uri m) s
  | _ => m
  end.

Definition Class_setFields (m : Class) (fields : list (Z * list byte)) : Class :=
  foldl (λ m field, Class_setField field.1 field.2 m) m fields.

(** The wire format of a string field with a number, empty or not: the tag
    of the number with the wire type 2, the varint of the length, and the
    bytes; and the wire format of a sequence of fields. *)
Definition fieldEncoding (fieldNum : Z) (s : list byte) : list byte :=
  uint8 (8 * fieldNum + 2) :: varint (lenZ s) ++ s.

Definition fieldsEncoding (fields : list (Z * list byte)) : list byte :=
  flat_map (λ field, fieldEncoding field.1 field.2) fields.

(** The names of the fields in the errors of [Unmarshal], by field number. *)
Definition Class_fieldName (fieldNum : Z) : string :=
  match fieldNum with
  | 1 => "Id"
  | 2 => "Name"
  | 3 => "Symbol"
  | 4 => "Description"
  | 5 => "Uri"
  | 6 => "UriHash"
  | _ => EmptyString
  end.

(** Two messages for the examples: the second has no [Name] and another
    [Symbol]. *)
Definition exampleClass : Class :=
  mkClass [x6b; x69; x74] [x4b] [] [x64; x65] [] [xff; x00].

Definition otherClass : Class :=
  mkClass [x6b; x69; x74] [] [x4b; x54] [] [x75] [].

End nft_definitions.

(** * More example values for the table *)

(** A codec whose [Marshal] fails. *)
Definition failingCodec : Codec (list byte) := {|
  Marshal := λ o, ([], Some (Foreign "cannot encode"));
  Unmarshal := λ bz dest, (mkProtoMarshaler (TypeOf dest) bz, None)
|}.

Definition brokenTable : Table (list byte) :=
  mkTable classType x01 [indexWriter x02] [] (Some failingCodec).

(** The table of the NFTs, under the prefix 0x02. *)
Definition nftTable : Table (list byte) :=
  mkTable nftType x02 [] [] (Some exampleCodec).

(** A store with the one row "a" of the table of the classes. *)
Definition storeA : KVStore := {[ x01 :: keyA := ["1"%byte] ]}.

(** An interceptor that maintains a unique index under the prefix [p]: it
    fails when the index holds the key already. *)
Definition uniqueIndexWriter (p : byte) : AfterSaveInterceptor (list byte) :=
  λ store rowID _ _,
    match store !! ([p] ++ elems rowID) with
    | Some _ => (store, Some ErrUniqueConstraint)
    | None => (store_Set store ([p] ++ elems rowID) [], None)
    end.

Definition uniqueTable : Table (list byte) :=
  mkTable classType x01 [uniqueIndexWriter x02] [] (Some exampleCodec).

(** A store with the one row "b" of the table of the classes. *)
Definition storeB : KVStore := {[ x01 :: keyB := ["2"%byte] ]}.

(** * Properties *)

(** Closed equations between values that compute are settled by evaluation
    on the virtual machine. *)
Ltac by_evaluation :=
  lazymatch goal with
  | |- @eq ?T ?l ?r => exact (@eq_refl T r <: l = r)
  end.

(** ** The order of the keys *)

Lemma to_N_inj (x y : byte) : Byte.to_N x = Byte.to_N y → x = y.
Proof.
  intros Heq. apply (inj Some).
  by rewrite <- (Byte.of_to_N x), <- (Byte.of_to_N y), Heq.
Qed.

Lemma compare_bytes_refl a : compare_bytes a a = Eq.
Proof. induction a as [|x a IH]; simpl; [done|]. by rewrite N.compare_refl. Qed.

Lemma compare_bytes_Eq a b : compare_bytes a b = Eq → a = b.
Proof.
  revert b. induction a as [|x a IH]; intros [|y b]; simpl; try done.
  destruct (N.compare_spec (Byte.to_N x) (Byte.to_N y)) as [Hxy| |]; try done.
  intros Hab. f_equal; [by apply to_N_inj | by apply IH].
Qed.

Lemma compare_bytes_antisym a b :
  compare_bytes b a = CompOpp (compare_bytes a b).
Proof.
  revert b. induction a as [|x a IH]; intros [|y b]; simpl; try done.
  rewrite (N.compare_antisym (Byte.to_N x) (Byte.to_N y)).
  destruct (Byte.to_N x ?= Byte.to_N y)%N; simpl; auto.
Qed.

Lemma compare_bytes_Lt_trans a b c :
  compare_bytes a b = Lt → compare_bytes b c = Lt → compare_bytes a c = Lt.
Proof.
  revert b c. induction a as [|x a IH]; intros [|y b] [|z c]; simpl; try done.
  destruct (N.compare_spec (Byte.to_N x) (Byte.to_N y)) as [Hxy|Hxy|Hxy];
    destruct (N.compare_spec (Byte.to_N y) (Byte.to_N z)) as [Hyz|Hyz|Hyz];
    try done; intros Hab Hbc.
  - rewrite Hxy, Hyz, N.compare_refl. eauto.
  - rewrite Hxy. by apply N.compare_lt_iff in Hyz as ->.
  - rewrite <- Hyz. by apply N.compare_lt_iff in Hxy as ->.
  - assert (Byte.to_N x < Byte.to_N z)%N as Hxz by lia.
    by apply N.compare_lt_iff in Hxz as ->.
Qed.

Lemma compare_bytes_app pre a b :
  compare_bytes (pre ++ a) (pre ++ b) = compare_bytes a b.
Proof. induction pre as [|x pre IH]; simpl; [done|]. by rewrite N.compare_refl. Qed.

Lemma key_lt_le a b : key_lt a b → key_le a b.
Proof. unfold key_lt, key_le. by intros ->. Qed.

Lemma key_le_lt_or_eq a b : key_le a b ↔ key_lt a b ∨ a = b.
Proof.
  unfold key_le, key_lt. split.
  - destruct (compare_bytes a b) eqn:Hab; [|by left|done].
    right. by apply compare_bytes_Eq.
  - intros [->| ->]; [done|]. by rewrite compare_bytes_refl.
Qed.

Lemma key_lt_not_le a b : key_lt a b ↔ ¬ key_le b a.
Proof.
  unfold key_le, key_lt. rewrite (compare_bytes_antisym a b).
  destruct (compare_bytes a b); simpl; intuition congruence.
Qed.

#[global] Instance key_le_refl : Reflexive key_le.
Proof. intros a. unfold key_le. by rewrite compare_bytes_refl. Qed.

#[global] Instance key_le_trans : Transitive key_le.
Proof.
  intros a b c [Hab| ->]%key_le_lt_or_eq [Hbc| ->]%key_le_lt_or_eq;
    apply key_le_lt_or_eq; [left|by left|by left|by right].
  by apply (compare_bytes_Lt_trans a b c).
Qed.

#[global] Instance key_le_antisym : AntiSymm (=) key_le.
Proof.
  intros a b [Hab| ->]%key_le_lt_or_eq Hba; [|done].
  by apply key_lt_not_le in Hab.
Qed.

#[global] Instance key_le_total : Total key_le.
Proof.
  intros a b. destruct (decide (key_le a b)) as [|Hn]; [by left|right].
  by apply key_lt_le, key_lt_not_le.
Qed.

Lemma key_le_lt_trans a b c : key_le a b → key_lt b c → key_lt a c.
Proof.
  intros [Hab| ->]%key_le_lt_or_eq Hbc; [|done].
  by eapply compare_bytes_Lt_trans.
Qed.

#[global] Instance entry_le_trans : Transitive entry_le.
Proof. intros e1 e2 e3. unfold entry_le. apply key_le_trans. Qed.

#[global] Instance entry_le_total : Total entry_le.
Proof. intros e1 e2. unfold entry_le. apply key_le_total. Qed.

Lemma key_le_nil a : key_le [] a.
Proof. unfold key_le. by destruct a. Qed.

Lemma key_le_app pre a b : key_le (pre ++ a) (pre ++ b) ↔ key_le a b.
Proof. unfold key_le. by rewrite compare_bytes_app. Qed.

Lemma key_lt_app pre a b : key_lt (pre ++ a) (pre ++ b) ↔ key_lt a b.
Proof. unfold key_lt. by rewrite compare_bytes_app. Qed.

(** ** The range of the keys that start with a prefix *)

Lemma of_N_succ_Some (b b' : byte) :
  Byte.of_N (Byte.to_N b + 1) = Some b' → Byte.to_N b' = (Byte.to_N b + 1)%N.
Proof. apply Byte.to_of_N. Qed.

Lemma of_N_succ_None (b : byte) :
  Byte.of_N (Byte.to_N b + 1) = None → Byte.to_N b = 255%N.
Proof.
  intros Hnone%Byte.of_N_None_iff. pose proof (Byte.to_N_bounded b). lia.
Qed.

Lemma prefix_of_cons_iff (b c : byte) k x :
  (b :: k) `prefix_of` (c :: x) ↔ b = c ∧ k `prefix_of` x.
Proof.
  split.
  - intros [r Hr]. simplify_eq/=. split; [done|]. by exists r.
  - intros [-> [r ->]]. by exists r.
Qed.

(** A key starts with [k] exactly when it lies in [[k, prefixEnd k)]. *)
Lemma prefix_of_in_domain k x :
  k `prefix_of` x ↔ in_domain (Some k) (prefixEnd k) x.
Proof.
  unfold in_domain. revert x. induction k as [|b k IH]; intros x.
  { simpl. split; [intros _; split; [apply key_le_nil|done] | intros _; apply prefix_nil]. }
  destruct x as [|c x].
  { split; [intros [r Hr]; by simplify_eq/= | by intros [Hle _]]. }
  rewrite prefix_of_cons_iff, IH. clear IH.
  unfold key_le, key_lt. simpl.
  pose proof (Byte.to_N_bounded c) as Hc.
  destruct (N.compare_spec (Byte.to_N b) (Byte.to_N c)) as [Hbc|Hbc|Hbc].
  - apply to_N_inj in Hbc as <-.
    destruct (prefixEnd k) as [e|]; simpl.
    + rewrite N.compare_refl. tauto.
    + destruct (Byte.of_N (Byte.to_N b + 1)) as [b'|] eqn:Hb'; [|tauto].
      apply of_N_succ_Some in Hb'. simpl. rewrite Hb'.
      assert (Byte.to_N b < Byte.to_N b + 1)%N as ->%N.compare_lt_iff by lia.
      tauto.
  - assert (b ≠ c) by (intros ->; lia).
    destruct (prefixEnd k) as [e|]; simpl.
    + assert (Byte.to_N b < Byte.to_N c)%N as Hgt by lia.
      apply N.compare_gt_iff in Hgt as ->. intuition (done || congruence).
    + destruct (Byte.of_N (Byte.to_N b + 1)) as [b'|] eqn:Hb'.
      * apply of_N_succ_Some in Hb'. simpl. rewrite Hb'.
        destruct (N.compare_spec (Byte.to_N c) (Byte.to_N b + 1)); try lia;
          [destruct x|]; intuition (done || congruence).
      * apply of_N_succ_None in Hb'. lia.
  - assert (b ≠ c) by (intros ->; lia). intuition (done || congruence).
Qed.

Lemma prefix_of_key_le k x : k `prefix_of` x → key_le k x.
Proof. intros Hp%prefix_of_in_domain. apply Hp. Qed.

(** ** The range of [PrefixRange] *)

Lemma to_N_255 (b : byte) : Byte.to_N b = 255%N → b = xff.
Proof. intros Hb. by apply to_N_inj. Qed.

(** The keys that start with [k] are below the end of the range of [k]. *)
Lemma incrementKey_above k e r :
  incrementKey k = (e, false) → key_lt (k ++ r) e.
Proof.
  revert e. induction k as [|b k IH]; intros e; simpl; [done|].
  destruct (incrementKey k) as [rest' [|]].
  - destruct (Byte.of_N (Byte.to_N b + 1)) as [b'|] eqn:Hb'; [|done].
    intros [= <-]. apply of_N_succ_Some in Hb'. unfold key_lt. simpl.
    rewrite Hb'.
    by assert (Byte.to_N b < Byte.to_N b + 1)%N as ->%N.compare_lt_iff by lia.
  - intros [= <-]. unfold key_lt. simpl. rewrite N.compare_refl. by apply IH.
Qed.

Lemma prefix_of_in_range k x :
  k `prefix_of` x → in_domain (Some k) (rangeEnd k) x.
Proof.
  intros Hp. split; [by apply prefix_of_key_le|].
  unfold rangeEnd. destruct (incrementKey k) as [e [|]] eqn:He; [done|].
  destruct Hp as [r ->]. by apply incrementKey_above.
Qed.

(** For a key that does not end in 0xFF the end of the range is the end of
    the keys that start with the key. *)
Lemma rangeEnd_prefixEnd k : last k ≠ Some xff → rangeEnd k = prefixEnd k.
Proof.
  destruct k as [|b k]; [done|]. intros Hlast.
  enough (∃ e, incrementKey (b :: k) = (e, false) ∧ prefixEnd (b :: k) = Some e)
    as (e & He & ->) by (unfold rangeEnd; by rewrite He).
  revert b Hlast. induction k as [|c k IH]; intros b Hlast.
  - simpl in *. destruct (Byte.of_N (Byte.to_N b + 1)) as [b'|] eqn:Hb'; [by eexists|].
    apply of_N_succ_None, to_N_255 in Hb'. by subst.
  - destruct (IH c) as (e & He & Hend); [done|].
    exists (b :: e). change (incrementKey (b :: c :: k))
      with (let '(rest', carry) := incrementKey (c :: k) in
            if carry
            then match Byte.of_N (Byte.to_N b + 1) with
                 | Some b' => (b' :: rest', false)
                 | None => (x00 :: rest', true)
                 end
            else (b :: rest', false)).
    rewrite He. split; [done|].
    change (prefixEnd (b :: c :: k))
      with (match prefixEnd (c :: k) with
            | Some e => Some (b :: e)
            | None => match Byte.of_N (Byte.to_N b + 1) with
                      | Some b' => Some [b']
                      | None => None
                      end
            end).
    by rewrite Hend.
Qed.

Lemma in_range_prefix_of k x :
  last k ≠ Some xff → (in_domain (Some k) (rangeEnd k) x ↔ k `prefix_of` x).
Proof. intros Hlast. by rewrite rangeEnd_prefixEnd, prefix_of_in_domain. Qed.

(** A key that is not below [k] and does not start with [k] is above the
    keys that start with [k]. *)
Lemma key_lt_not_prefix_of k x x' :
  key_le k x' → ¬ k `prefix_of` x' → k `prefix_of` x → key_lt x x'.
Proof.
  revert x x'. induction k as [|b k IH]; intros x x' Hle Hnp Hp.
  { destruct Hnp. apply prefix_nil. }
  destruct x' as [|b' x']; [done|]. destruct Hp as [r ->].
  unfold key_le, key_lt in *. simpl in *.
  destruct (N.compare_spec (Byte.to_N b) (Byte.to_N b')) as [Hbb|Hbb|Hbb];
    [|done..].
  apply to_N_inj in Hbb as <-. apply (IH (k ++ r) x'); [done| |by exists r].
  intros Hp. apply Hnp. by apply prefix_of_cons_iff.
Qed.

Lemma stripPrefix_Some pre key k :
  stripPrefix pre key = Some k ↔ key = pre ++ k.
Proof.
  revert key. induction pre as [|p pre IH]; intros key; simpl.
  { intuition (done || congruence). }
  destruct key as [|c key]; [intuition (done || congruence)|].
  case_decide as Hpc; [subst; rewrite IH|]; intuition (done || congruence).
Qed.

Lemma stripPrefix_app pre k : stripPrefix pre (pre ++ k) = Some k.
Proof. by apply stripPrefix_Some. Qed.

(** The keys between two keys that start with [pre] start with [pre]. *)
Lemma between_prefix_of pre s e key :
  key_le (pre ++ s) key → key_lt key (pre ++ e) → pre `prefix_of` key.
Proof.
  revert key. induction pre as [|p pre IH]; intros key; [intros; apply prefix_nil|].
  destruct key as [|c key]; [by intros Hle|].
  unfold key_le, key_lt. simpl.
  rewrite (N.compare_antisym (Byte.to_N p) (Byte.to_N c)).
  destruct (N.compare_spec (Byte.to_N p) (Byte.to_N c)) as [Hpc|Hpc|Hpc];
    simpl; try done.
  apply to_N_inj in Hpc as <-. intros Hle Hlt.
  apply prefix_of_cons_iff. split; [done|]. by apply IH.
Qed.

(** ** Iterators of the store *)

Lemma elem_of_store_Iterator (store : KVStore) start end_ k v :
  (k, v) ∈ store_Iterator store start end_ ↔
  store !! k = Some v ∧ in_domain start end_ k.
Proof.
  unfold store_Iterator.
  rewrite merge_sort_Permutation, list_elem_of_filter, elem_of_map_to_list.
  simpl. tauto.
Qed.

Lemma store_Iterator_Sorted (store : KVStore) start end_ :
  StronglySorted entry_le (store_Iterator store start end_).
Proof. apply Sorted_StronglySorted; [apply _|]. apply Sorted_merge_sort, _. Qed.

Lemma store_Iterator_prefix_of (store : KVStore) pre start end_ :
  Forall (λ e : entry, pre `prefix_of` e.1)
    (store_Iterator store (Some (pre ++ start))
       (match end_ with
        | None => prefixEnd pre
        | Some e => Some (pre ++ e)
        end)).
Proof.
  apply Forall_forall. intros [k v] [_ [Hle Hlt]]%elem_of_store_Iterator. simpl.
  destruct end_ as [e|].
  - by apply (between_prefix_of pre start e).
  - apply prefix_of_in_domain. split; [|done].
    etrans; [|done]. apply prefix_of_key_le. by exists start.
Qed.

Lemma prefixIterator_elem_of pre l k v :
  Forall (λ e : entry, pre `prefix_of` e.1) l →
  (k, v) ∈ prefixIterator pre l ↔ (pre ++ k, v) ∈ l.
Proof.
  induction 1 as [|[k0 v0] l Hp _ IH]; simpl in *; [by rewrite !elem_of_nil|].
  destruct Hp as [r ->]. rewrite stripPrefix_app, !elem_of_cons, IH.
  split; (intros [Heq|Hin]; [left; by simplify_eq | by right]).
Qed.

Lemma prefixIterator_Sorted pre l :
  Forall (λ e : entry, pre `prefix_of` e.1) l →
  StronglySorted entry_le l → StronglySorted entry_le (prefixIterator pre l).
Proof.
  induction 1 as [|[k0 v0] l Hp Hall IH]; simpl in *; [constructor|].
  destruct Hp as [r ->]. rewrite stripPrefix_app. intros [Hhd Hsorted]%StronglySorted_cons.
  apply StronglySorted_cons. split; [|by apply IH].
  apply Forall_forall. intros [k v] Hin%prefixIterator_elem_of; [|done].
  rewrite Forall_forall in Hhd. apply Hhd in Hin.
  unfold entry_le in *. simpl in *. by apply key_le_app in Hin.
Qed.

(** What the iterator of a prefix store visits: the entries of the parent
    whose key is the prefix followed by a key of the domain. *)
Lemma elem_of_pStore_Iterator (store : KVStore) pre start end_ k v :
  (k, v) ∈ pStore_Iterator (prefix_NewStore store pre) start end_ ↔
  store !! (pre ++ k) = Some v ∧ in_domain (Some (elems start)) end_ k.
Proof.
  unfold pStore_Iterator. simpl.
  rewrite prefixIterator_elem_of by apply store_Iterator_prefix_of.
  rewrite elem_of_store_Iterator. unfold in_domain.
  rewrite key_le_app. destruct end_ as [e|].
  - by rewrite key_lt_app.
  - split; [tauto|]. intros [Hk [Hle _]]. split_and!; [done..|].
    assert (pre `prefix_of` pre ++ k) as Hp by (by exists k).
    by apply prefix_of_in_domain in Hp as [_ Hlt].
Qed.

Lemma pStore_Iterator_Sorted (store : KVStore) pre start end_ :
  StronglySorted entry_le (pStore_Iterator (prefix_NewStore store pre) start end_).
Proof.
  apply prefixIterator_Sorted;
    [apply store_Iterator_prefix_of | apply store_Iterator_Sorted].
Qed.

(** ** The range probe of [Has] and of the row getter *)

(** The probe for [k] visits the rows of the namespace whose key starts
    with [k]. *)
Lemma probe_elem_of (store : KVStore) pre k k' v :
  store !! (pre ++ k') = Some v → k `prefix_of` k' →
  (k', v) ∈ pStore_Iterator (prefix_NewStore store pre) (Some k) (rangeEnd k).
Proof.
  intros Hk' Hp. apply elem_of_pStore_Iterator. split; [done|].
  by apply prefix_of_in_range.
Qed.

(** The rows that the probe visits are rows of the namespace, at keys that
    are not below [k]. *)
Lemma elem_of_probe_range (store : KVStore) pre k k' v :
  (k', v) ∈ pStore_Iterator (prefix_NewStore store pre) (Some k) (rangeEnd k) →
  store !! (pre ++ k') = Some v ∧ key_le k k'.
Proof. intros [Hk' [Hle _]]%elem_of_pStore_Iterator. done. Qed.

(** For a key [k] that does not end in 0xFF, the probe visits the rows whose
    key starts with [k] and no others. *)
Lemma elem_of_probe (store : KVStore) pre k k' v :
  last k ≠ Some xff →
  (k', v) ∈ pStore_Iterator (prefix_NewStore store pre) (Some k) (rangeEnd k) ↔
  store !! (pre ++ k') = Some v ∧ k `prefix_of` k'.
Proof. intros Hlast. by rewrite elem_of_pStore_Iterator, in_range_prefix_of. Qed.

Lemma probe_nil (store : KVStore) pre k :
  last k ≠ Some xff →
  pStore_Iterator (prefix_NewStore store pre) (Some k) (rangeEnd k) = [] ↔
  ∀ k', k `prefix_of` k' → store !! (pre ++ k') = None.
Proof.
  intros Hlast. split.
  - intros Hnil k' Hp. destruct (store !! (pre ++ k')) as [v|] eqn:Hk'; [|done].
    assert ((k', v) ∈ @nil entry) as Hin by (rewrite <- Hnil; by apply probe_elem_of).
    by apply elem_of_nil in Hin.
  - intros Hnone.
    destruct (pStore_Iterator _ _ _) as [|[k' v] rest] eqn:Hit; [done|].
    assert ((k', v) ∈ pStore_Iterator (prefix_NewStore store pre) (Some k) (rangeEnd k))
      as Hin by (rewrite Hit; left).
    apply elem_of_probe in Hin as [Hk' Hp]; [|done].
    by rewrite Hnone in Hk'.
Qed.

(** The first row that the probe visits is the row of the least key that
    starts with [k], when there is one. *)
Lemma probe_least (store : KVStore) pre k x v :
  store !! (pre ++ x) = Some v → k `prefix_of` x →
  (∀ x', k `prefix_of` x' → is_Some (store !! (pre ++ x')) → key_le x x') →
  ∃ rest,
    pStore_Iterator (prefix_NewStore store pre) (Some k) (rangeEnd k)
    = (x, v) :: rest.
Proof.
  intros Hx Hp Hleast.
  pose proof (pStore_Iterator_Sorted store pre (Some k) (rangeEnd k)) as Hsorted.
  assert ((x, v) ∈ pStore_Iterator (prefix_NewStore store pre) (Some k) (rangeEnd k))
    as Hin by (by apply probe_elem_of).
  destruct (pStore_Iterator _ _ _) as [|[k0 v0] rest] eqn:Hit;
    [by apply elem_of_nil in Hin|].
  exists rest.
  assert ((k0, v0) ∈ pStore_Iterator (prefix_NewStore store pre) (Some k) (rangeEnd k))
    as [Hk0 Hle0]%elem_of_probe_range by (rewrite Hit; left).
  assert (k0 = x) as ->.
  { apply (anti_symm key_le).
    - apply StronglySorted_cons in Hsorted as [Hhd _]. rewrite Forall_forall in Hhd.
      apply elem_of_cons in Hin as [[= -> ->]|Hin]; [done|]. by apply Hhd in Hin.
    - destruct (decide (k `prefix_of` k0)) as [Hp0|Hnp0]; [by apply Hleast|].
      by apply key_lt_le, (key_lt_not_prefix_of k). }
  by simplify_eq.
Qed.

(** When the row [k] itself exists, it is the first that the probe visits. *)
Lemma probe_exact (store : KVStore) pre k v :
  store !! (pre ++ k) = Some v →
  ∃ rest,
    pStore_Iterator (prefix_NewStore store pre) (Some k) (rangeEnd k)
    = (k, v) :: rest.
Proof.
  intros Hk. apply probe_least; [done..|].
  intros x' Hp _. by apply prefix_of_key_le.
Qed.

(** ** The type check and the row getter *)

Lemma assertCorrectType_None {Msg} model (obj : ProtoMarshaler Msg) :
  assertCorrectType model obj = None ↔ TypeOf obj = PtrTo model.
Proof.
  unfold assertCorrectType. destruct (TypeOf obj) as [name|elem]; [done|].
  case_decide; intuition (done || congruence).
Qed.

Lemma assertCorrectType_Some {Msg} model (obj : ProtoMarshaler Msg) :
  TypeOf obj ≠ PtrTo model →
  ∃ err, assertCorrectType model obj = Some err ∧ Cause err = ErrType.
Proof.
  intros Hne. unfold assertCorrectType.
  destruct (TypeOf obj) as [name|elem]; [by eexists|].
  case_decide; [by eexists|]. destruct Hne. f_equal. by destruct (decide (model = elem)).
Qed.

Lemma len_nonzero (k : RowID) : len k ≠ 0 → ∃ l, k = Some l ∧ l ≠ [].
Proof. destruct k as [[|b l]|]; simpl; [done| |done]. intros _. by eexists. Qed.

Lemma GetOne_empty_key {Msg} (a : Table Msg) store k dest :
  len k = 0 →
  GetOne a store k dest = Done (dest, Some (Wrap ErrArgument "key must not be nil")).
Proof. intros Hk. unfold GetOne, NewTypeSafeRowGetter. by case_decide. Qed.

Lemma GetOne_wrong_type {Msg} (a : Table Msg) store k dest err :
  len k ≠ 0 → assertCorrectType (model a) dest = Some err →
  GetOne a store k dest = Done (dest, Some err).
Proof.
  intros Hk Herr. unfold GetOne, NewTypeSafeRowGetter.
  case_decide; [done|]. by rewrite Herr.
Qed.

(** On a non-empty key and a destination of the right type, the getter
    decodes the first row of the range probe. *)
Lemma GetOne_probe {Msg} (a : Table Msg) store (k : list byte) dest :
  k ≠ [] → TypeOf dest = PtrTo (model a) →
  GetOne a store (Some k) dest =
    match pStore_Iterator (prefix_NewStore store [prefix a]) (Some k) (rangeEnd k) with
    | [] => Done (dest, Some ErrNotFound)
    | (_, value) :: _ => cdc_Unmarshal (cdc a) value dest
    end.
Proof.
  intros Hk Hdest%assertCorrectType_None. unfold GetOne, NewTypeSafeRowGetter.
  case_decide as Hlen; [by destruct k|]. by rewrite Hdest.
Qed.

Lemma GetOne_row {Msg} (a : Table Msg) (store : KVStore) (k : list byte) dest v :
  k ≠ [] → TypeOf dest = PtrTo (model a) →
  store !! ([prefix a] ++ k) = Some v →
  GetOne a store (Some k) dest = cdc_Unmarshal (cdc a) v dest.
Proof.
  intros Hk Hdest Hrow. rewrite GetOne_probe by done.
  by destruct (probe_exact store [prefix a] k v Hrow) as [rest ->].
Qed.

(** ** The interceptor loops *)

Lemma runAfterSave_ok {Msg} (itcs : list (AfterSaveInterceptor Msg)) i store store'
    rowID newValue oldValue :
  saveChain rowID newValue oldValue itcs store store' →
  runAfterSave itcs i store rowID newValue oldValue = (store', None).
Proof.
  intros Hchain. revert i.
  induction Hchain as [|itc itcs store store' store'' Hitc _ IH]; intros i; simpl;
    [done|]. by rewrite Hitc.
Qed.

Lemma runAfterSave_abort {Msg} (pre post : list (AfterSaveInterceptor Msg)) itc i
    store store' store'' rowID newValue oldValue err :
  saveChain rowID newValue oldValue pre store store' →
  itc store' rowID newValue oldValue = (store'', Some err) →
  runAfterSave (pre ++ itc :: post) i store rowID newValue oldValue =
    (store'', Some (Wrap err ("interceptor " +:+ itoa (i + length pre) +:+ " failed"))).
Proof.
  intros Hchain Hfail. revert i.
  induction Hchain as [|itc0 itcs store store1 store2 Hitc _ IH]; intros i; simpl.
  - by rewrite Hfail, Nat.add_0_r.
  - rewrite Hitc, IH by done. by rewrite Nat.add_succ_r.
Qed.

Lemma runAfterDelete_ok {Msg} (itcs : list (AfterDeleteInterceptor Msg)) i store
    store' rowID value :
  deleteChain rowID value itcs store store' →
  runAfterDelete itcs i store rowID value = (store', None).
Proof.
  intros Hchain. revert i.
  induction Hchain as [|itc itcs store store' store'' Hitc _ IH]; intros i; simpl;
    [done|]. by rewrite Hitc.
Qed.

Lemma runAfterDelete_abort {Msg} (pre post : list (AfterDeleteInterceptor Msg)) itc
    i store store' store'' rowID value err :
  deleteChain rowID value pre store store' →
  itc store' rowID value = (store'', Some err) →
  runAfterDelete (pre ++ itc :: post) i store rowID value =
    (store'',
     Some (Wrap err ("delete interceptor " +:+ itoa (i + length pre) +:+ " failed"))).
Proof.
  intros Hchain Hfail. revert i.
  induction Hchain as [|itc0 itcs store store1 store2 Hitc _ IH]; intros i; simpl.
  - by rewrite Hfail, Nat.add_0_r.
  - rewrite Hitc, IH by done. by rewrite Nat.add_succ_r.
Qed.

(** Interceptors that return nil and leave a key as it is: the chain runs to
    its end and the key is as it was. *)
Lemma saveChain_frame {Msg} (itcs : list (AfterSaveInterceptor Msg)) (store : KVStore)
    rowID newValue oldValue key :
  Forall (λ itc, ∀ s, (itc s rowID newValue oldValue).2 = None) itcs →
  Forall (λ itc, ∀ s : KVStore,
            (itc s rowID newValue oldValue).1 !! key = s !! key) itcs →
  ∃ store' : KVStore,
    saveChain rowID newValue oldValue itcs store store' ∧
    store' !! key = store !! key.
Proof.
  intros Hok. revert store.
  induction Hok as [|itc itcs Hitc _ IH]; intros store Hframe.
  { exists store. split; [constructor|done]. }
  apply Forall_cons in Hframe as [Hkey Hframe].
  destruct (itc store rowID newValue oldValue) as [store1 err] eqn:Hrun.
  specialize (Hitc store). specialize (Hkey store). rewrite Hrun in Hitc, Hkey.
  simpl in *. subst err.
  destruct (IH store1 Hframe) as (store' & Hchain & Hsame).
  exists store'. split; [by econstructor|]. by rewrite Hsame.
Qed.

(** ** Create, Update and Delete up to their interceptors *)

Lemma Create_unfold `{GoTypes Msg} (a : Table Msg) c store k obj v :
  cdc a = Some c → TypeOf obj = PtrTo (model a) → assertValid obj = None →
  Marshal c obj = (v, None) →
  Create a store k obj =
    Done (runAfterSave (afterSave a) 0
            (pStore_Set (prefix_NewStore store [prefix a]) k v) k obj None).
Proof.
  intros Hc Htype%assertCorrectType_None Hvalid Hv. unfold Create.
  by rewrite Htype, Hvalid, Hc; simpl; rewrite Hv.
Qed.

Lemma Update_unfold `{GoTypes Msg} (a : Table Msg) c store k newValue oldValue v :
  cdc a = Some c → TypeOf newValue = PtrTo (model a) → assertValid newValue = None →
  GetOne a store k (reflect_New (model a)) = Done (oldValue, None) →
  Marshal c newValue = (v, None) →
  Update a store k newValue =
    Done (runAfterSave (afterSave a) 0
            (pStore_Set (prefix_NewStore store [prefix a]) k v) k newValue
            (Some oldValue)).
Proof.
  intros Hc Htype%assertCorrectType_None Hvalid Hold Hv. unfold Update.
  by rewrite Htype, Hvalid, Hold, Hc; simpl; rewrite Hv.
Qed.

Lemma Delete_unfold `{GoTypes Msg} (a : Table Msg) store k oldValue :
  GetOne a store k (reflect_New (model a)) = Done (oldValue, None) →
  Delete a store k =
    Done (runAfterDelete (afterDelete a) 0
            (pStore_Delete (prefix_NewStore store [prefix a]) k) k oldValue).
Proof. intros Hold. unfold Delete. by rewrite Hold. Qed.

(** ** When no key starts with the RowID *)

Lemma GetOne_not_found {Msg} (a : Table Msg) (store : KVStore) (k : list byte) dest :
  k ≠ [] → last k ≠ Some xff → TypeOf dest = PtrTo (model a) →
  (∀ k', k `prefix_of` k' → store !! ([prefix a] ++ k') = None) →
  GetOne a store (Some k) dest = Done (dest, Some ErrNotFound).
Proof.
  intros Hk Hlast Hdest Hnone%probe_nil; [|done].
  rewrite GetOne_probe by done. by rewrite Hnone.
Qed.

Lemma Has_false {Msg} (a : Table Msg) (store : KVStore) (k : list byte) :
  last k ≠ Some xff →
  (∀ k', k `prefix_of` k' → store !! ([prefix a] ++ k') = None) →
  Has a store (Some k) = Done false.
Proof.
  intros Hlast Hnone%probe_nil; [|done]. unfold Has. simpl. by rewrite Hnone.
Qed.

Lemma Update_not_found `{GoTypes Msg} (a : Table Msg) (store : KVStore)
    (k : list byte) newValue :
  k ≠ [] → last k ≠ Some xff →
  TypeOf newValue = PtrTo (model a) → assertValid newValue = None →
  (∀ k', k `prefix_of` k' → store !! ([prefix a] ++ k') = None) →
  Update a store (Some k) newValue
  = Done (store, Some (Wrap ErrNotFound "load old value")).
Proof.
  intros Hk Hlast Htype%assertCorrectType_None Hvalid Hnone. unfold Update.
  by rewrite Htype, Hvalid, GetOne_not_found.
Qed.

Lemma Delete_not_found `{GoTypes Msg} (a : Table Msg) (store : KVStore)
    (k : list byte) :
  k ≠ [] → last k ≠ Some xff →
  (∀ k', k `prefix_of` k' → store !! ([prefix a] ++ k') = None) →
  Delete a store (Some k) = Done (store, Some (Wrap ErrNotFound "load old value")).
Proof. intros Hk Hlast Hnone. unfold Delete. by rewrite GetOne_not_found. Qed.

(** ** The properties of the specification *)

(** C1 (as amended). Round trip: for a table with a codec, a non-empty RowID
    [k] and a valid record [r] of the declared type that the codec encodes
    and decodes back, when the interceptors, called one after the other on
    the store that [Create] has written to, all return nil, and the row
    written under [k] is in place in the store [store'] that they leave,
    [Create] succeeds and leaves [store'], and [GetOne] on it succeeds and
    yields [r]. *)
Theorem Create_GetOne_round_trip `{GoTypes Msg} (a : Table Msg) (c : Codec Msg)
    (store store' : KVStore) (k : RowID) (r dest : ProtoMarshaler Msg)
    (v : list byte) :
  cdc a = Some c →
  len k ≠ 0 →
  TypeOf r = PtrTo (model a) →
  assertValid r = None →
  TypeOf dest = PtrTo (model a) →
  Marshal c r = (v, None) →
  Unmarshal c v dest = (r, None) →
  saveChain k r None (afterSave a)
    (pStore_Set (prefix_NewStore store [prefix a]) k v) store' →
  store' !! ([prefix a] ++ elems k) = Some v →
  Create a store k r = Done (store', None) ∧
  GetOne a store' k dest = Done (r, None).
Proof.
  intros Hc Hk Hr Hvalid Hdest Hmarshal Hunmarshal Hchain Hrow. split.
  - rewrite (Create_unfold a c store k r v) by done.
    by rewrite (runAfterSave_ok _ _ _ store').
  - destruct (len_nonzero k Hk) as (l & -> & Hl).
    rewrite (GetOne_row a store' l dest v Hl Hdest Hrow).
    by rewrite Hc; simpl; rewrite Hunmarshal.
Qed.

Lemma Create_GetOne_round_trip_witness :
  Create uniqueTable storeAB (Some keyA) (classRow ["n"%byte])
  = Done (<[ x02 :: keyA := [] ]> (<[ x01 :: keyA := ["n"%byte] ]> storeAB), None) ∧
  GetOne uniqueTable (<[ x02 :: keyA := [] ]> (<[ x01 :: keyA := ["n"%byte] ]> storeAB))
    (Some keyA) (classRow [])
  = Done (classRow ["n"%byte], None).
Proof.
  apply (Create_GetOne_round_trip uniqueTable exampleCodec storeAB
           (<[ x02 :: keyA := [] ]> (<[ x01 :: keyA := ["n"%byte] ]> storeAB))
           (Some keyA) (classRow ["n"%byte]) (classRow []) ["n"%byte]).
  - reflexivity.
  - discriminate.
  - reflexivity.
  - reflexivity.
  - reflexivity.
  - reflexivity.
  - reflexivity.
  - eapply saveChain_cons; [|apply saveChain_nil]. by_evaluation.
  - by_evaluation.
Defined.

(** C1 (as stated) fails: every interceptor of [droppingTable] returns nil
    and the codec decodes what it encodes, [Create] succeeds, and [GetOne]
    on the store it leaves returns ErrNotFound, because the interceptor
    removed the row. *)
Lemma Create_GetOne_round_trip_counterexample :
  Forall (λ itc, ∀ s k n o, (itc s k n o).2 = None) (afterSave droppingTable) ∧
  Unmarshal exampleCodec (Marshal exampleCodec (classRow ["n"%byte])).1 (classRow [])
  = (classRow ["n"%byte], None) ∧
  Create droppingTable ∅ (Some keyA) (classRow ["n"%byte]) = Done (∅, None) ∧
  GetOne droppingTable ∅ (Some keyA) (classRow [])
  = Done (classRow [], Some ErrNotFound).
Proof.
  split_and!.
  - repeat constructor.
  - reflexivity.
  - by_evaluation.
  - by_evaluation.
Qed.

(** C2 (as amended). Empty key rejection: invoked with a zero-length RowID,
    [GetOne], [Delete] and [Update] (given a valid record of the declared
    type) return an error that wraps ErrArgument, whatever the store holds,
    and leave the store as it is; [Has] panics on a nil RowID. *)
Theorem empty_key_rejected `{GoTypes Msg} (a : Table Msg) (store : KVStore)
    (k : RowID) (dest r : ProtoMarshaler Msg) :
  len k = 0 →
  GetOne a store k dest
  = Done (dest, Some (Wrap ErrArgument "key must not be nil")) ∧
  Delete a store k
  = Done (store,
          Some (Wrap (Wrap ErrArgument "key must not be nil") "load old value")) ∧
  (TypeOf r = PtrTo (model a) → assertValid r = None →
   Update a store k r
   = Done (store,
           Some (Wrap (Wrap ErrArgument "key must not be nil") "load old value"))) ∧
  Has a store None = Panic "nil key not allowed".
Proof.
  intros Hk. split_and!.
  - by apply GetOne_empty_key.
  - unfold Delete. by rewrite GetOne_empty_key.
  - intros Hr%assertCorrectType_None Hvalid.
    unfold Update. by rewrite Hr, Hvalid, GetOne_empty_key.
  - done.
Qed.

Lemma empty_key_rejected_witness :
  GetOne classTable storeAB (Some []) (classRow [])
  = Done (classRow [], Some (Wrap ErrArgument "key must not be nil")) ∧
  Delete classTable storeAB (Some [])
  = Done (storeAB,
          Some (Wrap (Wrap ErrArgument "key must not be nil") "load old value")) ∧
  Update classTable storeAB (Some []) (classRow ["n"%byte])
  = Done (storeAB,
          Some (Wrap (Wrap ErrArgument "key must not be nil") "load old value")) ∧
  Has classTable storeAB None = Panic "nil key not allowed".
Proof.
  destruct (empty_key_rejected classTable storeAB (Some []) (classRow [])
              (classRow ["n"%byte])) as (Hget & Hdelete & Hupdate & Hhas);
    [reflexivity|].
  split_and!; [exact Hget | exact Hdelete | | exact Hhas].
  apply Hupdate; reflexivity.
Defined.

(** C2 (as stated) fails: on a nil RowID [Has] panics instead of yielding
    false. *)
Lemma empty_key_rejected_counterexample :
  Has classTable storeAB None = Panic "nil key not allowed".
Proof. by_evaluation. Qed.

(** ** Interceptors *)

Lemma Create_interceptors `{GoTypes Msg} (a : Table Msg) (c : Codec Msg)
    (store : KVStore) (k : RowID) (obj : ProtoMarshaler Msg) (v : list byte) :
  cdc a = Some c → TypeOf obj = PtrTo (model a) → assertValid obj = None →
  Marshal c obj = (v, None) →
  (∀ pre itc post mid fin err,
     afterSave a = pre ++ itc :: post →
     saveChain k obj None pre (pStore_Set (prefix_NewStore store [prefix a]) k v) mid →
     itc mid k obj None = (fin, Some err) →
     Create a store k obj
     = Done (fin,
             Some (Wrap err ("interceptor " +:+ itoa (length pre) +:+ " failed")))) ∧
  (∀ fin,
     saveChain k obj None (afterSave a)
       (pStore_Set (prefix_NewStore store [prefix a]) k v) fin →
     Create a store k obj = Done (fin, None)).
Proof.
  intros Hc Htype Hvalid Hv.
  rewrite (Create_unfold a c store k obj v) by done. split.
  - intros pre itc post mid fin err -> Hchain Hfail.
    by rewrite (runAfterSave_abort pre post itc 0 _ mid fin _ _ _ err).
  - intros fin Hchain. by rewrite (runAfterSave_ok _ _ _ fin).
Qed.

Lemma Update_interceptors `{GoTypes Msg} (a : Table Msg) (c : Codec Msg)
    (store : KVStore) (k : RowID) (newValue oldValue : ProtoMarshaler Msg)
    (v : list byte) :
  cdc a = Some c → TypeOf newValue = PtrTo (model a) →
  assertValid newValue = None →
  GetOne a store k (reflect_New (model a)) = Done (oldValue, None) →
  Marshal c newValue = (v, None) →
  (∀ pre itc post mid fin err,
     afterSave a = pre ++ itc :: post →
     saveChain k newValue (Some oldValue) pre
       (pStore_Set (prefix_NewStore store [prefix a]) k v) mid →
     itc mid k newValue (Some oldValue) = (fin, Some err) →
     Update a store k newValue
     = Done (fin,
             Some (Wrap err ("interceptor " +:+ itoa (length pre) +:+ " failed")))) ∧
  (∀ fin,
     saveChain k newValue (Some oldValue) (afterSave a)
       (pStore_Set (prefix_NewStore store [prefix a]) k v) fin →
     Update a store k newValue = Done (fin, None)).
Proof.
  intros Hc Htype Hvalid Hold Hv.
  rewrite (Update_unfold a c store k newValue oldValue v) by done. split.
  - intros pre itc post mid fin err -> Hchain Hfail.
    by rewrite (runAfterSave_abort pre post itc 0 _ mid fin _ _ _ err).
  - intros fin Hchain. by rewrite (runAfterSave_ok _ _ _ fin).
Qed.

Lemma Delete_interceptors `{GoTypes Msg} (a : Table Msg) (store : KVStore)
    (k : RowID) (oldValue : ProtoMarshaler Msg) :
  GetOne a store k (reflect_New (model a)) = Done (oldValue, None) →
  (∀ pre itc post mid fin err,
     afterDelete a = pre ++ itc :: post →
     deleteChain k oldValue pre
       (pStore_Delete (prefix_NewStore store [prefix a]) k) mid →
     itc mid k oldValue = (fin, Some err) →
     Delete a store k
     = Done (fin,
             Some (Wrap err
                     ("delete interceptor " +:+ itoa (length pre) +:+ " failed")))) ∧
  (∀ fin,
     deleteChain k oldValue (afterDelete a)
       (pStore_Delete (prefix_NewStore store [prefix a]) k) fin →
     Delete a store k = Done (fin, None)).
Proof.
  intros Hold. rewrite (Delete_unfold a store k oldValue) by done. split.
  - intros pre itc post mid fin err -> Hchain Hfail.
    by rewrite (runAfterDelete_abort pre post itc 0 _ mid fin _ _ err).
  - intros fin Hchain. by rewrite (runAfterDelete_ok _ _ _ fin).
Qed.

(** C5. Interceptor ordering, abort, and no rollback: [Create], [Update]
    and [Delete] first apply the raw store mutation and then call their
    interceptors in the order of registration, each on the store that the
    one before it left. When the interceptors [pre] return nil and the next
    one, [itc], returns an error, the operation returns that error wrapped
    with the index of [itc] in the list, the store is the one that [itc]
    left (the write or the removal is not taken back), and the interceptors
    [post] registered after [itc] have no part in the result. When all
    return nil, so does the operation. *)
Theorem interceptors_order_abort_no_rollback `{GoTypes Msg} (a : Table Msg)
    (store : KVStore) (k : RowID) :
  (∀ c obj v,
     cdc a = Some c → TypeOf obj = PtrTo (model a) → assertValid obj = None →
     Marshal c obj = (v, None) →
     (∀ pre itc post mid fin err,
        afterSave a = pre ++ itc :: post →
        saveChain k obj None pre
          (pStore_Set (prefix_NewStore store [prefix a]) k v) mid →
        itc mid k obj None = (fin, Some err) →
        Create a store k obj
        = Done (fin,
                Some (Wrap err
                        ("interceptor " +:+ itoa (length pre) +:+ " failed")))) ∧
     (∀ fin,
        saveChain k obj None (afterSave a)
          (pStore_Set (prefix_NewStore store [prefix a]) k v) fin →
        Create a store k obj = Done (fin, None))) ∧
  (∀ c newValue oldValue v,
     cdc a = Some c → TypeOf newValue = PtrTo (model a) →
     assertValid newValue = None →
     GetOne a store k (reflect_New (model a)) = Done (oldValue, None) →
     Marshal c newValue = (v, None) →
     (∀ pre itc post mid fin err,
        afterSave a = pre ++ itc :: post →
        saveChain k newValue (Some oldValue) pre
          (pStore_Set (prefix_NewStore store [prefix a]) k v) mid →
        itc mid k newValue (Some oldValue) = (fin, Some err) →
        Update a store k newValue
        = Done (fin,
                Some (Wrap err
                        ("interceptor " +:+ itoa (length pre) +:+ " failed")))) ∧
     (∀ fin,
        saveChain k newValue (Some oldValue) (afterSave a)
          (pStore_Set (prefix_NewStore store [prefix a]) k v) fin →
        Update a store k newValue = Done (fin, None))) ∧
  (∀ oldValue,
     GetOne a store k (reflect_New (model a)) = Done (oldValue, None) →
     (∀ pre itc post mid fin err,
        afterDelete a = pre ++ itc :: post →
        deleteChain k oldValue pre
          (pStore_Delete (prefix_NewStore store [prefix a]) k) mid →
        itc mid k oldValue = (fin, Some err) →
        Delete a store k
        = Done (fin,
                Some (Wrap err
                        ("delete interceptor " +:+ itoa (length pre)
                         +:+ " failed")))) ∧
     (∀ fin,
        deleteChain k oldValue (afterDelete a)
          (pStore_Delete (prefix_NewStore store [prefix a]) k) fin →
        Delete a store k = Done (fin, None))).
Proof.
  split_and!.
  - intros c obj v. apply Create_interceptors.
  - intros c newValue oldValue v. apply Update_interceptors.
  - intros oldValue. apply Delete_interceptors.
Qed.

Lemma interceptors_order_abort_no_rollback_witness :
  Create indexedTable ∅ (Some keyA) (classRow ["n"%byte])
  = Done (<[ x02 :: keyA := [] ]> {[ x01 :: keyA := ["n"%byte] ]},
          Some (Wrap (Foreign "index rejected") "interceptor 1 failed")) ∧
  Update indexedTable indexedStore (Some keyA) (classRow ["n"%byte])
  = Done (<[ x01 :: keyA := ["n"%byte] ]> indexedStore,
          Some (Wrap (Foreign "index rejected") "interceptor 1 failed")) ∧
  Delete indexedTable indexedStore (Some keyA)
  = Done ({[ x03 :: keyA := [] ]},
          Some (Wrap (Foreign "index rejected") "delete interceptor 1 failed")).
Proof.
  split_and!.
  - destruct (interceptors_order_abort_no_rollback indexedTable ∅ (Some keyA))
      as (Hcreate & _ & _).
    destruct (Hcreate exampleCodec (classRow ["n"%byte]) ["n"%byte]) as [Habort _];
      [reflexivity..|].
    apply (Habort [indexWriter x02] failingSave [indexWriter x03]
             (<[ x02 :: keyA := [] ]> {[ x01 :: keyA := ["n"%byte] ]})).
    + reflexivity.
    + eapply saveChain_cons; [reflexivity | apply saveChain_nil].
    + reflexivity.
  - destruct (interceptors_order_abort_no_rollback indexedTable indexedStore
                (Some keyA)) as (_ & Hupdate & _).
    destruct (Hupdate exampleCodec (classRow ["n"%byte]) (classRow ["1"%byte])
                ["n"%byte]) as [Habort _];
      [reflexivity | reflexivity | reflexivity | by_evaluation
      | reflexivity |].
    apply (Habort [indexWriter x02] failingSave [indexWriter x03]
             (<[ x01 :: keyA := ["n"%byte] ]> indexedStore)).
    + reflexivity.
    + eapply saveChain_cons; [reflexivity | apply saveChain_nil].
    + reflexivity.
  - destruct (interceptors_order_abort_no_rollback indexedTable indexedStore
                (Some keyA)) as (_ & _ & Hdelete).
    destruct (Hdelete (classRow ["1"%byte])) as [Habort _].
    { by_evaluation. }
    apply (Habort [indexEraser x02] failingDelete [indexEraser x03]
             {[ x03 :: keyA := [] ]}).
    + reflexivity.
    + eapply deleteChain_cons; [reflexivity | apply deleteChain_nil].
    + reflexivity.
Defined.

(** C7 (as amended). Type safety of decode: for a destination, or an object,
    that is not a pointer to the declared record type of the table, [GetOne]
    on a non-empty RowID, and [Create] and [Update] on any RowID, return an
    error that wraps ErrType and leave the destination and the store as they
    are. *)
Theorem wrong_type_is_rejected `{GoTypes Msg} (a : Table Msg) (store : KVStore)
    (k : RowID) (dest : ProtoMarshaler Msg) :
  TypeOf dest ≠ PtrTo (model a) →
  ∃ err,
    Cause err = ErrType ∧
    (len k ≠ 0 → GetOne a store k dest = Done (dest, Some err)) ∧
    Create a store k dest = Done (store, Some err) ∧
    Update a store k dest = Done (store, Some err).
Proof.
  intros (err & Herr & Hcause)%assertCorrectType_Some.
  exists err. split_and!; [done| | |].
  - intros Hk. by apply GetOne_wrong_type.
  - unfold Create. by rewrite Herr.
  - unfold Update. by rewrite Herr.
Qed.

Lemma wrong_type_is_rejected_witness :
  ∃ err,
    Cause err = ErrType ∧
    GetOne classTable storeAB (Some keyAB) (nftRow ["n"%byte])
    = Done (nftRow ["n"%byte], Some err) ∧
    Create classTable storeAB (Some keyAB) (nftRow ["n"%byte])
    = Done (storeAB, Some err) ∧
    Update classTable storeAB (Some keyAB) (nftRow ["n"%byte])
    = Done (storeAB, Some err).
Proof.
  destruct (wrong_type_is_rejected classTable storeAB (Some keyAB)
              (nftRow ["n"%byte])) as (err & Hcause & Hget & Hcreate & Hupdate).
  { simpl. discriminate. }
  exists err. split_and!; [exact Hcause | | exact Hcreate | exact Hupdate].
  apply Hget. simpl. lia.
Defined.

(** C7 (as stated) fails: with a destination of another type and an empty
    RowID, [GetOne] returns an error that wraps ErrArgument, not ErrType. *)
Lemma wrong_type_is_rejected_counterexample :
  TypeOf (nftRow ["n"%byte]) ≠ PtrTo (model classTable) ∧
  GetOne classTable storeAB (Some []) (nftRow ["n"%byte])
  = Done (nftRow ["n"%byte], Some (Wrap ErrArgument "key must not be nil")) ∧
  Cause (Wrap ErrArgument "key must not be nil") ≠ ErrType.
Proof. split_and!; [discriminate | reflexivity | discriminate]. Qed.

(** C8. Scan bound validation: for non-nil [start] and [end] with
    [start >= end], [PrefixScan] and [ReversePrefixScan] return an error that
    wraps ErrArgument together with the invalid iterator, which is not nil
    and whose [LoadNext] returns ErrIteratorInvalid and leaves it as it is;
    when either bound is nil they return no error. *)
Theorem scan_bounds_are_validated {Msg} (a : Table Msg) (store store' : KVStore)
    (start end_ : list byte) (dest : ProtoMarshaler Msg) :
  (bytes_Compare (Some start) (Some end_) >= 0)%Z →
  PrefixScan a store (Some start) (Some end_)
  = (NewInvalidIterator, Some (Wrap ErrArgument "start must be before end")) ∧
  ReversePrefixScan a store (Some start) (Some end_)
  = (NewInvalidIterator, Some (Wrap ErrArgument "start must be before end")) ∧
  @NewInvalidIterator Msg ≠ nilIterator ∧
  LoadNext NewInvalidIterator store' dest
  = Done (NewInvalidIterator, dest, (None, Some ErrIteratorInvalid)) ∧
  (∀ bound,
     (PrefixScan a store None bound).2 = None ∧
     (PrefixScan a store bound None).2 = None ∧
     (ReversePrefixScan a store None bound).2 = None ∧
     (ReversePrefixScan a store bound None).2 = None).
Proof.
  intros Hge. unfold PrefixScan, ReversePrefixScan. split_and!.
  - by rewrite decide_True.
  - by rewrite decide_True.
  - done.
  - done.
  - intros bound. split_and!; by rewrite decide_False by tauto.
Qed.

Lemma scan_bounds_are_validated_witness :
  PrefixScan classTable storeAB (Some keyB) (Some keyB)
  = (NewInvalidIterator, Some (Wrap ErrArgument "start must be before end")) ∧
  ReversePrefixScan classTable storeAB (Some keyB) (Some keyB)
  = (NewInvalidIterator, Some (Wrap ErrArgument "start must be before end")) ∧
  @NewInvalidIterator (list byte) ≠ nilIterator ∧
  LoadNext NewInvalidIterator storeAB (classRow [])
  = Done (NewInvalidIterator, classRow [], (None, Some ErrIteratorInvalid)) ∧
  (∀ bound,
     (PrefixScan classTable storeAB None bound).2 = None ∧
     (PrefixScan classTable storeAB bound None).2 = None ∧
     (ReversePrefixScan classTable storeAB None bound).2 = None ∧
     (ReversePrefixScan classTable storeAB bound None).2 = None).
Proof.
  apply (scan_bounds_are_validated classTable storeAB storeAB keyB keyB (classRow [])).
  vm_compute. discriminate.
Defined.

(** C9 (as amended). Builder misconfiguration: [NewTableBuilder] panics on a
    nil record prototype and on a nil index key codec. A nil codec does not
    abort the construction: the builder is returned, and the table built
    from it panics when an operation first calls the codec. *)
Theorem builder_nil_checks `{GoTypes Msg} {IndexKeyCodec : Type} (prefixData : byte)
    (m : ProtoMarshaler Msg) (ikc : IndexKeyCodec) (idxKeyCodec : option IndexKeyCodec)
    (cdc : option (Codec Msg)) :
  NewTableBuilder prefixData None idxKeyCodec cdc = Panic "Model must not be nil" ∧
  NewTableBuilder prefixData (Some m) (@None IndexKeyCodec) cdc
  = Panic "IndexKeyCodec must not be nil" ∧
  ∃ b,
    NewTableBuilder prefixData (Some m) (Some ikc) None = Done b ∧
    builder_cdc b = None ∧
    ∀ store k obj,
      TypeOf obj = PtrTo (builder_model b) → assertValid obj = None →
      Create (Build b) store k obj = Panic nilDereference.
Proof.
  split_and!; [done..|]. eexists. split_and!; [done..|].
  intros store k obj Htype%assertCorrectType_None Hvalid.
  unfold Create. simpl in *. by rewrite Htype, Hvalid.
Qed.

Lemma builder_nil_checks_witness :
  ∃ b,
    NewTableBuilder x01 (Some (classRow [])) (Some ()) None = Done b ∧
    Create (Build b) storeAB (Some keyA) (classRow ["n"%byte]) = Panic nilDereference.
Proof.
  destruct (builder_nil_checks x01 (classRow []) () None None)
    as (_ & _ & b & Hb & _ & Hcreate).
  exists b. split; [exact Hb|].
  injection Hb as <-. apply Hcreate; reflexivity.
Defined.

(** C9 (as stated) fails: with a nil codec [NewTableBuilder] does not panic,
    it returns a builder. *)
Lemma builder_nil_checks_counterexample :
  NewTableBuilder x01 (Some (classRow [])) (Some ()) (@None (Codec (list byte)))
  = Done (mkBuilder classType x01 () [] [] None).
Proof. reflexivity. Qed.

(** C10 (as amended). Prefix-match lookup: when some key of the namespace
    of the table starts with [k], and [x] is the least such key, [Has] on
    [k] returns true, and [GetOne] on [k], for a non-empty [k] and a
    destination that is a pointer to the declared record type, returns what
    the codec returns on decoding the value stored under [x], whether the
    key [k] itself exists or not. *)
Theorem lookup_matches_by_prefix {Msg} (a : Table Msg) (store : KVStore)
    (k x v : list byte) (dest : ProtoMarshaler Msg) :
  store !! ([prefix a] ++ x) = Some v →
  k `prefix_of` x →
  (∀ x', k `prefix_of` x' → is_Some (store !! ([prefix a] ++ x')) → key_le x x') →
  Has a store (Some k) = Done true ∧
  (k ≠ [] → TypeOf dest = PtrTo (model a) →
   GetOne a store (Some k) dest = cdc_Unmarshal (cdc a) v dest).
Proof.
  intros Hx Hp Hleast.
  destruct (probe_least store [prefix a] k x v Hx Hp Hleast) as [rest Hprobe].
  split.
  - unfold Has. simpl. by rewrite Hprobe.
  - intros Hk Hdest. rewrite GetOne_probe by done. by rewrite Hprobe.
Qed.

Lemma lookup_matches_by_prefix_witness :
  storeAB !! (x01 :: keyA) = None ∧
  Has classTable storeAB (Some keyA) = Done true ∧
  GetOne classTable storeAB (Some keyA) (classRow [])
  = Done (classRow ["7"%byte], None).
Proof.
  destruct (lookup_matches_by_prefix classTable storeAB keyA keyAB ["7"%byte]
              (classRow [])) as [Hhas Hget].
  - reflexivity.
  - by exists ["b"%byte].
  - intros x' Hp [v Hv]. change ([prefix classTable] ++ x') with (x01 :: x') in Hv.
    unfold storeAB in Hv. apply lookup_singleton_Some in Hv as [Hv _].
    injection Hv as <-. reflexivity.
  - split_and!; [reflexivity | exact Hhas |].
    apply Hget; [discriminate | reflexivity].
Defined.

(** C10 (as stated) fails: every key starts with the empty key, yet on the
    store with the row "ab" [GetOne] on the empty key returns an error that
    wraps ErrArgument, and [Has] on the nil key panics. *)
Lemma lookup_matches_by_prefix_counterexample :
  storeAB !! ([prefix classTable] ++ keyAB) = Some ["7"%byte] ∧
  [] `prefix_of` keyAB ∧
  GetOne classTable storeAB (Some []) (classRow [])
  = Done (classRow [], Some (Wrap ErrArgument "key must not be nil")) ∧
  Has classTable storeAB None = Panic "nil key not allowed".
Proof.
  split_and!; [by_evaluation | apply prefix_nil | reflexivity..].
Qed.

(** ** The code where it departs from the specification *)

(** C3. On a store shared by two tables, [PrefixScan(store, nil, nil)] of
    the table with prefix 0x01 iterates over the whole store: [LoadNext]
    returns the keys of both tables, with their prefix byte, and the getter,
    which looks the key up under the prefix once more, finds no row. *)
Lemma PrefixScan_leaves_the_namespace :
  PrefixScan classTable sharedStore None None
  = (typeSafe (mkTypeSafeIterator
                 (NewTypeSafeRowGetter [x01] classType (Some exampleCodec))
                 [(x01 :: keyA, ["1"%byte]); (x02 :: keyB, ["2"%byte])]),
     None) ∧
  LoadNext
    (typeSafe (mkTypeSafeIterator
                 (NewTypeSafeRowGetter [x01] classType (Some exampleCodec))
                 [(x01 :: keyA, ["1"%byte]); (x02 :: keyB, ["2"%byte])]))
    sharedStore (classRow [])
  = Done (typeSafe (mkTypeSafeIterator
                      (NewTypeSafeRowGetter [x01] classType (Some exampleCodec))
                      [(x02 :: keyB, ["2"%byte])]),
          classRow [], (Some (x01 :: keyA), Some ErrNotFound)) ∧
  LoadNext
    (typeSafe (mkTypeSafeIterator
                 (NewTypeSafeRowGetter [x01] classType (Some exampleCodec))
                 [(x02 :: keyB, ["2"%byte])]))
    sharedStore (classRow [])
  = Done (typeSafe (mkTypeSafeIterator
                      (NewTypeSafeRowGetter [x01] classType (Some exampleCodec))
                      []),
          classRow [], (Some (x02 :: keyB), Some ErrNotFound)) ∧
  ReversePrefixScan classTable sharedStore None None
  = (typeSafe (mkTypeSafeIterator
                 (NewTypeSafeRowGetter [x01] classType (Some exampleCodec))
                 [(x02 :: keyB, ["2"%byte]); (x01 :: keyA, ["1"%byte])]),
     None).
Proof. split_and!; by_evaluation. Qed.

(** C4. The key "a" is absent from the table and the key "ab" is present:
    [Update] on "a" finds the row "ab" by its range probe, returns no error
    and writes the new row under "a". *)
Lemma Update_creates_a_row :
  storeAB !! (x01 :: keyA) = None ∧
  Update classTable storeAB (Some keyA) (classRow ["n"%byte])
  = Done (<[ x01 :: keyA := ["n"%byte] ]> storeAB, None).
Proof. split; [by_evaluation|]. by_evaluation. Qed.

(** C6. With the row "ab" in the table, [Create] and then [Delete] on "a"
    succeed and leave the store as it was, and then [Has] on "a" returns
    true and [GetOne] on "a" decodes the row "ab". *)
Lemma Has_after_Delete :
  Create classTable storeAB (Some keyA) (classRow ["n"%byte])
  = Done (<[ x01 :: keyA := ["n"%byte] ]> storeAB, None) ∧
  Delete classTable (<[ x01 :: keyA := ["n"%byte] ]> storeAB) (Some keyA)
  = Done (storeAB, None) ∧
  Has classTable storeAB (Some keyA) = Done true ∧
  GetOne classTable storeAB (Some keyA) (classRow [])
  = Done (classRow ["7"%byte], None).
Proof. split_and!; by_evaluation. Qed.

(** * Properties of the package nft *)

Section nft_properties.
Local Open Scope Z_scope.

(** ** Bytes and integers *)

Lemma byteVal_bounds (b : byte) : 0 ≤ byteVal b < 256.
Proof.
  unfold byteVal. pose proof (Byte.to_N_bounded b). lia.
Qed.

Lemma byteVal_uint8 (z : Z) : byteVal (uint8 z) = z mod 256.
Proof.
  unfold byteVal, uint8.
  pose proof (Z.mod_pos_bound z 256 ltac:(lia)) as Hz.
  destruct (Byte.of_N (Z.to_N (z mod 256))) as [b|] eqn:Hb; simpl.
  - apply Byte.to_of_N in Hb. lia.
  - apply Byte.of_N_None_iff in Hb. lia.
Qed.

Lemma uint8_byteVal (b : byte) : uint8 (byteVal b) = b.
Proof.
  unfold uint8, byteVal.
  pose proof (Byte.to_N_bounded b).
  rewrite Z.mod_small by lia. by rewrite N2Z.id, Byte.of_to_N.
Qed.

Lemma byteVal_inj (a b : byte) : byteVal a = byteVal b → a = b.
Proof. intros Hab. by rewrite <- (uint8_byteVal a), Hab, uint8_byteVal. Qed.

Lemma uint64_small z : 0 ≤ z < 2 ^ 64 → uint64 z = z.
Proof. intros Hz. unfold uint64. by rewrite Z.mod_small. Qed.

Lemma uint64_bounds z : 0 ≤ uint64 z < 2 ^ 64.
Proof. unfold uint64. apply Z.mod_pos_bound. lia. Qed.

Lemma int_small z : - 2 ^ 63 ≤ z < 2 ^ 63 → int z = z.
Proof. intros Hz. unfold int. rewrite Z.mod_small by lia. lia. Qed.

Lemma int_bounds z : - 2 ^ 63 ≤ int z < 2 ^ 63.
Proof.
  unfold int. pose proof (Z.mod_pos_bound (z + 2 ^ 63) (2 ^ 64) ltac:(lia)). lia.
Qed.

(** A sum of two non-negative [int]s that overflows is negative. *)
Lemma int_add_nonneg a b :
  0 ≤ a < 2 ^ 63 → 0 ≤ b < 2 ^ 63 →
  (a + b < 2 ^ 63 ∧ int (a + b) = a + b) ∨ int (a + b) < 0.
Proof.
  intros Ha Hb. destruct (decide (a + b < 2 ^ 63)) as [Hlt|Hge].
  - left. split; [done|]. apply int_small. lia.
  - right. unfold int.
    replace (a + b + 2 ^ 63) with (a + b - 2 ^ 63 + 1 * 2 ^ 64) by lia.
    rewrite Z.mod_add by lia. rewrite Z.mod_small by lia. lia.
Qed.

(** ** The size of a varint *)

Lemma Len64_lor_1 x : 0 ≤ x → Len64 (Z.lor x 1) = Z.log2 (Z.max x 1) + 1.
Proof.
  intros Hx. unfold Len64.
  assert (Z.lor x 1 ≠ 0) as Hne.
  { intros Hz. apply Z.lor_eq_0_iff in Hz. lia. }
  rewrite decide_False by done. f_equal.
  rewrite Z.log2_lor by lia.
  destruct (decide (x = 0)) as [->|]; [done|].
  rewrite (Z.max_l x 1) by lia. simpl (Z.log2 1).
  pose proof (Z.log2_nonneg x). lia.
Qed.

Lemma sovNft_log2 x : 0 ≤ x → sovNft x = (Z.log2 (Z.max x 1) + 7) / 7.
Proof. intros Hx. unfold sovNft. rewrite Len64_lor_1 by done. f_equal. lia. Qed.

Lemma sovNft_small v : 0 ≤ v < 128 → sovNft v = 1.
Proof.
  intros Hv. rewrite sovNft_log2 by lia.
  assert (0 ≤ Z.log2 (Z.max v 1) < 7) as Hlog.
  { split; [apply Z.log2_nonneg|]. apply Z.log2_lt_pow2; lia. }
  symmetry. apply Z.div_unique with (r := Z.log2 (Z.max v 1)); lia.
Qed.

Lemma sovNft_step v : 128 ≤ v → sovNft v = 1 + sovNft (Z.shiftr v 7).
Proof.
  intros Hv.
  assert (1 ≤ Z.shiftr v 7) as Hshift.
  { rewrite Z.shiftr_div_pow2 by lia. apply Z.div_le_lower_bound; lia. }
  rewrite !sovNft_log2 by lia. rewrite !Z.max_l by lia.
  rewrite Z.log2_shiftr by lia.
  assert (7 ≤ Z.log2 v) by (apply Z.log2_le_pow2; lia).
  rewrite Z.max_r by lia.
  replace (Z.log2 v + 7) with (Z.log2 v - 7 + 7 + 1 * 7) by lia.
  rewrite Z.div_add by lia. lia.
Qed.

Lemma sovNft_pos v : 0 ≤ v → 1 ≤ sovNft v.
Proof.
  intros Hv. rewrite sovNft_log2 by done.
  pose proof (Z.log2_nonneg (Z.max v 1)).
  apply Z.div_le_lower_bound; lia.
Qed.

Lemma sovNft_groups v :
  0 ≤ v →
  1 ≤ sovNft v ∧
  v < 2 ^ (7 * sovNft v) ∧
  (1 < sovNft v → 2 ^ (7 * (sovNft v - 1)) ≤ v) ∧
  (v < 2 ^ 64 → sovNft v ≤ 10).
Proof.
  intros Hv. pose proof (sovNft_pos v Hv) as Hpos.
  rewrite sovNft_log2 in * by done.
  set (L := Z.log2 (Z.max v 1)) in *.
  assert (0 ≤ L) as HL by apply Z.log2_nonneg.
  pose proof (Z.div_mod (L + 7) 7 ltac:(lia)) as Hdiv.
  pose proof (Z.mod_pos_bound (L + 7) 7 ltac:(lia)) as Hmod.
  assert (Z.max v 1 < 2 ^ (L + 1)) as Hup.
  { apply Z.log2_lt_pow2; [lia|]. unfold L. lia. }
  assert (2 ^ L ≤ Z.max v 1) as Hlow.
  { apply Z.log2_le_pow2; [lia|]. unfold L. lia. }
  split_and!.
  - done.
  - eapply Z.lt_le_trans; [|apply Z.pow_le_mono_r with (b := L + 1); lia]. lia.
  - intros Hgt. assert (1 ≤ v).
    { destruct (decide (v = 0)) as [->|]; [|lia]. subst L. simpl in *. lia. }
    etrans; [apply Z.pow_le_mono_r with (c := L); lia|]. lia.
  - intros Hlt. assert (L < 64).
    { apply Z.log2_lt_pow2; lia. }
    apply Z.div_le_upper_bound; lia.
Qed.

(** X1. For a value [v >= 0], [sovNft v] is the number of groups of seven
    bits that [v] takes: it is at least 1, [v] is below [2 ^ (7 * sovNft v)],
    and [v] is at least [2 ^ (7 * (sovNft v - 1))] unless [sovNft v] is 1; a
    [uint64] takes at most ten groups. *)
Theorem sovNft_is_the_number_of_groups v :
  0 ≤ v →
  1 ≤ sovNft v ∧
  v < 2 ^ (7 * sovNft v) ∧
  (1 < sovNft v → 2 ^ (7 * (sovNft v - 1)) ≤ v) ∧
  (v < 2 ^ 64 → sovNft v ≤ 10).
Proof. apply sovNft_groups. Qed.

Lemma sovNft_is_the_number_of_groups_witness :
  sovNft 300 = 2 ∧ 300 < 2 ^ (7 * sovNft 300) ∧ 2 ^ (7 * (sovNft 300 - 1)) ≤ 300.
Proof.
  destruct (sovNft_is_the_number_of_groups 300) as (_ & Hup & Hlow & _); [lia|].
  split_and!; [reflexivity | exact Hup | apply Hlow; reflexivity].
Defined.

(** ** Writing a varint *)

Lemma lenZ_app (a b : list byte) : lenZ (a ++ b) = lenZ a + lenZ b.
Proof. unfold lenZ. rewrite length_app. lia. Qed.

Lemma lenZ_nonneg (a : list byte) : 0 ≤ lenZ a.
Proof. unfold lenZ. lia. Qed.

Lemma store_byte_app pre x post b :
  store_byte (pre ++ x :: post) (lenZ pre) b = Done (pre ++ b :: post).
Proof.
  unfold store_byte, lenZ. rewrite decide_True.
  - rewrite Nat2Z.id, insert_app_r_alt, Nat.sub_diag by lia. done.
  - rewrite length_app. simpl. lia.
Qed.

Lemma store_byte_out_of_range dAtA i b :
  ¬ (0 ≤ i < lenZ dAtA) → store_byte dAtA i b = Panic "index out of range".
Proof. intros Hi. unfold store_byte. by rewrite decide_False. Qed.

Lemma length_varintBytes n v : length (varintBytes n v) = S n.
Proof. revert v. induction n as [|n IH]; intros v; simpl; [done|]. by rewrite IH. Qed.

Lemma length_varint v : 0 ≤ v → lenZ (varint v) = sovNft v.
Proof.
  intros Hv. unfold varint, lenZ. rewrite length_varintBytes.
  pose proof (sovNft_pos v Hv). lia.
Qed.

Lemma sovNft_1_lt v : 0 ≤ v → sovNft v = 1 → v < 128.
Proof.
  intros Hv Hsov. destruct (sovNft_groups v Hv) as (_ & Hup & _).
  rewrite Hsov in Hup. lia.
Qed.

Lemma sovNft_gt_1_ge v : 0 ≤ v → 1 < sovNft v → 128 ≤ v.
Proof.
  intros Hv Hsov. destruct (decide (v < 128)) as [Hlt|]; [|lia].
  rewrite sovNft_small in Hsov; lia.
Qed.

Lemma encodeVarintLoop_app n v pre mid post :
  0 ≤ v → sovNft v = Z.of_nat (S n) → length mid = S n →
  encodeVarintLoop (pre ++ mid ++ post) (lenZ pre) v
  = Done (pre ++ varintBytes n v ++ post).
Proof.
  revert v pre mid. induction n as [|n IH]; intros v pre mid Hv Hsov Hmid.
  - destruct mid as [|x [|??]]; try done. simpl.
    assert (v < 128) by (apply sovNft_1_lt; [done|lia]).
    rewrite encodeVarintLoop_equation_1. destruct (decide (v >= 128)) as [Hge|Hlt]; [lia|].
    simpl. apply store_byte_app.
  - destruct mid as [|x mid]; [done|]. simpl in Hmid.
    assert (128 ≤ v) by (apply sovNft_gt_1_ge; lia).
    rewrite encodeVarintLoop_equation_1. destruct (decide (v >= 128)) as [Hge|Hlt]; [|lia].
    simpl. rewrite store_byte_app. simpl.
    replace (lenZ pre + 1) with (lenZ (pre ++ [uint8 (Z.lor (Z.land v 127) 128)]))
      by (rewrite lenZ_app; done).
    rewrite (cons_middle _ pre), (assoc_L (++) pre).
    rewrite (IH (Z.shiftr v 7) _ mid).
    + by rewrite <- (assoc_L (++) pre).
    + apply Z.shiftr_nonneg. lia.
    + rewrite sovNft_step in Hsov by done. lia.
    + lia.
Qed.

Lemma encodeVarintNft_app v pre mid post :
  0 ≤ v → lenZ mid = sovNft v →
  encodeVarintNft (pre ++ mid ++ post) (lenZ pre + lenZ mid) v
  = Done (pre ++ varint v ++ post, lenZ pre).
Proof.
  intros Hv Hmid. pose proof (sovNft_pos v Hv) as Hpos.
  unfold encodeVarintNft. rewrite Hmid.
  replace (lenZ pre + sovNft v - sovNft v) with (lenZ pre) by lia.
  rewrite (encodeVarintLoop_app (Z.to_nat (sovNft v - 1)) v); [done..| |].
  - lia.
  - unfold lenZ in Hmid. lia.
Qed.

Lemma encodeVarintNft_too_short v dAtA offset :
  0 ≤ v → offset < sovNft v →
  encodeVarintNft dAtA offset v = Panic "index out of range".
Proof.
  intros Hv Hoff. unfold encodeVarintNft.
  rewrite encodeVarintLoop_equation_1.
  destruct (decide (v >= 128)); simpl;
    rewrite store_byte_out_of_range by lia; done.
Qed.

(** X2. [encodeVarintNft(dAtA, offset, v)] writes the [sovNft(v)] bytes of
    the varint of [v] just before [offset], leaves the other bytes of the
    slice as they are, and returns the offset of the first byte written; it
    panics when fewer than [sovNft(v)] bytes precede [offset]. *)
Theorem encodeVarintNft_writes_the_varint v pre mid post dAtA offset :
  0 ≤ v →
  (lenZ mid = sovNft v →
   encodeVarintNft (pre ++ mid ++ post) (lenZ pre + lenZ mid) v
   = Done (pre ++ varint v ++ post, lenZ pre)) ∧
  (offset < sovNft v →
   encodeVarintNft dAtA offset v = Panic "index out of range").
Proof.
  intros Hv. split.
  - by apply encodeVarintNft_app.
  - by apply encodeVarintNft_too_short.
Qed.

Lemma encodeVarintNft_writes_the_varint_witness :
  encodeVarintNft ([x01] ++ [x00; x00] ++ [x02]) 3 300
  = Done ([x01] ++ varint 300 ++ [x02], 1) ∧
  varint 300 = [xac; x02] ∧
  encodeVarintNft [x00] 1 300 = Panic "index out of range".
Proof.
  destruct (encodeVarintNft_writes_the_varint 300 [x01] [x00; x00] [x02] [x00] 1)
    as [Hwrite Hpanic]; [lia|].
  split_and!; [apply Hwrite; reflexivity | reflexivity | apply Hpanic; reflexivity].
Defined.

(** ** Reading a varint *)

Lemma lor_shiftl_add acc x s :
  0 ≤ s → 0 ≤ acc < 2 ^ s → 0 ≤ x → Z.lor acc (Z.shiftl x s) = acc + x * 2 ^ s.
Proof.
  intros Hs Hacc Hx. rewrite <- Z.shiftl_mul_pow2 by done.
  assert (Z.land acc (Z.shiftl x s) = 0) as Hdisjoint.
  { apply Z.bits_inj'. intros n Hn. rewrite Z.land_spec, Z.bits_0.
    destruct (decide (n < s)) as [Hlt|Hge].
    - rewrite (Z.shiftl_spec_low x s n) by done. apply andb_false_r.
    - rewrite <- (Z.mod_small acc (2 ^ s)) by done.
      rewrite Z.mod_pow2_bits_high by lia. done. }
  rewrite <- Z.lxor_lor by done. symmetry. by apply Z.add_nocarry_lxor.
Qed.

Lemma lor_mul_pow2_add acc x s :
  0 ≤ s → 0 ≤ acc < 2 ^ s → 0 ≤ x → Z.lor acc (x * 2 ^ s) = acc + x * 2 ^ s.
Proof.
  intros Hs Hacc Hx. rewrite <- (Z.shiftl_mul_pow2 x s) at 1 by done.
  by apply lor_shiftl_add.
Qed.

Lemma land_127 v : Z.land v 127 = v mod 128.
Proof. change 127 with (Z.ones 7). by rewrite Z.land_ones. Qed.

Lemma lor_128 v : Z.lor (v mod 128) 128 = v mod 128 + 128.
Proof.
  pose proof (Z.mod_pos_bound v 128 ltac:(lia)).
  change 128 with (Z.shiftl 1 7) at 2. rewrite lor_shiftl_add; lia.
Qed.

Lemma byteVal_continuation v :
  byteVal (uint8 (Z.lor (Z.land v 127) 128)) = v mod 128 + 128.
Proof.
  pose proof (Z.mod_pos_bound v 128 ltac:(lia)).
  rewrite byteVal_uint8, land_127, lor_128. apply Z.mod_small. lia.
Qed.

Lemma varintLoop_varintBytes (conv : Z → Z) bound n v shift i acc rest :
  (∀ z, 0 ≤ z < bound → conv z = z) →
  0 ≤ v < 2 ^ (7 * Z.of_nat (S n)) →
  0 ≤ shift → shift + 7 * Z.of_nat n < 64 →
  0 ≤ acc < 2 ^ shift → v * 2 ^ shift < bound →
  varintLoop conv (varintBytes n v ++ rest) shift i acc
  = inr (acc + v * 2 ^ shift, i + Z.of_nat (S n)).
Proof.
  intros Hconv. revert v shift i acc.
  induction n as [|n IH]; intros v shift i acc Hv Hshift Hmax Hacc Hbound.
  - simpl. rewrite decide_False by lia.
    change (2 ^ (7 * Z.of_nat 1)) with 128 in Hv.
    rewrite byteVal_uint8, (Z.mod_small v 256) by lia.
    rewrite decide_True by lia. rewrite land_127, Z.mod_small by lia.
    rewrite Z.shiftl_mul_pow2 by done.
    rewrite Hconv by (split; [apply Z.mul_nonneg_nonneg; lia|done]).
    rewrite lor_mul_pow2_add by lia. do 2 f_equal.
  - simpl varintBytes. simpl app. simpl varintLoop.
    rewrite decide_False by lia.
    pose proof (Z.mod_pos_bound v 128 ltac:(lia)) as Hmod.
    pose proof (Z.div_mod v 128 ltac:(lia)) as Hdiv.
    assert (0 < 2 ^ shift) as Hpow by (apply Z.pow_pos_nonneg; lia).
    rewrite byteVal_continuation. rewrite decide_False by lia.
    rewrite land_127.
    replace ((v mod 128 + 128) mod 128) with (v mod 128)
      by (rewrite <- Z.add_mod_idemp_r, Z.mod_same, Z.add_0_r, Z.mod_mod; lia).
    rewrite Z.shiftl_mul_pow2 by done.
    assert (v mod 128 * 2 ^ shift ≤ v * 2 ^ shift) as Hle
      by (apply Z.mul_le_mono_nonneg_r; lia).
    assert (0 ≤ v mod 128 * 2 ^ shift) by (apply Z.mul_nonneg_nonneg; lia).
    rewrite Hconv by lia.
    rewrite lor_mul_pow2_add by lia.
    rewrite Z.shiftr_div_pow2 by lia. change (2 ^ 7) with 128.
    assert (2 ^ (shift + 7) = 2 ^ shift * 128) as Hsplit
      by (rewrite Z.pow_add_r by lia; done).
    rewrite IH.
    + f_equal. f_equal; [rewrite Hsplit; nia | lia].
    + split; [apply Z.div_pos; lia|].
      apply Z.div_lt_upper_bound; [lia|].
      replace (7 * Z.of_nat (S (S n))) with (7 + 7 * Z.of_nat (S n)) in Hv by lia.
      rewrite Z.pow_add_r in Hv by lia. change (2 ^ 7) with 128 in Hv. lia.
    + lia.
    + lia.
    + rewrite Hsplit. nia.
    + rewrite Hsplit. nia.
Qed.

Lemma drop_lenZ_app (pre rest : list byte) :
  drop (Z.to_nat (lenZ pre)) (pre ++ rest) = rest.
Proof. unfold lenZ. rewrite Nat2Z.id. apply drop_app_length. Qed.

Lemma readVarint_varint (conv : Z → Z) bound v pre rest :
  (∀ z, 0 ≤ z < bound → conv z = z) →
  0 ≤ v < bound → bound ≤ 2 ^ 64 →
  readVarint conv (pre ++ varint v ++ rest) (lenZ pre)
  = inr (v, lenZ pre + sovNft v).
Proof.
  intros Hconv Hv Hbound. unfold readVarint, varint. rewrite drop_lenZ_app.
  destruct (sovNft_groups v) as (Hpos & Hup & _ & Hmax); [lia|].
  specialize (Hmax ltac:(lia)).
  rewrite (varintLoop_varintBytes conv bound); [|done|..]; try lia.
  - f_equal. f_equal; lia.
  - split; [lia|]. by replace (7 * Z.of_nat (S (Z.to_nat (sovNft v - 1))))
      with (7 * sovNft v) by lia.
Qed.

(** X3. Varint round trip: the loop with which [Unmarshal] reads a varint
    reads back the value that [encodeVarintNft] wrote, for every [uint64],
    and stops right after the bytes that were written. *)
Theorem varint_round_trip v pre mid post :
  0 ≤ v < 2 ^ 64 → lenZ mid = sovNft v →
  ∃ dAtA,
    encodeVarintNft (pre ++ mid ++ post) (lenZ pre + lenZ mid) v
    = Done (dAtA, lenZ pre) ∧
    readVarint uint64 dAtA (lenZ pre) = inr (v, lenZ pre + lenZ mid).
Proof.
  intros Hv Hmid. eexists. split.
  - apply encodeVarintNft_app; [lia|done].
  - rewrite Hmid. apply (readVarint_varint uint64 (2 ^ 64)); [|lia..].
    apply uint64_small.
Qed.

Lemma varint_round_trip_witness :
  ∃ dAtA,
    encodeVarintNft ([x01] ++ [x00; x00] ++ [x02]) 3 300 = Done (dAtA, 1) ∧
    readVarint uint64 dAtA 1 = inr (300, 3).
Proof.
  apply (varint_round_trip 300 [x01] [x00; x00] [x02]); [lia | reflexivity].
Defined.

(** ** Marshal *)

Lemma copy_from_app pre mid post s :
  length mid = length s →
  copy_from (pre ++ mid ++ post) (lenZ pre) s = Done (pre ++ s ++ post).
Proof.
  intros Hmid. unfold copy_from. rewrite decide_True.
  - unfold lenZ. rewrite Nat2Z.id, !length_app.
    replace (length pre + (length mid + length post) - length pre)%nat
      with (length mid + length post)%nat by lia.
    rewrite Nat.min_r by lia. rewrite take_app_length, firstn_all.
    rewrite drop_app_add', <- Hmid, drop_app_length by done. done.
  - pose proof (lenZ_nonneg pre). rewrite !lenZ_app.
    pose proof (lenZ_nonneg mid). pose proof (lenZ_nonneg post). lia.
Qed.

Lemma lenZ_fieldBytes tag s : lenZ (fieldBytes tag s) = sizeString s.
Proof.
  unfold fieldBytes, sizeString. case_decide; [|done].
  change (tag :: ?l) with ([tag] ++ l).
  rewrite !lenZ_app, length_varint by apply uint64_bounds.
  change (lenZ [tag]) with 1. lia.
Qed.

Lemma sizeString_nonneg s : 0 ≤ sizeString s.
Proof. rewrite <- (lenZ_fieldBytes x00). apply lenZ_nonneg. Qed.

Lemma split_lenZ (l : list byte) a b :
  0 ≤ a → 0 ≤ b → lenZ l = a + b →
  ∃ l1 l2, l = l1 ++ l2 ∧ lenZ l1 = a ∧ lenZ l2 = b.
Proof.
  intros Ha Hb Hl. exists (take (Z.to_nat a) l), (drop (Z.to_nat a) l).
  unfold lenZ in *. rewrite take_drop, length_take, length_drop.
  split_and!; [done|lia..].
Qed.

Lemma bind_Done {A B} (a : A) (f : A → outcome B) : Done a ≫= f = f a.
Proof. done. Qed.

(** The block of a field writes the wire format of the field just before
    the index, and moves the index to its first byte. *)
Lemma putString_app tag s pre mid post :
  lenZ mid = lenZ (fieldBytes tag s) →
  putString tag s (pre ++ mid ++ post) (lenZ pre + lenZ mid)
  = Done (pre ++ fieldBytes tag s ++ post, lenZ pre).
Proof.
  intros Hmid. unfold putString, fieldBytes in *. case_decide as Hs.
  - pose proof (uint64_bounds (lenZ s)) as Hlen.
    pose proof (sovNft_pos _ (proj1 Hlen)) as Hsov.
    change (?t :: ?l) with ([t] ++ l) in Hmid.
    rewrite !lenZ_app, length_varint in Hmid by lia. change (lenZ [tag]) with 1 in Hmid.
    destruct (split_lenZ mid 1 (sovNft (uint64 (lenZ s)) + lenZ s))
      as (mt & mid' & -> & Hmt & Hmid'); [lia..|].
    destruct (split_lenZ mid' (sovNft (uint64 (lenZ s))) (lenZ s))
      as (mv & ms & -> & Hmv & Hms); [lia..|].
    destruct mt as [|t [|??]]; [done| |unfold lenZ in Hmt; simpl in Hmt; lia].
    replace (lenZ pre + lenZ ([t] ++ mv ++ ms) - lenZ s)
      with (lenZ (pre ++ [t]) + lenZ mv) by (rewrite !lenZ_app; lia).
    replace (pre ++ ([t] ++ mv ++ ms) ++ post)
      with (((pre ++ [t]) ++ mv) ++ ms ++ post) by (by rewrite <- !(assoc_L (++))).
    rewrite <- lenZ_app.
    rewrite copy_from_app by (unfold lenZ in Hms; lia).
    rewrite bind_Done, lenZ_app, <- (assoc_L (++) (pre ++ [t])).
    rewrite encodeVarintNft_app by lia. rewrite bind_Done.
    replace (lenZ (pre ++ [t]) - 1) with (lenZ pre)
      by (rewrite lenZ_app; change (lenZ [t]) with 1; lia).
    rewrite <- (assoc_L (++) pre). simpl. rewrite store_byte_app. simpl.
    by rewrite <- (assoc_L (++)).
  - destruct mid; [|done]. simpl. by rewrite Z.add_0_r.
Qed.

Lemma lenZ_Class_wire m :
  lenZ (Class_wire m)
  = sizeString (Id m) + sizeString (Name m) + sizeString (Symbol m)
    + sizeString (Description m) + sizeString (Uri m) + sizeString (UriHash m).
Proof. unfold Class_wire. rewrite !lenZ_app, !lenZ_fieldBytes. lia. Qed.

(** [Size] is the length of the wire format, unless its additions wrap
    around. *)
Lemma Class_Size_wire m :
  lenZ (Class_wire m) < 2 ^ 63 → Class_Size (Some m) = lenZ (Class_wire m).
Proof.
  intros Hwire. pose proof (lenZ_nonneg (Class_wire m)).
  unfold Class_Size. rewrite <- lenZ_Class_wire. apply int_small. lia.
Qed.

Lemma Class_Size_le m : Class_Size (Some m) ≤ lenZ (Class_wire m).
Proof.
  pose proof (lenZ_nonneg (Class_wire m)) as Hwire.
  unfold Class_Size. rewrite <- lenZ_Class_wire.
  destruct (decide (lenZ (Class_wire m) < 2 ^ 63)) as [Hlt|Hge].
  - rewrite int_small; lia.
  - pose proof (int_bounds (lenZ (Class_wire m))). lia.
Qed.

Lemma MarshalToSizedBuffer_app m pre mid :
  lenZ mid = lenZ (Class_wire m) →
  Class_MarshalToSizedBuffer (Some m) (pre ++ mid)
  = Done (pre ++ Class_wire m, (lenZ (Class_wire m), None)).
Proof.
  intros Hmid. rewrite lenZ_Class_wire in Hmid.
  pose proof (sizeString_nonneg (Id m)). pose proof (sizeString_nonneg (Name m)).
  pose proof (sizeString_nonneg (Symbol m)).
  pose proof (sizeString_nonneg (Description m)).
  pose proof (sizeString_nonneg (Uri m)). pose proof (sizeString_nonneg (UriHash m)).
  destruct (split_lenZ mid (sizeString (Id m))
              (sizeString (Name m) + sizeString (Symbol m) + sizeString (Description m)
               + sizeString (Uri m) + sizeString (UriHash m)))
    as (m1 & r1 & -> & Hlen1 & Hr1); [lia..|].
  destruct (split_lenZ r1 (sizeString (Name m))
              (sizeString (Symbol m) + sizeString (Description m)
               + sizeString (Uri m) + sizeString (UriHash m)))
    as (m2 & r2 & -> & Hlen2 & Hr2); [lia..|].
  destruct (split_lenZ r2 (sizeString (Symbol m))
              (sizeString (Description m) + sizeString (Uri m) + sizeString (UriHash m)))
    as (m3 & r3 & -> & Hlen3 & Hr3); [lia..|].
  destruct (split_lenZ r3 (sizeString (Description m))
              (sizeString (Uri m) + sizeString (UriHash m)))
    as (m4 & r4 & -> & Hlen4 & Hr4); [lia..|].
  destruct (split_lenZ r4 (sizeString (Uri m)) (sizeString (UriHash m)))
    as (m5 & m6 & -> & Hlen5 & Hlen6); [lia..|].
  rewrite <- (lenZ_fieldBytes x0a) in Hlen1. rewrite <- (lenZ_fieldBytes x12) in Hlen2.
  rewrite <- (lenZ_fieldBytes x1a) in Hlen3. rewrite <- (lenZ_fieldBytes x22) in Hlen4.
  rewrite <- (lenZ_fieldBytes x2a) in Hlen5. rewrite <- (lenZ_fieldBytes x32) in Hlen6.
  unfold Class_MarshalToSizedBuffer, Class_wire.
  set (buf := pre ++ m1 ++ m2 ++ m3 ++ m4 ++ m5 ++ m6).
  assert (lenZ buf = lenZ pre + lenZ (Class_wire m)) as Hbuf.
  { rewrite lenZ_Class_wire. unfold buf.
    rewrite !lenZ_app, !lenZ_fieldBytes in *. lia. }
  unfold buf at 1.
  replace (lenZ buf) with (lenZ (pre ++ m1 ++ m2 ++ m3 ++ m4 ++ m5) + lenZ m6)
    by (unfold buf; rewrite !lenZ_app; lia).
  replace (pre ++ m1 ++ m2 ++ m3 ++ m4 ++ m5 ++ m6)
    with ((pre ++ m1 ++ m2 ++ m3 ++ m4 ++ m5) ++ m6 ++ [])
    by (by rewrite (right_id_L [] (++)), <- !(assoc_L (++))).
  rewrite (putString_app x32) by done. simpl.
  replace (lenZ (pre ++ m1 ++ m2 ++ m3 ++ m4 ++ m5))
    with (lenZ (pre ++ m1 ++ m2 ++ m3 ++ m4) + lenZ m5) by (rewrite !lenZ_app; lia).
  replace ((pre ++ m1 ++ m2 ++ m3 ++ m4 ++ m5) ++ fieldBytes x32 (UriHash m) ++ [])
    with ((pre ++ m1 ++ m2 ++ m3 ++ m4) ++ m5 ++ fieldBytes x32 (UriHash m))
    by (by rewrite (right_id_L [] (++)), <- !(assoc_L (++))).
  rewrite (putString_app x2a) by done. simpl.
  replace (lenZ (pre ++ m1 ++ m2 ++ m3 ++ m4))
    with (lenZ (pre ++ m1 ++ m2 ++ m3) + lenZ m4) by (rewrite !lenZ_app; lia).
  replace ((pre ++ m1 ++ m2 ++ m3 ++ m4) ++ fieldBytes x2a (Uri m)
           ++ fieldBytes x32 (UriHash m))
    with ((pre ++ m1 ++ m2 ++ m3) ++ m4 ++ fieldBytes x2a (Uri m)
          ++ fieldBytes x32 (UriHash m))
    by (by rewrite <- !(assoc_L (++))).
  rewrite (putString_app x22) by done. simpl.
  replace (lenZ (pre ++ m1 ++ m2 ++ m3))
    with (lenZ (pre ++ m1 ++ m2) + lenZ m3) by (rewrite !lenZ_app; lia).
  replace ((pre ++ m1 ++ m2 ++ m3) ++ fieldBytes x22 (Description m)
           ++ fieldBytes x2a (Uri m) ++ fieldBytes x32 (UriHash m))
    with ((pre ++ m1 ++ m2) ++ m3 ++ fieldBytes x22 (Description m)
          ++ fieldBytes x2a (Uri m) ++ fieldBytes x32 (UriHash m))
    by (by rewrite <- !(assoc_L (++))).
  rewrite (putString_app x1a) by done. simpl.
  replace (lenZ (pre ++ m1 ++ m2))
    with (lenZ (pre ++ m1) + lenZ m2) by (rewrite !lenZ_app; lia).
  replace ((pre ++ m1 ++ m2) ++ fieldBytes x1a (Symbol m)
           ++ fieldBytes x22 (Description m) ++ fieldBytes x2a (Uri m)
           ++ fieldBytes x32 (UriHash m))
    with ((pre ++ m1) ++ m2 ++ fieldBytes x1a (Symbol m)
          ++ fieldBytes x22 (Description m) ++ fieldBytes x2a (Uri m)
          ++ fieldBytes x32 (UriHash m))
    by (by rewrite <- !(assoc_L (++))).
  rewrite (putString_app x12) by done. simpl.
  rewrite lenZ_app.
  replace ((pre ++ m1) ++ fieldBytes x12 (Name m) ++ fieldBytes x1a (Symbol m)
           ++ fieldBytes x22 (Description m) ++ fieldBytes x2a (Uri m)
           ++ fieldBytes x32 (UriHash m))
    with (pre ++ m1 ++ fieldBytes x12 (Name m) ++ fieldBytes x1a (Symbol m)
          ++ fieldBytes x22 (Description m) ++ fieldBytes x2a (Uri m)
          ++ fieldBytes x32 (UriHash m))
    by (by rewrite <- !(assoc_L (++))).
  rewrite (putString_app x0a) by done. simpl.
  do 3 f_equal. rewrite !lenZ_app, !lenZ_fieldBytes. lia.
Qed.

Lemma slice_to_all dAtA : slice_to dAtA (lenZ dAtA) = Done dAtA.
Proof.
  unfold slice_to. pose proof (lenZ_nonneg dAtA). rewrite decide_True by lia.
  unfold lenZ. by rewrite Nat2Z.id, firstn_all.
Qed.

Lemma Class_Marshal_wire m :
  lenZ (Class_wire m) < 2 ^ 63 →
  Class_Marshal (Some m) = Done (Class_wire m, None).
Proof.
  intros Hwire%Class_Size_wire. pose proof (lenZ_nonneg (Class_wire m)) as Hsize.
  unfold Class_Marshal. rewrite Hwire. cbv zeta. rewrite decide_False by lia.
  set (dAtA := replicate (Z.to_nat (lenZ (Class_wire m))) x00).
  assert (lenZ dAtA = lenZ (Class_wire m)) as Hlen.
  { unfold dAtA, lenZ. rewrite length_replicate. lia. }
  rewrite <- Hlen at 1. rewrite slice_to_all, bind_Done.
  pose proof (MarshalToSizedBuffer_app m [] dAtA Hlen) as Hwrite.
  change ([] ++ dAtA) with dAtA in Hwrite. rewrite Hwrite, bind_Done.
  change ([] ++ Class_wire m) with (Class_wire m).
  cbv beta iota. by rewrite slice_to_all.
Qed.

(** ** Unmarshal of the wire format *)

Lemma varint_small v : 0 ≤ v < 128 → varint v = [uint8 v].
Proof. intros Hv. unfold varint. by rewrite sovNft_small. Qed.

Lemma readVarint_tag tag pre rest :
  byteVal tag < 128 →
  readVarint uint64 (pre ++ tag :: rest) (lenZ pre)
  = inr (byteVal tag, lenZ pre + 1).
Proof.
  intros Htag. pose proof (byteVal_bounds tag) as Hb.
  pose proof (readVarint_varint uint64 (2 ^ 64) (byteVal tag) pre rest uint64_small)
    as Hread.
  rewrite varint_small, uint8_byteVal, sovNft_small in Hread by lia.
  apply Hread; lia.
Qed.

Lemma readString_app name s pre rest :
  lenZ (pre ++ varint (lenZ s) ++ s ++ rest) < 2 ^ 63 →
  readString name 2 (pre ++ varint (lenZ s) ++ s ++ rest) (lenZ pre)
  = inr (s, lenZ pre + sovNft (lenZ s) + lenZ s).
Proof.
  intros Hbuf. pose proof (lenZ_nonneg s) as Hs. pose proof (lenZ_nonneg pre) as Hpre.
  pose proof (lenZ_nonneg rest) as Hrest.
  pose proof (sovNft_pos (lenZ s) Hs) as Hsov.
  rewrite !lenZ_app, length_varint in Hbuf by done.
  unfold readString. rewrite decide_False by (intros Hne; by apply Hne).
  rewrite (readVarint_varint uint64 (2 ^ 64)) by (try apply uint64_small; lia).
  rewrite (int_small (lenZ s)) by lia. rewrite decide_False by lia.
  rewrite int_small by lia. rewrite decide_False by lia.
  rewrite !lenZ_app, length_varint by done. rewrite decide_False by lia.
  do 2 f_equal.
  replace (lenZ pre + sovNft (lenZ s)) with (lenZ (pre ++ varint (lenZ s)))
    by (rewrite lenZ_app, length_varint; done).
  rewrite (assoc_L (++) pre), drop_lenZ_app.
  replace (lenZ (pre ++ varint (lenZ s)) + lenZ s - lenZ (pre ++ varint (lenZ s)))
    with (lenZ s) by lia.
  unfold lenZ. rewrite Nat2Z.id. apply take_app_length.
Qed.

Lemma fieldBytes_nonempty tag s :
  lenZ s > 0 → lenZ s < 2 ^ 64 →
  fieldBytes tag s = tag :: varint (lenZ s) ++ s.
Proof.
  intros Hs Hlt. unfold fieldBytes. rewrite decide_True by done.
  rewrite uint64_small by lia. done.
Qed.

Lemma fieldBytes_empty tag s : ¬ lenZ s > 0 → fieldBytes tag s = [].
Proof. intros Hs. unfold fieldBytes. by rewrite decide_False. Qed.

Lemma Class_Unmarshal_loop_S fuel m dAtA iNdEx :
  Class_Unmarshal_loop (S fuel) m dAtA iNdEx =
  let l := lenZ dAtA in
  if decide (iNdEx < l)
  then
    let preIndex := iNdEx in
    match readVarint uint64 dAtA iNdEx with
    | inl err => Some (m, Some err)
    | inr (wire, iNdEx) =>
        let fieldNum := int32 (Z.shiftr wire 3) in
        let wireType := int (Z.land wire 0x7) in
        let field (name : string) (set : list byte → Class)
          : option (Class * option error) :=
          match readString name wireType dAtA iNdEx with
          | inl err => Some (m, Some err)
          | inr (s, postIndex) => Class_Unmarshal_loop fuel (set s) dAtA postIndex
          end in
        if decide (wireType = 4)
        then Some (m, Some (Foreign "proto: Class: wiretype end group for non-group"))
        else if decide (fieldNum <= 0)
        then Some (m, Some (Foreign ("proto: Class: illegal tag " +:+ showZ fieldNum
                                     +:+ " (wire type " +:+ showZ wire +:+ ")")))
        else
          match fieldNum with
          | 1 => field "Id" (λ s, mkClass s (Name m) (Symbol m) (Description m)
                                    (Uri m) (UriHash m))
          | 2 => field "Name" (λ s, mkClass (Id m) s (Symbol m) (Description m)
                                      (Uri m) (UriHash m))
          | 3 => field "Symbol" (λ s, mkClass (Id m) (Name m) s (Description m)
                                        (Uri m) (UriHash m))
          | 4 => field "Description" (λ s, mkClass (Id m) (Name m) (Symbol m) s
                                             (Uri m) (UriHash m))
          | 5 => field "Uri" (λ s, mkClass (Id m) (Name m) (Symbol m)
                                     (Description m) s (UriHash m))
          | 6 => field "UriHash" (λ s, mkClass (Id m) (Name m) (Symbol m)
                                         (Description m) (Uri m) s)
          | _ =>
              let iNdEx := preIndex in
              match skipNft (drop (Z.to_nat iNdEx) dAtA) with
              | None => None
              | Some (_, Some err) => Some (m, Some err)
              | Some (skippy, None) =>
                  if decide (skippy < 0 ∨ int (iNdEx + skippy) < 0)
                  then Some (m, Some ErrInvalidLengthNft)
                  else if decide (int (iNdEx + skippy) > l)
                  then Some (m, Some io_ErrUnexpectedEOF)
                  else Class_Unmarshal_loop fuel m dAtA (int (iNdEx + skippy))
              end
          end
    end
  else Some (m, if decide (iNdEx > l) then Some io_ErrUnexpectedEOF else None).
Proof. done. Qed.

Lemma Class_Unmarshal_loop_end fuel m dAtA :
  Class_Unmarshal_loop (S fuel) m dAtA (lenZ dAtA) = Some (m, None).
Proof.
  rewrite Class_Unmarshal_loop_S. cbv zeta.
  rewrite decide_False by lia. by rewrite decide_False by lia.
Qed.

Lemma lenZ_cons (b : byte) l : lenZ (b :: l) = 1 + lenZ l.
Proof. unfold lenZ. simpl. lia. Qed.

Lemma readString_field name tag s pre rest :
  lenZ (pre ++ tag :: varint (lenZ s) ++ s ++ rest) < 2 ^ 63 →
  readString name 2 (pre ++ tag :: varint (lenZ s) ++ s ++ rest) (lenZ pre + 1)
  = inr (s, lenZ pre + lenZ (tag :: varint (lenZ s) ++ s)).
Proof.
  intros Hbuf. pose proof (lenZ_nonneg s) as Hs.
  replace (lenZ pre + 1) with (lenZ (pre ++ [tag]))
    by (rewrite lenZ_app, lenZ_cons; done).
  replace (pre ++ tag :: varint (lenZ s) ++ s ++ rest)
    with ((pre ++ [tag]) ++ varint (lenZ s) ++ s ++ rest) in *
    by (by rewrite <- (assoc_L (++) pre)).
  rewrite readString_app by done.
  rewrite !lenZ_app, !lenZ_cons, lenZ_app, length_varint by done.
  do 2 f_equal. unfold lenZ at 2. simpl. lia.
Qed.

(** One iteration of the loop on the wire format of a non-empty string
    field with the tag [tag], of value [v], field number [f]. *)
Ltac field_step tag v f s pre rest :=
  let Hs := fresh "Hs" in
  let Hbuf := fresh "Hbuf" in
  let Hs64 := fresh "Hs64" in
  intros Hs Hbuf;
  pose proof (lenZ_nonneg pre); pose proof (lenZ_nonneg rest);
  assert (lenZ s < 2 ^ 64) as Hs64
    by (rewrite !lenZ_app, lenZ_fieldBytes in Hbuf; unfold sizeString in Hbuf;
        rewrite decide_True in Hbuf by done;
        pose proof (sovNft_pos _ (proj1 (uint64_bounds (lenZ s)))); lia);
  rewrite fieldBytes_nonempty in * by done;
  rewrite Class_Unmarshal_loop_S; cbv zeta;
  rewrite decide_True
    by (rewrite !lenZ_app, lenZ_cons;
        pose proof (lenZ_nonneg (varint (lenZ s) ++ s)); lia);
  simpl app in *; rewrite <- (assoc_L (++) _ s rest) in *;
  rewrite readVarint_tag by done;
  change (byteVal tag) with v;
  change (int (Z.land v 7)) with 2; change (int32 (Z.shiftr v 3)) with f;
  rewrite decide_False by lia; rewrite decide_False by lia; cbv beta iota;
  rewrite readString_field by done;
  rewrite (assoc_L (++) _ s rest); done.

Lemma Class_Unmarshal_step_Id fuel m s pre rest :
  lenZ s > 0 → lenZ (pre ++ fieldBytes x0a s ++ rest) < 2 ^ 63 →
  Class_Unmarshal_loop (S fuel) m (pre ++ fieldBytes x0a s ++ rest) (lenZ pre)
  = Class_Unmarshal_loop fuel
      (mkClass s (Name m) (Symbol m) (Description m) (Uri m) (UriHash m))
      (pre ++ fieldBytes x0a s ++ rest) (lenZ pre + lenZ (fieldBytes x0a s)).
Proof. field_step x0a 10 1 s pre rest. Qed.

Lemma Class_Unmarshal_step_Name fuel m s pre rest :
  lenZ s > 0 → lenZ (pre ++ fieldBytes x12 s ++ rest) < 2 ^ 63 →
  Class_Unmarshal_loop (S fuel) m (pre ++ fieldBytes x12 s ++ rest) (lenZ pre)
  = Class_Unmarshal_loop fuel
      (mkClass (Id m) s (Symbol m) (Description m) (Uri m) (UriHash m))
      (pre ++ fieldBytes x12 s ++ rest) (lenZ pre + lenZ (fieldBytes x12 s)).
Proof. field_step x12 18 2 s pre rest. Qed.

Lemma Class_Unmarshal_step_Symbol fuel m s pre rest :
  lenZ s > 0 → lenZ (pre ++ fieldBytes x1a s ++ rest) < 2 ^ 63 →
  Class_Unmarshal_loop (S fuel) m (pre ++ fieldBytes x1a s ++ rest) (lenZ pre)
  = Class_Unmarshal_loop fuel
      (mkClass (Id m) (Name m) s (Description m) (Uri m) (UriHash m))
      (pre ++ fieldBytes x1a s ++ rest) (lenZ pre + lenZ (fieldBytes x1a s)).
Proof. field_step x1a 26 3 s pre rest. Qed.

Lemma Class_Unmarshal_step_Description fuel m s pre rest :
  lenZ s > 0 → lenZ (pre ++ fieldBytes x22 s ++ rest) < 2 ^ 63 →
  Class_Unmarshal_loop (S fuel) m (pre ++ fieldBytes x22 s ++ rest) (lenZ pre)
  = Class_Unmarshal_loop fuel
      (mkClass (Id m) (Name m) (Symbol m) s (Uri m) (UriHash m))
      (pre ++ fieldBytes x22 s ++ rest) (lenZ pre + lenZ (fieldBytes x22 s)).
Proof. field_step x22 34 4 s pre rest. Qed.

Lemma Class_Unmarshal_step_Uri fuel m s pre rest :
  lenZ s > 0 → lenZ (pre ++ fieldBytes x2a s ++ rest) < 2 ^ 63 →
  Class_Unmarshal_loop (S fuel) m (pre ++ fieldBytes x2a s ++ rest) (lenZ pre)
  = Class_Unmarshal_loop fuel
      (mkClass (Id m) (Name m) (Symbol m) (Description m) s (UriHash m))
      (pre ++ fieldBytes x2a s ++ rest) (lenZ pre + lenZ (fieldBytes x2a s)).
Proof. field_step x2a 42 5 s pre rest. Qed.

Lemma Class_Unmarshal_step_UriHash fuel m s pre rest :
  lenZ s > 0 → lenZ (pre ++ fieldBytes x32 s ++ rest) < 2 ^ 63 →
  Class_Unmarshal_loop (S fuel) m (pre ++ fieldBytes x32 s ++ rest) (lenZ pre)
  = Class_Unmarshal_loop fuel
      (mkClass (Id m) (Name m) (Symbol m) (Description m) (Uri m) s)
      (pre ++ fieldBytes x32 s ++ rest) (lenZ pre + lenZ (fieldBytes x32 s)).
Proof. field_step x32 50 6 s pre rest. Qed.

Lemma pick_nonempty new old : lenZ new > 0 → pick new old = new.
Proof. intros Hnew. unfold pick. by rewrite decide_True. Qed.

Lemma pick_empty new old : ¬ lenZ new > 0 → pick new old = old.
Proof. intros Hnew. unfold pick. by rewrite decide_False. Qed.

(** The loop on the wire format of a field, empty or not: it goes on after
    the field with the field set, and with fuel left for what follows. *)
Ltac field_any step tag s m :=
  let Hbuf := fresh "Hbuf" in
  let Hfuel := fresh "Hfuel" in
  let Hs := fresh "Hs" in
  intros Hbuf Hfuel;
  destruct (decide (lenZ s > 0)) as [Hs|Hs];
  [ rewrite pick_nonempty by done;
    match goal with
    | fuel : nat |- _ =>
        destruct fuel as [|fuel]; [simpl in Hfuel; lia|];
        exists fuel; split;
        [ rewrite length_app in Hfuel;
          assert (0 < lenZ (fieldBytes tag s))
            by (rewrite lenZ_fieldBytes; unfold sizeString;
                rewrite decide_True by done;
                pose proof (sovNft_pos _ (proj1 (uint64_bounds (lenZ s)))); lia);
          unfold lenZ in *; lia
        | rewrite step, lenZ_app, <- (assoc_L (++)) by done; done ]
    end
  | rewrite pick_empty by done; rewrite fieldBytes_empty in * by done;
    match goal with
    | fuel : nat |- _ =>
        exists fuel; split; [done|];
        rewrite (right_id_L [] (++)); by destruct m
    end ].

Lemma Class_Unmarshal_field_Id fuel m s pre rest :
  lenZ (pre ++ fieldBytes x0a s ++ rest) < 2 ^ 63 →
  (length (fieldBytes x0a s ++ rest) < fuel)%nat →
  ∃ fuel', (length rest < fuel')%nat ∧
    Class_Unmarshal_loop fuel m (pre ++ fieldBytes x0a s ++ rest) (lenZ pre)
    = Class_Unmarshal_loop fuel'
        (mkClass (pick s (Id m)) (Name m) (Symbol m) (Description m) (Uri m)
           (UriHash m))
        ((pre ++ fieldBytes x0a s) ++ rest) (lenZ (pre ++ fieldBytes x0a s)).
Proof. field_any Class_Unmarshal_step_Id x0a s m. Qed.

Lemma Class_Unmarshal_field_Name fuel m s pre rest :
  lenZ (pre ++ fieldBytes x12 s ++ rest) < 2 ^ 63 →
  (length (fieldBytes x12 s ++ rest) < fuel)%nat →
  ∃ fuel', (length rest < fuel')%nat ∧
    Class_Unmarshal_loop fuel m (pre ++ fieldBytes x12 s ++ rest) (lenZ pre)
    = Class_Unmarshal_loop fuel'
        (mkClass (Id m) (pick s (Name m)) (Symbol m) (Description m) (Uri m)
           (UriHash m))
        ((pre ++ fieldBytes x12 s) ++ rest) (lenZ (pre ++ fieldBytes x12 s)).
Proof. field_any Class_Unmarshal_step_Name x12 s m. Qed.

Lemma Class_Unmarshal_field_Symbol fuel m s pre rest :
  lenZ (pre ++ fieldBytes x1a s ++ rest) < 2 ^ 63 →
  (length (fieldBytes x1a s ++ rest) < fuel)%nat →
  ∃ fuel', (length rest < fuel')%nat ∧
    Class_Unmarshal_loop fuel m (pre ++ fieldBytes x1a s ++ rest) (lenZ pre)
    = Class_Unmarshal_loop fuel'
        (mkClass (Id m) (Name m) (pick s (Symbol m)) (Description m) (Uri m)
           (UriHash m))
        ((pre ++ fieldBytes x1a s) ++ rest) (lenZ (pre ++ fieldBytes x1a s)).
Proof. field_any Class_Unmarshal_step_Symbol x1a s m. Qed.

Lemma Class_Unmarshal_field_Description fuel m s pre rest :
  lenZ (pre ++ fieldBytes x22 s ++ rest) < 2 ^ 63 →
  (length (fieldBytes x22 s ++ rest) < fuel)%nat →
  ∃ fuel', (length rest < fuel')%nat ∧
    Class_Unmarshal_loop fuel m (pre ++ fieldBytes x22 s ++ rest) (lenZ pre)
    = Class_Unmarshal_loop fuel'
        (mkClass (Id m) (Name m) (Symbol m) (pick s (Description m)) (Uri m)
           (UriHash m))
        ((pre ++ fieldBytes x22 s) ++ rest) (lenZ (pre ++ fieldBytes x22 s)).
Proof. field_any Class_Unmarshal_step_Description x22 s m. Qed.

Lemma Class_Unmarshal_field_Uri fuel m s pre rest :
  lenZ (pre ++ fieldBytes x2a s ++ rest) < 2 ^ 63 →
  (length (fieldBytes x2a s ++ rest) < fuel)%nat →
  ∃ fuel', (length rest < fuel')%nat ∧
    Class_Unmarshal_loop fuel m (pre ++ fieldBytes x2a s ++ rest) (lenZ pre)
    = Class_Unmarshal_loop fuel'
        (mkClass (Id m) (Name m) (Symbol m) (Description m) (pick s (Uri m))
           (UriHash m))
        ((pre ++ fieldBytes x2a s) ++ rest) (lenZ (pre ++ fieldBytes x2a s)).
Proof. field_any Class_Unmarshal_step_Uri x2a s m. Qed.

Lemma Class_Unmarshal_field_UriHash fuel m s pre rest :
  lenZ (pre ++ fieldBytes x32 s ++ rest) < 2 ^ 63 →
  (length (fieldBytes x32 s ++ rest) < fuel)%nat →
  ∃ fuel', (length rest < fuel')%nat ∧
    Class_Unmarshal_loop fuel m (pre ++ fieldBytes x32 s ++ rest) (lenZ pre)
    = Class_Unmarshal_loop fuel'
        (mkClass (Id m) (Name m) (Symbol m) (Description m) (Uri m)
           (pick s (UriHash m)))
        ((pre ++ fieldBytes x32 s) ++ rest) (lenZ (pre ++ fieldBytes x32 s)).
Proof. field_any Class_Unmarshal_step_UriHash x32 s m. Qed.

Ltac next_field lem s pre Hbuf Hfuel Hprev fuel' Hfuel' Heq :=
  match type of Hprev with
  | _ = Class_Unmarshal_loop ?fuel ?mm _ _ =>
      destruct (lem fuel mm s pre _ Hbuf Hfuel) as (fuel' & Hfuel' & Heq)
  end.

(** The loop on the wire format of a message that other bytes follow: it
    goes on after the message with the fields merged, and with fuel left for
    what follows. *)
Lemma Class_Unmarshal_loop_wire_then fuel m0 m pre rest :
  lenZ (pre ++ Class_wire m ++ rest) < 2 ^ 63 →
  (length (Class_wire m ++ rest) < fuel)%nat →
  ∃ fuel', (length rest < fuel')%nat ∧
    Class_Unmarshal_loop fuel m0 (pre ++ Class_wire m ++ rest) (lenZ pre)
    = Class_Unmarshal_loop fuel' (Class_merge m0 m)
        (pre ++ Class_wire m ++ rest) (lenZ (pre ++ Class_wire m)).
Proof.
  assert (pre ++ Class_wire m =
          (((((pre ++ fieldBytes x0a (Id m)) ++ fieldBytes x12 (Name m))
              ++ fieldBytes x1a (Symbol m)) ++ fieldBytes x22 (Description m))
            ++ fieldBytes x2a (Uri m)) ++ fieldBytes x32 (UriHash m)) as Hwire.
  { unfold Class_wire. by rewrite <- !(assoc_L (++)). }
  rewrite (assoc_L (++) pre (Class_wire m) rest), Hwire.
  clear Hwire. remember (Class_merge m0 m) as m' eqn:Hm'. unfold Class_wire.
  rewrite <- !(assoc_L (++)). intros Hbuf Hfuel.
  destruct (Class_Unmarshal_field_Id fuel m0 (Id m) pre _ Hbuf Hfuel)
    as (fuel1 & Hfuel1 & Heq1).
  rewrite (assoc_L (++) pre) in Hbuf. set (pre1 := pre ++ fieldBytes x0a _) in *.
  next_field Class_Unmarshal_field_Name (Name m) pre1 Hbuf Hfuel1 Heq1
    fuel2 Hfuel2 Heq2.
  rewrite (assoc_L (++) pre1) in Hbuf. set (pre2 := pre1 ++ fieldBytes x12 _) in *.
  next_field Class_Unmarshal_field_Symbol (Symbol m) pre2 Hbuf Hfuel2 Heq2
    fuel3 Hfuel3 Heq3.
  rewrite (assoc_L (++) pre2) in Hbuf. set (pre3 := pre2 ++ fieldBytes x1a _) in *.
  next_field Class_Unmarshal_field_Description (Description m) pre3 Hbuf Hfuel3 Heq3
    fuel4 Hfuel4 Heq4.
  rewrite (assoc_L (++) pre3) in Hbuf. set (pre4 := pre3 ++ fieldBytes x22 _) in *.
  next_field Class_Unmarshal_field_Uri (Uri m) pre4 Hbuf Hfuel4 Heq4
    fuel5 Hfuel5 Heq5.
  rewrite (assoc_L (++) pre4) in Hbuf. set (pre5 := pre4 ++ fieldBytes x2a _) in *.
  next_field Class_Unmarshal_field_UriHash (UriHash m) pre5 Hbuf Hfuel5 Heq5
    fuel6 Hfuel6 Heq6.
  exists fuel6. split; [done|].
  rewrite Heq1, Heq2, Heq3, Heq4, Heq5, Heq6. subst m' pre5 pre4 pre3 pre2 pre1.
  by rewrite <- !(assoc_L (++)).
Qed.

(** The loop on the wire format of a message, from its first byte. *)
Lemma Class_Unmarshal_loop_wire fuel m0 m pre :
  lenZ (pre ++ Class_wire m) < 2 ^ 63 →
  (length (Class_wire m) < fuel)%nat →
  Class_Unmarshal_loop fuel m0 (pre ++ Class_wire m) (lenZ pre)
  = Some (Class_merge m0 m, None).
Proof.
  intros Hbuf Hfuel.
  destruct (Class_Unmarshal_loop_wire_then fuel m0 m pre [])
    as (fuel' & Hfuel' & Hloop).
  { by rewrite (right_id_L [] (++)). }
  { by rewrite (right_id_L [] (++)). }
  rewrite (right_id_L [] (++)) in Hloop. rewrite Hloop.
  destruct fuel' as [|fuel']; [simpl in Hfuel'; lia|].
  apply Class_Unmarshal_loop_end.
Qed.

(** ** Progress of the loops *)

Lemma varintLoop_index conv rest shift i acc v i' :
  varintLoop conv rest shift i acc = inr (v, i') → i < i' ≤ i + lenZ rest.
Proof.
  revert shift i acc. induction rest as [|b rest IH]; intros shift i acc; simpl.
  - by case_decide.
  - case_decide; [done|]. rewrite lenZ_cons. pose proof (lenZ_nonneg rest).
    case_decide.
    + intros [= <- <-]. lia.
    + intros Hloop%IH. lia.
Qed.

Lemma readVarint_progress conv dAtA i v i' :
  readVarint conv dAtA i = inr (v, i') → 0 ≤ i → i < i' ≤ lenZ dAtA.
Proof.
  unfold readVarint. intros Hloop%varintLoop_index Hi.
  unfold lenZ in *. rewrite length_drop in Hloop. lia.
Qed.

Lemma bits_above_63 z n : 0 ≤ z < 2 ^ 63 → 63 ≤ n → Z.testbit z n = false.
Proof.
  intros Hz Hn. destruct (decide (z = 0)) as [->|]; [apply Z.bits_0|].
  apply Z.bits_above_log2; [lia|].
  assert (Z.log2 z < 63); [|lia]. apply Z.log2_lt_pow2; lia.
Qed.

Lemma lt_pow2_63_bits z :
  0 ≤ z → (∀ n, 63 ≤ n → Z.testbit z n = false) → z < 2 ^ 63.
Proof.
  intros Hz Hbits. destruct (decide (z < 2 ^ 63)) as [|Hge]; [done|].
  assert (63 ≤ Z.log2 z) as Hlog by (apply Z.log2_le_pow2; lia).
  specialize (Hbits _ Hlog). rewrite Z.bit_log2 in Hbits by lia. done.
Qed.

(** The bitwise or of two [int]s is an [int]. *)
Lemma lor_int_range a b :
  - 2 ^ 63 ≤ a < 2 ^ 63 → - 2 ^ 63 ≤ b < 2 ^ 63 → - 2 ^ 63 ≤ Z.lor a b < 2 ^ 63.
Proof.
  intros Ha Hb. destruct (decide (0 ≤ a ∧ 0 ≤ b)) as [[Ha0 Hb0]|Hneg].
  - split; [pose proof (proj2 (Z.lor_nonneg a b) (conj Ha0 Hb0)); lia|].
    apply lt_pow2_63_bits; [by apply Z.lor_nonneg|].
    intros n Hn. rewrite Z.lor_spec, !bits_above_63 by lia. done.
  - assert (Z.lor a b < 0) as Hlor by (apply Z.lor_neg; lia).
    split; [|lia].
    assert (Z.lor a b = Z.lnot (Z.land (Z.lnot a) (Z.lnot b))) as ->.
    { by rewrite <- Z.lnot_lor, Z.lnot_involutive. }
    unfold Z.lnot at 1.
    assert (0 ≤ Z.land (Z.lnot a) (Z.lnot b)) as Hnonneg.
    { apply Z.land_nonneg. unfold Z.lnot. lia. }
    assert (Z.land (Z.lnot a) (Z.lnot b) < 2 ^ 63); [|lia].
    apply lt_pow2_63_bits; [done|]. intros n Hn. rewrite Z.land_spec.
    destruct (decide (a < 0)).
    + rewrite (bits_above_63 (Z.lnot a)) by (unfold Z.lnot; lia). done.
    + rewrite (bits_above_63 (Z.lnot b)) by (unfold Z.lnot; lia).
      apply andb_false_r.
Qed.

Lemma varintLoop_int_range rest shift i acc v i' :
  - 2 ^ 63 ≤ acc < 2 ^ 63 →
  varintLoop int rest shift i acc = inr (v, i') → - 2 ^ 63 ≤ v < 2 ^ 63.
Proof.
  revert shift i acc. induction rest as [|b rest IH]; intros shift i acc Hacc; simpl.
  - by case_decide.
  - case_decide; [done|].
    pose proof (lor_int_range acc _ Hacc
                  (int_bounds (Z.shiftl (Z.land (byteVal b) 127) shift))) as Hlor.
    case_decide.
    + by intros [= <- <-].
    + by apply IH.
Qed.

Lemma readVarint_int_range dAtA i v i' :
  readVarint int dAtA i = inr (v, i') → - 2 ^ 63 ≤ v < 2 ^ 63.
Proof. unfold readVarint. apply varintLoop_int_range. lia. Qed.

Lemma skipNft_loop_S fuel dAtA iNdEx depth :
  skipNft_loop (S fuel) dAtA iNdEx depth =
  let l := lenZ dAtA in
  if decide (iNdEx < l)
  then
    match readVarint uint64 dAtA iNdEx with
    | inl err => Some (0, Some err)
    | inr (wire, iNdEx) =>
        let wireType := int (Z.land wire 0x7) in
        let after (iNdEx depth : Z) : option (Z * option error) :=
          if decide (iNdEx < 0) then Some (0, Some ErrInvalidLengthNft)
          else if decide (depth = 0) then Some (iNdEx, None)
          else skipNft_loop fuel dAtA iNdEx depth in
        match wireType with
        | 0 =>
            match readVarint uint64 dAtA iNdEx with
            | inl err => Some (0, Some err)
            | inr (_, iNdEx) => after iNdEx depth
            end
        | 1 => after (int (iNdEx + 8)) depth
        | 2 =>
            match readVarint int dAtA iNdEx with
            | inl err => Some (0, Some err)
            | inr (length, iNdEx) =>
                if decide (length < 0) then Some (0, Some ErrInvalidLengthNft)
                else after (int (iNdEx + length)) depth
            end
        | 3 => after iNdEx (int (depth + 1))
        | 4 =>
            if decide (depth = 0) then Some (0, Some ErrUnexpectedEndOfGroupNft)
            else after iNdEx (int (depth - 1))
        | 5 => after (int (iNdEx + 4)) depth
        | _ =>
            Some (0, Some (Foreign ("proto: illegal wireType " +:+ showZ wireType)))
        end
    end
  else Some (0, Some io_ErrUnexpectedEOF).
Proof. done. Qed.

(** The loop of [skipNft] ends: every iteration moves the index forward, and
    the index that is returned without an error is beyond the one where the
    loop started. *)

Ltac with_error := eexists _, _; split; [reflexivity|discriminate].

Lemma skipNft_loop_ends fuel dAtA i depth :
  lenZ dAtA < 2 ^ 63 → 0 ≤ i → lenZ dAtA - i < Z.of_nat fuel → (1 ≤ fuel)%nat →
  ∃ n err, skipNft_loop fuel dAtA i depth = Some (n, err)
           ∧ (err = None → i < n < 2 ^ 63).
Proof.
  intros Hl. revert i depth.
  induction fuel as [|fuel IH]; intros i depth Hi Hfuel Hpos; [lia|].
  rewrite skipNft_loop_S. cbv zeta. case_decide as Hlt; [|by with_error].
  destruct (readVarint uint64 dAtA i) as [err|[wire i1]] eqn:Htag; [by with_error|].
  apply readVarint_progress in Htag as Hi1; [|done].
  assert (∀ i2 depth', i1 ≤ i2 < 2 ^ 63 ∨ i2 < 0 →
            ∃ n err,
              (if decide (i2 < 0) then Some (0, Some ErrInvalidLengthNft)
               else if decide (depth' = 0) then Some (i2, None)
               else skipNft_loop fuel dAtA i2 depth') = Some (n, err)
              ∧ (err = None → i < n < 2 ^ 63)) as Hafter.
  { intros i2 depth' Hi2. case_decide; [by with_error|]. case_decide.
    - eexists _, _. split; [done|]. lia.
    - destruct (IH i2 depth') as (n & err & -> & Hn); [lia..|].
      eexists _, _. split; [done|]. intros Herr. specialize (Hn Herr). lia. }
  destruct (int (Z.land wire 7)) as [|[[r|[r|r|]|]|[r|[r|r|]|]|]|p];
    try by with_error.
  - destruct (readVarint uint64 dAtA i1) as [err|[x i2]] eqn:Hval; [by with_error|].
    apply readVarint_progress in Hval as Hi2; [|lia]. apply Hafter. lia.
  - apply Hafter. destruct (int_add_nonneg i1 4) as [[? ->]| ]; lia.
  - apply Hafter. lia.
  - case_decide; [by with_error|]. apply Hafter. lia.
  - destruct (readVarint int dAtA i1) as [err|[length i2]] eqn:Hlen; [by with_error|].
    apply readVarint_progress in Hlen as Hi2; [|lia].
    apply readVarint_int_range in Hlen as Hrange.
    case_decide; [by with_error|]. apply Hafter.
    destruct (int_add_nonneg i2 length) as [[? ->]| ]; lia.
  - apply Hafter. destruct (int_add_nonneg i1 8) as [[? ->]| ]; lia.
Qed.

Lemma skipNft_ends dAtA :
  lenZ dAtA < 2 ^ 63 →
  ∃ n err, skipNft dAtA = Some (n, err) ∧ (err = None → 0 < n < 2 ^ 63).
Proof.
  intros Hl. apply skipNft_loop_ends; [done|lia| |lia]. unfold lenZ. lia.
Qed.

Lemma readString_progress field wireType dAtA i s postIndex :
  readString field wireType dAtA i = inr (s, postIndex) →
  0 ≤ i → lenZ dAtA < 2 ^ 63 → i ≤ postIndex ≤ lenZ dAtA.
Proof.
  unfold readString. intros Hread Hi Hl. case_decide; [done|].
  destruct (readVarint uint64 dAtA i) as [err|[stringLen i1]] eqn:Hlen; [done|].
  apply readVarint_progress in Hlen as Hi1; [|done].
  cbv zeta in Hread. repeat case_decide; try done.
  injection Hread as _ <-. pose proof (int_bounds stringLen).
  destruct (int_add_nonneg i1 (int stringLen)) as [[_ Heq]| ]; lia.
Qed.

(** The loop of [Unmarshal] ends: every iteration moves the index forward. *)
Lemma Class_Unmarshal_loop_ends fuel m dAtA i :
  lenZ dAtA < 2 ^ 63 → 0 ≤ i → lenZ dAtA - i < Z.of_nat fuel → (1 ≤ fuel)%nat →
  ∃ m' err, Class_Unmarshal_loop fuel m dAtA i = Some (m', err).
Proof.
  intros Hl. revert m i.
  induction fuel as [|fuel IH]; intros m i Hi Hfuel Hpos; [lia|].
  rewrite Class_Unmarshal_loop_S. cbv zeta. case_decide as Hlt; [|by eauto].
  destruct (readVarint uint64 dAtA i) as [err|[wire i1]] eqn:Htag; [by eauto|].
  apply readVarint_progress in Htag as Hi1; [|done].
  case_decide; [by eauto|]. case_decide; [by eauto|].
  assert (∀ name set, ∃ m' err,
            match readString name (int (Z.land wire 7)) dAtA i1 with
            | inl err => Some (m, Some err)
            | inr (s, postIndex) => Class_Unmarshal_loop fuel (set s) dAtA postIndex
            end = Some (m', err)) as Hfield.
  { intros name set.
    destruct (readString _ _ _ _) as [err|[s post]] eqn:Hread; [by eauto|].
    apply readString_progress in Hread; [|lia..]. apply IH; lia. }
  assert (∃ m' err,
            match skipNft (drop (Z.to_nat i) dAtA) with
            | None => None
            | Some (_, Some err) => Some (m, Some err)
            | Some (skippy, None) =>
                if decide (skippy < 0 ∨ int (i + skippy) < 0)
                then Some (m, Some ErrInvalidLengthNft)
                else if decide (int (i + skippy) > lenZ dAtA)
                then Some (m, Some io_ErrUnexpectedEOF)
                else Class_Unmarshal_loop fuel m dAtA (int (i + skippy))
            end = Some (m', err)) as Hskip.
  { destruct (skipNft_ends (drop (Z.to_nat i) dAtA)) as (n & err & -> & Hn).
    { unfold lenZ in *. rewrite length_drop. lia. }
    destruct err as [err|]; [by eauto|]. specialize (Hn eq_refl).
    case_decide; [by eauto|]. case_decide; [by eauto|].
    destruct (int_add_nonneg i n) as [[_ Heq]| ]; [lia..| |lia].
    apply IH; lia. }
  destruct (int32 (Z.shiftr wire 3)) as [|[[r|[r|r|]|]|[[r|r|]|[r|r|]|]|]|p];
    first [apply Hfield | apply Hskip].
Qed.

Lemma Class_Unmarshal_ends m dAtA :
  lenZ dAtA < 2 ^ 63 → ∃ m' err, Class_Unmarshal m dAtA = Some (m', err).
Proof.
  intros Hl. apply Class_Unmarshal_loop_ends; [done|lia| |lia]. unfold lenZ. lia.
Qed.

(** ** A buffer that is too short *)

Lemma bind_Panic {A B} msg (f : A → outcome B) : Panic msg ≫= f = Panic msg.
Proof. done. Qed.

(** The block of a field either finds the bytes that it needs before the
    index, or panics. *)
Lemma putString_cases tag s dAtA i :
  0 ≤ i ≤ lenZ dAtA →
  (sizeString s ≤ i ∧
   ∃ dAtA', putString tag s dAtA i = Done (dAtA', i - sizeString s)
            ∧ lenZ dAtA' = lenZ dAtA) ∨
  (i < sizeString s ∧ ∃ msg, putString tag s dAtA i = Panic msg).
Proof.
  intros Hi. destruct (decide (sizeString s ≤ i)) as [Hfit|Hshort].
  - left. split; [done|]. pose proof (sizeString_nonneg s).
    destruct (split_lenZ dAtA (i - sizeString s) (lenZ dAtA - (i - sizeString s)))
      as (pre & r & -> & Hpre & Hr); [lia..|].
    destruct (split_lenZ r (sizeString s) (lenZ (pre ++ r) - i))
      as (mid & post & -> & Hmid & Hpost); [lia..|].
    exists (pre ++ fieldBytes tag s ++ post). split.
    + replace i with (lenZ pre + lenZ mid) by lia.
      rewrite putString_app by (by rewrite lenZ_fieldBytes).
      do 2 f_equal. lia.
    + rewrite !lenZ_app, lenZ_fieldBytes. lia.
  - right. split; [lia|]. unfold sizeString in Hshort. unfold putString.
    case_decide as Hs; [|lia].
    pose proof (uint64_bounds (lenZ s)) as Hlen.
    pose proof (sovNft_pos _ (proj1 Hlen)) as Hsov.
    destruct (decide (i - lenZ s < 0)) as [Hneg|Hcopy].
    { unfold copy_from. rewrite decide_False by lia. by eexists. }
    destruct (split_lenZ dAtA (i - lenZ s) (lenZ dAtA - (i - lenZ s)))
      as (pre & r & -> & Hpre & Hr); [lia..|].
    destruct (split_lenZ r (lenZ s) (lenZ (pre ++ r) - i))
      as (mid & post & -> & Hmid & Hpost); [lia..|].
    rewrite <- Hpre, copy_from_app, bind_Done by (unfold lenZ in Hmid; lia).
    destruct (decide (lenZ pre < sovNft (uint64 (lenZ s)))) as [Hvar|Hvar].
    { rewrite encodeVarintNft_too_short by lia. by eexists. }
    assert (lenZ pre = sovNft (uint64 (lenZ s))) as Hpre' by lia.
    pose proof (encodeVarintNft_app (uint64 (lenZ s)) [] pre (s ++ post)
                  (proj1 Hlen) Hpre') as Hvarint.
    change (lenZ [] + lenZ pre) with (lenZ pre) in Hvarint.
    change ([] ++ ?l) with l in Hvarint. rewrite Hvarint, bind_Done.
    rewrite store_byte_out_of_range by (change (lenZ []) with 0; lia).
    by eexists.
Qed.

Ltac put_field tag s dAtA i d Hlen :=
  let Hfit := fresh "Hfit" in
  destruct (putString_cases tag s dAtA i) as [(Hfit & d & -> & Hlen)|(_ & ? & ->)];
  [lia| rewrite bind_Done; cbv beta iota | by eexists].

Lemma MarshalToSizedBuffer_too_short m dAtA :
  lenZ dAtA < lenZ (Class_wire m) →
  ∃ msg, Class_MarshalToSizedBuffer (Some m) dAtA = Panic msg.
Proof.
  intros Hshort. rewrite lenZ_Class_wire in Hshort.
  unfold Class_MarshalToSizedBuffer.
  pose proof (lenZ_nonneg dAtA).
  pose proof (sizeString_nonneg (Id m)). pose proof (sizeString_nonneg (Name m)).
  pose proof (sizeString_nonneg (Symbol m)).
  pose proof (sizeString_nonneg (Description m)).
  pose proof (sizeString_nonneg (Uri m)). pose proof (sizeString_nonneg (UriHash m)).
  cbv zeta.
  put_field x32 (UriHash m) dAtA (lenZ dAtA) d6 Hlen6.
  put_field x2a (Uri m) d6 (lenZ dAtA - sizeString (UriHash m)) d5 Hlen5.
  put_field x22 (Description m) d5
    (lenZ dAtA - sizeString (UriHash m) - sizeString (Uri m)) d4 Hlen4.
  put_field x1a (Symbol m) d4
    (lenZ dAtA - sizeString (UriHash m) - sizeString (Uri m)
     - sizeString (Description m)) d3 Hlen3.
  put_field x12 (Name m) d3
    (lenZ dAtA - sizeString (UriHash m) - sizeString (Uri m)
     - sizeString (Description m) - sizeString (Symbol m)) d2 Hlen2.
  put_field x0a (Id m) d2
    (lenZ dAtA - sizeString (UriHash m) - sizeString (Uri m)
     - sizeString (Description m) - sizeString (Symbol m) - sizeString (Name m))
    d1 Hlen1.
  lia.
Qed.

(** ** Fields that [Unmarshal] does not know *)

Lemma tag_wireType f w : 0 ≤ w < 8 → Z.land (8 * f + w) 7 = w.
Proof.
  intros Hw. change 7 with (Z.ones 3). rewrite Z.land_ones by lia.
  change (2 ^ 3) with 8. rewrite Z.add_comm, Z.mul_comm, Z.mod_add by lia.
  apply Z.mod_small. lia.
Qed.

Lemma tag_fieldNum f w : 0 ≤ w < 8 → Z.shiftr (8 * f + w) 3 = f.
Proof.
  intros Hw. rewrite Z.shiftr_div_pow2 by lia. change (2 ^ 3) with 8.
  rewrite Z.add_comm, Z.mul_comm, Z.div_add by lia.
  rewrite Z.div_small by lia. lia.
Qed.

Lemma int32_small z : - 2 ^ 31 ≤ z < 2 ^ 31 → int32 z = z.
Proof. intros Hz. unfold int32. rewrite Z.mod_small; lia. Qed.

Lemma readVarint_first (conv : Z → Z) bound v rest :
  (∀ z, 0 ≤ z < bound → conv z = z) →
  0 ≤ v < bound → bound ≤ 2 ^ 64 →
  readVarint conv (varint v ++ rest) 0 = inr (v, sovNft v).
Proof.
  intros Hconv Hv Hbound.
  apply (readVarint_varint conv bound v [] rest Hconv Hv Hbound).
Qed.

Lemma readVarint_second (conv : Z → Z) bound t v rest :
  (∀ z, 0 ≤ z < bound → conv z = z) →
  0 ≤ t → 0 ≤ v < bound → bound ≤ 2 ^ 64 →
  readVarint conv (varint t ++ varint v ++ rest) (sovNft t)
  = inr (v, sovNft t + sovNft v).
Proof.
  intros Hconv Ht Hv Hbound. rewrite <- (length_varint t) by done.
  by apply (readVarint_varint conv bound v (varint t) rest).
Qed.

Lemma int_small_nonneg z : 0 ≤ z < 2 ^ 63 → int z = z.
Proof. intros Hz. apply int_small. lia. Qed.

(** The first iteration of the loop of [skipNft] on a tag of wire type [w]. *)
Lemma skipNft_tag f w rest :
  0 ≤ f < 2 ^ 60 → 0 ≤ w < 8 →
  skipNft (varint (8 * f + w) ++ rest)
  = skipNft_loop (S (length (varint (8 * f + w) ++ rest)))
      (varint (8 * f + w) ++ rest) 0 0
  ∧ 0 < lenZ (varint (8 * f + w) ++ rest)
  ∧ readVarint uint64 (varint (8 * f + w) ++ rest) 0
    = inr (8 * f + w, sovNft (8 * f + w))
  ∧ int (Z.land (8 * f + w) 7) = w
  ∧ 1 ≤ sovNft (8 * f + w) ≤ 10.
Proof.
  intros Hf Hw. destruct (sovNft_groups (8 * f + w)) as (Hpos & _ & _ & Hmax); [lia|].
  specialize (Hmax ltac:(lia)). split_and!; [done| | | |done..].
  - rewrite lenZ_app, length_varint by lia. pose proof (lenZ_nonneg rest). lia.
  - apply (readVarint_first uint64 (2 ^ 64)); [apply uint64_small|lia..].
  - rewrite tag_wireType by done. apply int_small. lia.
Qed.

Ltac skip_start f w rest Hf :=
  let Hloop := fresh "Hloop" in
  let Hl := fresh "Hl" in
  let Htag := fresh "Htag" in
  let Hw := fresh "Hw" in
  let Hsov := fresh "Hsov" in
  destruct (skipNft_tag f w rest Hf) as (Hloop & Hl & Htag & Hw & Hsov); [lia|];
  rewrite Hloop, skipNft_loop_S; cbv zeta;
  rewrite decide_True by done; rewrite Htag, Hw; cbv beta iota.

Lemma skipNft_varint f x rest :
  0 ≤ f < 2 ^ 60 → 0 ≤ x < 2 ^ 64 →
  skipNft (varint (8 * f + 0) ++ varint x ++ rest)
  = Some (sovNft (8 * f + 0) + sovNft x, None).
Proof.
  intros Hf Hx. skip_start f 0 (varint x ++ rest) Hf.
  rewrite (readVarint_second uint64 (2 ^ 64)); [|apply uint64_small|lia..].
  pose proof (sovNft_pos x (proj1 Hx)).
  rewrite decide_False by lia. by rewrite decide_True.
Qed.

Lemma skipNft_fixed64 f rest :
  0 ≤ f < 2 ^ 60 →
  skipNft (varint (8 * f + 1) ++ rest) = Some (sovNft (8 * f + 1) + 8, None).
Proof.
  intros Hf. skip_start f 1 rest Hf. rewrite int_small_nonneg by lia.
  rewrite decide_False by lia. by rewrite decide_True.
Qed.

Lemma skipNft_bytes f n rest :
  0 ≤ f < 2 ^ 60 → 0 ≤ n → sovNft (8 * f + 2) + sovNft n + n < 2 ^ 63 →
  skipNft (varint (8 * f + 2) ++ varint n ++ rest)
  = Some (sovNft (8 * f + 2) + sovNft n + n, None).
Proof.
  intros Hf Hn Hend. pose proof (sovNft_pos n Hn).
  skip_start f 2 (varint n ++ rest) Hf.
  rewrite (readVarint_second int (2 ^ 63)); [|apply int_small_nonneg|lia..].
  rewrite decide_False by lia. rewrite int_small_nonneg by lia.
  rewrite decide_False by lia. by rewrite decide_True.
Qed.

Lemma skipNft_fixed32 f rest :
  0 ≤ f < 2 ^ 60 →
  skipNft (varint (8 * f + 5) ++ rest) = Some (sovNft (8 * f + 5) + 4, None).
Proof.
  intros Hf. skip_start f 5 rest Hf. rewrite int_small_nonneg by lia.
  rewrite decide_False by lia. by rewrite decide_True.
Qed.

(** A field number that [Unmarshal] does not know reaches the [default]
    case of its [switch]. *)
Lemma unknown_fieldNum {A} (fieldNum : Z) (a1 a2 a3 a4 a5 a6 d : A) :
  7 ≤ fieldNum →
  match fieldNum with
  | 1 => a1 | 2 => a2 | 3 => a3 | 4 => a4 | 5 => a5 | 6 => a6 | _ => d
  end = d.
Proof.
  intros Hf.
  destruct fieldNum as [|[[r|[r|r|]|]|[[r|r|]|[r|r|]|]|]|p]; done || lia.
Qed.

(** [Unmarshal] on a field that it does not know, which [skipNft] skips, and
    which the wire format of a message follows. *)
Lemma Class_Unmarshal_unknown m0 m f w body :
  7 ≤ f < 2 ^ 29 → 0 ≤ w < 8 → w ≠ 4 →
  lenZ (varint (8 * f + w) ++ body ++ Class_wire m) < 2 ^ 63 →
  skipNft (varint (8 * f + w) ++ body ++ Class_wire m)
  = Some (lenZ (varint (8 * f + w) ++ body), None) →
  Class_Unmarshal m0 (varint (8 * f + w) ++ body ++ Class_wire m)
  = Some (Class_merge m0 m, None).
Proof.
  intros Hf Hw Hw4 Hbuf Hskip.
  destruct (skipNft_tag f w (body ++ Class_wire m)) as (_ & Hl & Htag & Hwt & Hsov);
    [lia..|].
  unfold Class_Unmarshal. rewrite Class_Unmarshal_loop_S. cbv zeta.
  rewrite decide_True by done. rewrite Htag, Hwt.
  rewrite tag_fieldNum, int32_small by lia.
  rewrite decide_False by done. rewrite decide_False by lia.
  rewrite unknown_fieldNum by lia.
  change (drop (Z.to_nat 0) ?l) with l. rewrite Hskip.
  rewrite (assoc_L (++)) in Hbuf |- *.
  assert (0 < lenZ (varint (8 * f + w) ++ body)) as Hfield.
  { rewrite lenZ_app, length_varint by lia. pose proof (lenZ_nonneg body). lia. }
  set (field := varint (8 * f + w) ++ body) in *.
  pose proof (lenZ_nonneg (Class_wire m)) as Hwire.
  rewrite Z.add_0_l, int_small_nonneg by (rewrite lenZ_app in Hbuf; lia).
  rewrite decide_False by lia.
  rewrite decide_False by (rewrite lenZ_app; lia).
  apply Class_Unmarshal_loop_wire; [done|].
  rewrite length_app. unfold lenZ in Hfield. lia.
Qed.

Ltac unknown_field lem :=
  apply Class_Unmarshal_unknown; [lia..|done|];
  rewrite lem by lia;
  rewrite ?lenZ_app, ?length_varint by lia; do 2 f_equal; lia.

Lemma Class_Unmarshal_unknown_varint m0 m f x :
  7 ≤ f < 2 ^ 29 → 0 ≤ x < 2 ^ 64 →
  lenZ (varint (8 * f + 0) ++ varint x ++ Class_wire m) < 2 ^ 63 →
  Class_Unmarshal m0 (varint (8 * f + 0) ++ varint x ++ Class_wire m)
  = Some (Class_merge m0 m, None).
Proof. intros Hf Hx Hbuf. unknown_field skipNft_varint. Qed.

Lemma Class_Unmarshal_unknown_fixed64 m0 m f b :
  7 ≤ f < 2 ^ 29 → lenZ b = 8 →
  lenZ (varint (8 * f + 1) ++ b ++ Class_wire m) < 2 ^ 63 →
  Class_Unmarshal m0 (varint (8 * f + 1) ++ b ++ Class_wire m)
  = Some (Class_merge m0 m, None).
Proof. intros Hf Hb Hbuf. unknown_field skipNft_fixed64. Qed.

Lemma Class_Unmarshal_unknown_bytes m0 m f p :
  7 ≤ f < 2 ^ 29 →
  lenZ (varint (8 * f + 2) ++ (varint (lenZ p) ++ p) ++ Class_wire m) < 2 ^ 63 →
  Class_Unmarshal m0 (varint (8 * f + 2) ++ (varint (lenZ p) ++ p) ++ Class_wire m)
  = Some (Class_merge m0 m, None).
Proof.
  intros Hf Hbuf. pose proof (lenZ_nonneg p) as Hp.
  pose proof (lenZ_nonneg (Class_wire m)) as Hwire.
  apply Class_Unmarshal_unknown; [lia..|done|].
  rewrite !lenZ_app, !length_varint in Hbuf by lia.
  rewrite <- (assoc_L (++) (varint (lenZ p))).
  rewrite skipNft_bytes by lia.
  rewrite !lenZ_app, !length_varint by lia. do 2 f_equal. lia.
Qed.

Lemma Class_Unmarshal_unknown_fixed32 m0 m f b :
  7 ≤ f < 2 ^ 29 → lenZ b = 4 →
  lenZ (varint (8 * f + 5) ++ b ++ Class_wire m) < 2 ^ 63 →
  Class_Unmarshal m0 (varint (8 * f + 5) ++ b ++ Class_wire m)
  = Some (Class_merge m0 m, None).
Proof. intros Hf Hb Hbuf. unknown_field skipNft_fixed32. Qed.

(** ** Errors of [Unmarshal] *)

Lemma Class_Unmarshal_after_wire m0 m rest :
  lenZ (Class_wire m ++ rest) < 2 ^ 63 →
  ∃ fuel, (length rest < fuel)%nat ∧
    Class_Unmarshal m0 (Class_wire m ++ rest)
    = Class_Unmarshal_loop fuel (Class_merge m0 m) (Class_wire m ++ rest)
        (lenZ (Class_wire m)).
Proof.
  intros Hbuf. unfold Class_Unmarshal.
  apply (Class_Unmarshal_loop_wire_then _ m0 m [] rest); [done|lia].
Qed.

Lemma tag_byte f w :
  0 ≤ f ≤ 6 → 0 ≤ w < 8 → byteVal (uint8 (8 * f + w)) = 8 * f + w.
Proof. intros Hf Hw. rewrite byteVal_uint8. apply Z.mod_small. lia. Qed.

(** The first steps of an iteration of the loop on the tag of a field that
    [Unmarshal] knows. *)
Ltac known_tag f w pre rest :=
  rewrite Class_Unmarshal_loop_S; cbv zeta;
  rewrite decide_True
    by (rewrite lenZ_app, lenZ_cons; pose proof (lenZ_nonneg rest); lia);
  rewrite readVarint_tag by (rewrite tag_byte by lia; lia);
  rewrite tag_byte, tag_wireType, tag_fieldNum by lia;
  rewrite (int_small w), (int32_small f) by lia;
  rewrite decide_False by lia; rewrite decide_False by lia.

Lemma Class_Unmarshal_loop_wrong_wireType fuel m pre f w rest :
  1 ≤ f ≤ 6 → 0 ≤ w < 8 → w ≠ 2 → w ≠ 4 →
  Class_Unmarshal_loop (S fuel) m (pre ++ uint8 (8 * f + w) :: rest) (lenZ pre)
  = Some (m, Some (Foreign ("proto: wrong wireType = " +:+ showZ w
                            +:+ " for field " +:+ Class_fieldName f))).
Proof.
  intros Hf Hw Hw2 Hw4. known_tag f w pre rest.
  assert (f = 1 ∨ f = 2 ∨ f = 3 ∨ f = 4 ∨ f = 5 ∨ f = 6)
    as [->|[->|[->|[->|[->| ->]]]]] by lia;
    cbv beta iota; unfold readString; by rewrite decide_True.
Qed.



(** ** Marshal, Size and Unmarshal together *)

Lemma pick_Reset s : pick s [] = s.
Proof. unfold pick. case_decide; [done|]. by destruct s. Qed.

Lemma Class_merge_Reset m : Class_merge Class_Reset m = m.
Proof. unfold Class_merge. simpl. rewrite !pick_Reset. by destruct m. Qed.

Lemma Class_Unmarshal_wire m0 m :
  lenZ (Class_wire m) < 2 ^ 63 →
  Class_Unmarshal m0 (Class_wire m) = Some (Class_merge m0 m, None).
Proof.
  intros Hsize. unfold Class_Unmarshal.
  by apply (Class_Unmarshal_loop_wire _ m0 m []); [|lia].
Qed.

Lemma Class_Unmarshal_wire_wire m0 m1 m2 :
  lenZ (Class_wire m1) + lenZ (Class_wire m2) < 2 ^ 63 →
  Class_Unmarshal m0 (Class_wire m1 ++ Class_wire m2)
  = Some (Class_merge (Class_merge m0 m1) m2, None).
Proof.
  intros Hsize.
  assert (lenZ (Class_wire m1 ++ Class_wire m2) < 2 ^ 63) as Hbuf
    by (by rewrite lenZ_app).
  destruct (Class_Unmarshal_after_wire m0 m1 (Class_wire m2) Hbuf)
    as (fuel & Hfuel & ->).
  by apply Class_Unmarshal_loop_wire.
Qed.

(** X4. [Marshal] on a message that is not nil, whose wire format takes
    fewer than [2 ^ 63] bytes, returns no error and does not panic; the bytes
    that it returns are the wire format of the message, the non-empty fields
    in the order of their numbers, each as its tag, the varint of its length
    and its bytes; and they are as many as [Size] says. *)
Theorem Class_Marshal_writes_Size_bytes m :
  lenZ (Class_wire m) < 2 ^ 63 →
  ∃ dAtA,
    Class_Marshal (Some m) = Done (dAtA, None) ∧
    dAtA = Class_wire m ∧
    lenZ dAtA = Class_Size (Some m).
Proof.
  intros Hwire. exists (Class_wire m).
  split_and!; [by apply Class_Marshal_wire|done|]. by rewrite Class_Size_wire.
Qed.

Lemma Class_Marshal_writes_Size_bytes_witness :
  ∃ dAtA,
    Class_Marshal (Some exampleClass) = Done (dAtA, None) ∧
    dAtA = Class_wire exampleClass ∧
    lenZ dAtA = Class_Size (Some exampleClass).
Proof. apply (Class_Marshal_writes_Size_bytes exampleClass). reflexivity. Defined.

(** X5. [MarshalToSizedBuffer] on a buffer that ends with [Size()] bytes
    writes the wire format of the message into these last bytes, leaves the
    bytes before them as they are, and returns [Size()]. *)
Theorem Class_MarshalToSizedBuffer_fills_the_end m pre mid :
  lenZ (Class_wire m) < 2 ^ 63 →
  lenZ mid = Class_Size (Some m) →
  Class_MarshalToSizedBuffer (Some m) (pre ++ mid)
  = Done (pre ++ Class_wire m, (Class_Size (Some m), None)).
Proof.
  intros Hwire%Class_Size_wire. rewrite Hwire. apply MarshalToSizedBuffer_app.
Qed.

Lemma Class_MarshalToSizedBuffer_fills_the_end_witness :
  Class_MarshalToSizedBuffer (Some exampleClass)
    ([xaa; xbb] ++ replicate 16 x00)
  = Done ([xaa; xbb] ++ Class_wire exampleClass,
          (Class_Size (Some exampleClass), None)) ∧
  Class_Size (Some exampleClass) = 16.
Proof.
  split; [|reflexivity].
  apply (Class_MarshalToSizedBuffer_fills_the_end exampleClass [xaa; xbb]
           (replicate 16 x00)); reflexivity.
Defined.

(** X6. [MarshalToSizedBuffer] on a buffer of fewer than [Size()] bytes
    panics: it does not return a message that is cut short. *)
Theorem Class_MarshalToSizedBuffer_short_buffer_panics m dAtA :
  lenZ dAtA < Class_Size (Some m) →
  ∃ msg, Class_MarshalToSizedBuffer (Some m) dAtA = Panic msg.
Proof.
  intros Hshort. apply MarshalToSizedBuffer_too_short.
  pose proof (Class_Size_le m). lia.
Qed.

Lemma Class_MarshalToSizedBuffer_short_buffer_panics_witness :
  ∃ msg,
    Class_MarshalToSizedBuffer (Some exampleClass) (replicate 15 x00) = Panic msg.
Proof.
  apply (Class_MarshalToSizedBuffer_short_buffer_panics exampleClass
           (replicate 15 x00)).
  reflexivity.
Defined.

(** X7. Round trip: [Unmarshal] into a message that was reset, on the bytes
    that [Marshal] returned for a message whose wire format takes fewer than
    [2 ^ 63] bytes, reads all the bytes, returns no error and leaves that
    message. *)
Theorem Class_Marshal_Unmarshal_round_trip m :
  lenZ (Class_wire m) < 2 ^ 63 →
  ∃ dAtA,
    Class_Marshal (Some m) = Done (dAtA, None) ∧
    Class_Unmarshal Class_Reset dAtA = Some (m, None).
Proof.
  intros Hsize. exists (Class_wire m). split; [by apply Class_Marshal_wire|].
  by rewrite Class_Unmarshal_wire, Class_merge_Reset.
Qed.

Lemma Class_Marshal_Unmarshal_round_trip_witness :
  ∃ dAtA,
    Class_Marshal (Some exampleClass) = Done (dAtA, None) ∧
    Class_Unmarshal Class_Reset dAtA = Some (exampleClass, None).
Proof. apply (Class_Marshal_Unmarshal_round_trip exampleClass). reflexivity. Defined.

(** X8. [Unmarshal] does not reset the message: on the bytes of one message
    followed by the bytes of another it merges them into the message that it
    is given, field by field, and a field that is empty in a message that it
    reads keeps the value that it had. *)
Theorem Class_Unmarshal_merges m0 m1 m2 :
  lenZ (Class_wire m1) + lenZ (Class_wire m2) < 2 ^ 63 →
  ∃ dAtA1 dAtA2,
    Class_Marshal (Some m1) = Done (dAtA1, None) ∧
    Class_Marshal (Some m2) = Done (dAtA2, None) ∧
    Class_Unmarshal m0 dAtA1 = Some (Class_merge m0 m1, None) ∧
    Class_Unmarshal m0 (dAtA1 ++ dAtA2)
    = Some (Class_merge (Class_merge m0 m1) m2, None).
Proof.
  intros Hsize. exists (Class_wire m1), (Class_wire m2).
  pose proof (lenZ_nonneg (Class_wire m1)). pose proof (lenZ_nonneg (Class_wire m2)).
  split_and!.
  - apply Class_Marshal_wire. lia.
  - apply Class_Marshal_wire. lia.
  - apply Class_Unmarshal_wire. lia.
  - by apply Class_Unmarshal_wire_wire.
Qed.

Lemma Class_Unmarshal_merges_witness :
  ∃ dAtA1 dAtA2,
    Class_Marshal (Some exampleClass) = Done (dAtA1, None) ∧
    Class_Marshal (Some otherClass) = Done (dAtA2, None) ∧
    Class_Unmarshal Class_Reset dAtA1
    = Some (Class_merge Class_Reset exampleClass, None) ∧
    Class_Unmarshal Class_Reset (dAtA1 ++ dAtA2)
    = Some (Class_merge (Class_merge Class_Reset exampleClass) otherClass, None).
Proof.
  apply (Class_Unmarshal_merges Class_Reset exampleClass otherClass). reflexivity.
Defined.

(** X9. [skipNft] and [Unmarshal] return on every input of fewer than
    [2 ^ 63] bytes: every iteration of their loops moves the index forward,
    so that they end within [len(dAtA)] iterations; and the number of bytes
    that [skipNft] returns without an error is positive. *)
Theorem skipNft_and_Class_Unmarshal_return dAtA :
  lenZ dAtA < 2 ^ 63 →
  (∃ n err, skipNft dAtA = Some (n, err) ∧ (err = None → 0 < n)) ∧
  (∀ m, ∃ m' err, Class_Unmarshal m dAtA = Some (m', err)).
Proof.
  intros Hl. split.
  - destruct (skipNft_ends dAtA Hl) as (n & err & Hskip & Hn).
    exists n, err. split; [done|]. intros Herr. by destruct (Hn Herr).
  - intros m. by apply Class_Unmarshal_ends.
Qed.

Lemma skipNft_and_Class_Unmarshal_return_witness :
  (∃ n err, skipNft [x3a; x01] = Some (n, err) ∧ (err = None → 0 < n)) ∧
  (∀ m, ∃ m' err, Class_Unmarshal m [x3a; x01] = Some (m', err)).
Proof. apply (skipNft_and_Class_Unmarshal_return [x3a; x01]). reflexivity. Defined.

(** X10. [skipNft] returns the index after the first field for the wire
    types 0, 1, 2 and 5, whatever the number of the field: after the varint,
    after eight bytes, after the bytes that the length announces, after four
    bytes. It does not look whether the slice has these bytes: the index
    that it returns may be beyond the end of the slice. *)
Theorem skipNft_returns_the_end_of_the_field f rest :
  0 ≤ f < 2 ^ 60 →
  (∀ x, 0 ≤ x < 2 ^ 64 →
     skipNft (varint (8 * f + 0) ++ varint x ++ rest)
     = Some (sovNft (8 * f + 0) + sovNft x, None)) ∧
  skipNft (varint (8 * f + 1) ++ rest) = Some (sovNft (8 * f + 1) + 8, None) ∧
  (∀ n, 0 ≤ n → sovNft (8 * f + 2) + sovNft n + n < 2 ^ 63 →
     skipNft (varint (8 * f + 2) ++ varint n ++ rest)
     = Some (sovNft (8 * f + 2) + sovNft n + n, None)) ∧
  skipNft (varint (8 * f + 5) ++ rest) = Some (sovNft (8 * f + 5) + 4, None).
Proof.
  intros Hf. split_and!.
  - intros x Hx. by apply skipNft_varint.
  - by apply skipNft_fixed64.
  - intros n Hn Hend. by apply skipNft_bytes.
  - by apply skipNft_fixed32.
Qed.

Lemma skipNft_returns_the_end_of_the_field_witness :
  skipNft (varint 56 ++ varint 300 ++ []) = Some (3, None) ∧
  skipNft (varint 57 ++ []) = Some (9, None) ∧
  skipNft (varint 58 ++ varint 5 ++ []) = Some (7, None) ∧
  skipNft (varint 61 ++ []) = Some (5, None).
Proof.
  destruct (skipNft_returns_the_end_of_the_field 7 [])
    as (Hvarint & Hfixed64 & Hbytes & Hfixed32); [lia|].
  split_and!.
  - apply (Hvarint 300). lia.
  - exact Hfixed64.
  - apply (Hbytes 5); [lia|reflexivity].
  - exact Hfixed32.
Defined.

(** X11. [Unmarshal] skips a field whose number it does not know, of wire
    type 0, 1, 2 or 5, and reads the fields that follow it. *)
Theorem Class_Unmarshal_skips_unknown_fields m0 m f w body :
  7 ≤ f < 2 ^ 29 →
  (w = 0 ∧ ∃ x, 0 ≤ x < 2 ^ 64 ∧ body = varint x) ∨
  (w = 1 ∧ lenZ body = 8) ∨
  (w = 2 ∧ ∃ p, body = varint (lenZ p) ++ p) ∨
  (w = 5 ∧ lenZ body = 4) →
  lenZ (varint (8 * f + w) ++ body ++ Class_wire m) < 2 ^ 63 →
  Class_Unmarshal m0 (varint (8 * f + w) ++ body ++ Class_wire m)
  = Some (Class_merge m0 m, None).
Proof.
  intros Hf [[-> (x & Hx & ->)]|[[-> Hbody]|[[-> (p & ->)]|[-> Hbody]]]] Hbuf.
  - by apply Class_Unmarshal_unknown_varint.
  - by apply Class_Unmarshal_unknown_fixed64.
  - by apply Class_Unmarshal_unknown_bytes.
  - by apply Class_Unmarshal_unknown_fixed32.
Qed.

Lemma Class_Unmarshal_skips_unknown_fields_witness :
  Class_Unmarshal otherClass
    (varint (8 * 7 + 2) ++ (varint 2 ++ [x68; x69]) ++ Class_wire exampleClass)
  = Some (Class_merge otherClass exampleClass, None).
Proof.
  apply (Class_Unmarshal_skips_unknown_fields otherClass exampleClass 7 2
           (varint 2 ++ [x68; x69])).
  - lia.
  - right. right. left. split; [reflexivity|]. exists [x68; x69]. reflexivity.
  - reflexivity.
Defined.

(** X12. A field of the message with another wire type than 2 makes
    [Unmarshal] return the error that names the wire type and the field; the
    fields that it has read before stay in the message. *)
Theorem Class_Unmarshal_wrong_wire_type m0 m f w rest :
  1 ≤ f ≤ 6 → 0 ≤ w < 8 → w ≠ 2 → w ≠ 4 →
  lenZ (Class_wire m ++ uint8 (8 * f + w) :: rest) < 2 ^ 63 →
  Class_Unmarshal m0 (Class_wire m ++ uint8 (8 * f + w) :: rest)
  = Some (Class_merge m0 m,
          Some (Foreign ("proto: wrong wireType = " +:+ showZ w
                         +:+ " for field " +:+ Class_fieldName f))).
Proof.
  intros Hf Hw Hw2 Hw4 Hbuf.
  destruct (Class_Unmarshal_after_wire m0 m _ Hbuf) as (fuel & Hfuel & ->).
  destruct fuel as [|fuel]; [lia|].
  by apply Class_Unmarshal_loop_wrong_wireType.
Qed.

Lemma Class_Unmarshal_wrong_wire_type_witness :
  Class_Unmarshal Class_Reset (Class_wire exampleClass ++ uint8 (8 * 3 + 0) :: [x01])
  = Some (exampleClass,
          Some (Foreign "proto: wrong wireType = 0 for field Symbol")).
Proof.
  apply (Class_Unmarshal_wrong_wire_type Class_Reset exampleClass 3 0 [x01]);
    [lia..|reflexivity].
Defined.



(** ** Fields in any order *)

(** One iteration of the loop on a string field with one of the numbers of
    the message. *)
Lemma Class_Unmarshal_loop_field fuel m pre f s rest :
  1 ≤ f ≤ 6 →
  lenZ (pre ++ uint8 (8 * f + 2) :: varint (lenZ s) ++ s ++ rest) < 2 ^ 63 →
  Class_Unmarshal_loop (S fuel) m
    (pre ++ uint8 (8 * f + 2) :: varint (lenZ s) ++ s ++ rest) (lenZ pre)
  = Class_Unmarshal_loop fuel (Class_setField f s m)
      (pre ++ uint8 (8 * f + 2) :: varint (lenZ s) ++ s ++ rest)
      (lenZ pre + lenZ (uint8 (8 * f + 2) :: varint (lenZ s) ++ s)).
Proof.
  intros Hf Hbuf. known_tag f 2 pre (varint (lenZ s) ++ s ++ rest).
  assert (f = 1 ∨ f = 2 ∨ f = 3 ∨ f = 4 ∨ f = 5 ∨ f = 6)
    as [->|[->|[->|[->|[->| ->]]]]] by lia;
    cbv beta iota; by rewrite readString_field.
Qed.

Lemma fieldsEncoding_cons f s fields :
  fieldsEncoding ((f, s) :: fields)
  = (uint8 (8 * f + 2) :: varint (lenZ s) ++ s) ++ fieldsEncoding fields.
Proof. done. Qed.

Lemma Class_Unmarshal_loop_fields fields fuel m pre :
  Forall (λ field : Z * list byte, 1 ≤ field.1 ≤ 6) fields →
  lenZ (pre ++ fieldsEncoding fields) < 2 ^ 63 →
  (length fields < fuel)%nat →
  Class_Unmarshal_loop fuel m (pre ++ fieldsEncoding fields) (lenZ pre)
  = Some (Class_setFields m fields, None).
Proof.
  intros Hfields. revert fuel m pre.
  induction Hfields as [|[f s] fields Hf _ IH]; intros fuel m pre Hbuf Hfuel;
    (destruct fuel as [|fuel]; [simpl in Hfuel; lia|]).
  - change (fieldsEncoding []) with (@nil byte). rewrite (right_id_L [] (++)).
    apply Class_Unmarshal_loop_end.
  - rewrite fieldsEncoding_cons in *.
    assert (pre ++ (uint8 (8 * f + 2) :: varint (lenZ s) ++ s) ++ fieldsEncoding fields
            = pre ++ uint8 (8 * f + 2) :: varint (lenZ s) ++ s ++ fieldsEncoding fields)
      as Hshape by (simpl; by rewrite <- (assoc_L (++))).
    rewrite Hshape in Hbuf |- *.
    rewrite Class_Unmarshal_loop_field by done.
    rewrite <- Hshape in Hbuf |- *. rewrite (assoc_L (++) pre) in Hbuf |- *.
    rewrite <- lenZ_app. apply IH; [done|]. simpl in Hfuel. lia.
Qed.

(** X14. [Unmarshal] reads the fields of the message in any order and any
    number of times: on a sequence of string fields with the numbers 1 to 6,
    each as its tag, the varint of its length and its bytes, it returns no
    error and leaves the message with the assignments of the fields in the
    order of the sequence, so that the last value of a field wins, and a
    field that is sent with no bytes empties the field. *)
Theorem Class_Unmarshal_reads_fields_in_any_order m fields :
  Forall (λ field : Z * list byte, 1 ≤ field.1 ≤ 6) fields →
  lenZ (fieldsEncoding fields) < 2 ^ 63 →
  Class_Unmarshal m (fieldsEncoding fields) = Some (Class_setFields m fields, None).
Proof.
  intros Hfields Hbuf. unfold Class_Unmarshal.
  apply (Class_Unmarshal_loop_fields fields _ m []); [done..|].
  assert (length fields ≤ length (fieldsEncoding fields))%nat; [|lia].
  clear. induction fields as [|[f s] fields IH]; simpl; [done|].
  rewrite length_app. lia.
Qed.

Lemma Class_Unmarshal_reads_fields_in_any_order_witness :
  Class_Unmarshal exampleClass
    (fieldsEncoding [(3, [x4b]); (1, [x61]); (3, []); (1, [x62])])
  = Some (mkClass [x62] [x4b] [] [x64; x65] [] [xff; x00], None).
Proof.
  apply (Class_Unmarshal_reads_fields_in_any_order exampleClass
           [(3, [x4b]); (1, [x61]); (3, []); (1, [x62])]).
  - repeat constructor; simpl; lia.
  - reflexivity.
Defined.

(** ** Tags that are not tags of a field *)






End nft_properties.

(** * More properties of the table *)

(** ** Errors before the store is written *)

(** X16. Validation comes before the store: an object of the declared type
    whose [ValidateBasic] returns an error makes [Create] and [Update] return
    that error as it is, whatever the RowID, the codec and the store, and
    the store stays as it is. *)
Theorem validation_precedes_the_store `{GoTypes Msg} (a : Table Msg)
    (store : KVStore) (k : RowID) (obj : ProtoMarshaler Msg) (err : error) :
  TypeOf obj = PtrTo (model a) →
  assertValid obj = Some err →
  Create a store k obj = Done (store, Some err) ∧
  Update a store k obj = Done (store, Some err).
Proof.
  intros Htype%assertCorrectType_None Hvalid. unfold Create, Update.
  by rewrite Htype, Hvalid.
Qed.

Lemma validation_precedes_the_store_witness :
  Create classTable storeAB None (classRow [])
  = Done (storeAB, Some (Foreign "empty class")) ∧
  Update classTable storeAB None (classRow [])
  = Done (storeAB, Some (Foreign "empty class")).
Proof.
  apply (validation_precedes_the_store classTable storeAB None (classRow []));
    reflexivity.
Defined.

(** X17. An error of the codec's [Marshal] makes [Create], and [Update] once
    it has loaded the old value, return that error wrapped with the type of
    the object; the store stays as it is and no interceptor runs. *)
Theorem serialization_failure_leaves_the_store `{GoTypes Msg} (a : Table Msg)
    (c : Codec Msg) (store : KVStore) (k : RowID) (obj oldValue : ProtoMarshaler Msg)
    (v : list byte) (err : error) :
  cdc a = Some c →
  TypeOf obj = PtrTo (model a) →
  assertValid obj = None →
  Marshal c obj = (v, Some err) →
  Create a store k obj
  = Done (store,
          Some (Wrap err ("failed to serialize " +:+ type_String (TypeOf obj)))) ∧
  (GetOne a store k (reflect_New (model a)) = Done (oldValue, None) →
   Update a store k obj
   = Done (store,
           Some (Wrap err ("failed to serialize " +:+ type_String (TypeOf obj))))).
Proof.
  intros Hc Htype%assertCorrectType_None Hvalid Hmarshal. split.
  - unfold Create. by rewrite Htype, Hvalid, Hc; simpl; rewrite Hmarshal.
  - intros Hold. unfold Update.
    by rewrite Htype, Hvalid, Hold, Hc; simpl; rewrite Hmarshal.
Qed.

Lemma serialization_failure_leaves_the_store_witness :
  Create brokenTable storeAB (Some keyAB) (classRow ["n"%byte])
  = Done (storeAB,
          Some (Wrap (Foreign "cannot encode") "failed to serialize *nft.Class")) ∧
  Update brokenTable storeAB (Some keyAB) (classRow ["n"%byte])
  = Done (storeAB,
          Some (Wrap (Foreign "cannot encode") "failed to serialize *nft.Class")).
Proof.
  destruct (serialization_failure_leaves_the_store brokenTable failingCodec storeAB
              (Some keyAB) (classRow ["n"%byte]) (classRow ["7"%byte]) []
              (Foreign "cannot encode")) as [Hcreate Hupdate]; [reflexivity..|].
  split; [exact Hcreate|]. apply Hupdate. by_evaluation.
Defined.

(** ** The builder *)

Lemma foldl_AddAfterSaveInterceptor {Msg IndexKeyCodec}
    (itcs : list (AfterSaveInterceptor Msg)) (b : Builder Msg IndexKeyCodec) :
  foldl AddAfterSaveInterceptor b itcs
  = mkBuilder (builder_model b) (prefixData b) (indexKeyCodec b)
      (builder_afterSave b ++ itcs) (builder_afterDelete b) (builder_cdc b).
Proof.
  revert b. induction itcs as [|itc itcs IH]; intros b; simpl.
  - rewrite (right_id_L [] (++)). by destruct b.
  - rewrite IH. simpl. by rewrite <- (assoc_L (++)).
Qed.

Lemma foldl_AddAfterDeleteInterceptor {Msg IndexKeyCodec}
    (itcs : list (AfterDeleteInterceptor Msg)) (b : Builder Msg IndexKeyCodec) :
  foldl AddAfterDeleteInterceptor b itcs
  = mkBuilder (builder_model b) (prefixData b) (indexKeyCodec b)
      (builder_afterSave b) (builder_afterDelete b ++ itcs) (builder_cdc b).
Proof.
  revert b. induction itcs as [|itc itcs IH]; intros b; simpl.
  - rewrite (right_id_L [] (++)). by destruct b.
  - rewrite IH. simpl. by rewrite <- (assoc_L (++)).
Qed.

(** X18. A table that is built from a prototype of type [T] or [*T] accepts
    the objects of type [*T] and no others: [NewTableBuilder] takes the
    element type of a prototype that is a pointer, once, and the type check
    of the table asks for a pointer to the model. The table has the prefix
    and the codec that the builder was given. *)
Theorem built_table_accepts_pointers_to_the_model {Msg IndexKeyCodec : Type}
    (p : byte) (m : ProtoMarshaler Msg) (ikc : IndexKeyCodec)
    (c : option (Codec Msg)) :
  ∃ b,
    NewTableBuilder p (Some m) (Some ikc) c = Done b ∧
    prefix (Build b) = p ∧
    cdc (Build b) = c ∧
    ∀ obj : ProtoMarshaler Msg,
      assertCorrectType (model (Build b)) obj = None ↔
      TypeOf obj = PtrTo (match TypeOf m with
                          | PtrTo elem => elem
                          | Named _ => TypeOf m
                          end).
Proof.
  eexists. split_and!; [done..|]. intros obj. by rewrite assertCorrectType_None.
Qed.

(** X19. The interceptors that are registered with a builder are those of
    the table that it builds, in the order of their registration, after the
    ones that the builder had; the registration changes nothing else of the
    table, and the row getter of the builder is the one of [GetOne] of the
    table. *)
Theorem interceptors_are_registered_in_order {Msg IndexKeyCodec : Type}
    (b : Builder Msg IndexKeyCodec) (saves : list (AfterSaveInterceptor Msg))
    (deletes : list (AfterDeleteInterceptor Msg)) :
  let b' := foldl AddAfterDeleteInterceptor
              (foldl AddAfterSaveInterceptor b saves) deletes in
  Build b'
  = mkTable (model (Build b)) (prefix (Build b)) (afterSave (Build b) ++ saves)
      (afterDelete (Build b) ++ deletes) (cdc (Build b)) ∧
  Builder_RowGetter b' = GetOne (Build b).
Proof.
  simpl. by rewrite foldl_AddAfterDeleteInterceptor, foldl_AddAfterSaveInterceptor.
Qed.

(** ** Rows that are not there *)

(** X20. When no key of the namespace of the table starts with the RowID
    [k], and [k] does not end in 0xFF, [Has] returns false, [GetOne],
    [Update] and [Delete] return ErrNotFound, the last two wrapped with
    "load old value", and the store stays as it is. (For a key that ends in
    0xFF the range of the probe also holds keys that do not start with the
    key.) *)
Theorem missing_row_is_not_found `{GoTypes Msg} (a : Table Msg) (store : KVStore)
    (k : list byte) (dest r : ProtoMarshaler Msg) :
  k ≠ [] →
  last k ≠ Some xff →
  (∀ k', k `prefix_of` k' → store !! ([prefix a] ++ k') = None) →
  Has a store (Some k) = Done false ∧
  (TypeOf dest = PtrTo (model a) →
   GetOne a store (Some k) dest = Done (dest, Some ErrNotFound)) ∧
  (TypeOf r = PtrTo (model a) → assertValid r = None →
   Update a store (Some k) r
   = Done (store, Some (Wrap ErrNotFound "load old value"))) ∧
  Delete a store (Some k) = Done (store, Some (Wrap ErrNotFound "load old value")).
Proof.
  intros Hk Hlast Hnone. split_and!.
  - by apply Has_false.
  - intros Hdest. by apply GetOne_not_found.
  - intros Hr Hvalid. by apply Update_not_found.
  - by apply Delete_not_found.
Qed.

Lemma missing_row_is_not_found_witness :
  Has classTable storeAB (Some keyB) = Done false ∧
  GetOne classTable storeAB (Some keyB) (classRow [])
  = Done (classRow [], Some ErrNotFound) ∧
  Update classTable storeAB (Some keyB) (classRow ["n"%byte])
  = Done (storeAB, Some (Wrap ErrNotFound "load old value")) ∧
  Delete classTable storeAB (Some keyB)
  = Done (storeAB, Some (Wrap ErrNotFound "load old value")).
Proof.
  destruct (missing_row_is_not_found classTable storeAB keyB (classRow [])
              (classRow ["n"%byte])) as (Hhas & Hget & Hupdate & Hdelete).
  - discriminate.
  - discriminate.
  - intros k' [rest ->]. by apply lookup_singleton_ne.
  - split_and!; [exact Hhas | by apply Hget | by apply Hupdate | exact Hdelete].
Defined.

(** The condition on the last byte is needed: no key of the store starts
    with 0x61FF, and the range of the probe, which ends at 0x6200, holds the
    key "b". *)
Lemma probe_of_a_key_that_ends_in_0xFF :
  PrefixRange (Some [x61; xff]) = Done (Some [x61; xff], Some [x62; x00]) ∧
  Has classTable storeB (Some [x61; xff]) = Done true.
Proof. split; by_evaluation. Qed.

(** ** Update and Delete of a row that is there *)

(** X21. Update round trip: when the row [k] itself exists and the codec
    decodes it, [Update] with a valid record of the declared type that the
    codec encodes and decodes back, and with interceptors that return nil
    and leave the row written under [k] in place, succeeds, and [GetOne] on
    the store that it leaves yields the new record. *)
Theorem Update_GetOne_round_trip `{GoTypes Msg} (a : Table Msg) (c : Codec Msg)
    (store : KVStore) (k : list byte) (r dest oldValue : ProtoMarshaler Msg)
    (v0 v : list byte) :
  cdc a = Some c →
  k ≠ [] →
  store !! ([prefix a] ++ k) = Some v0 →
  Unmarshal c v0 (reflect_New (model a)) = (oldValue, None) →
  TypeOf r = PtrTo (model a) →
  assertValid r = None →
  TypeOf dest = PtrTo (model a) →
  Marshal c r = (v, None) →
  Unmarshal c v dest = (r, None) →
  Forall (λ itc, ∀ s, (itc s (Some k) r (Some oldValue)).2 = None) (afterSave a) →
  Forall (λ itc, ∀ s : KVStore,
            (itc s (Some k) r (Some oldValue)).1 !! ([prefix a] ++ k)
            = s !! ([prefix a] ++ k)) (afterSave a) →
  ∃ store',
    Update a store (Some k) r = Done (store', None) ∧
    GetOne a store' (Some k) dest = Done (r, None).
Proof.
  intros Hc Hk Hrow Hold Hr Hvalid Hdest Hmarshal Hunmarshal Hok Hframe.
  destruct (saveChain_frame (afterSave a)
              (pStore_Set (prefix_NewStore store [prefix a]) (Some k) v) (Some k) r
              (Some oldValue) ([prefix a] ++ k) Hok Hframe)
    as (store' & Hchain & Hrow').
  exists store'. split.
  - rewrite (Update_unfold a c store (Some k) r oldValue v); try done.
    + by rewrite (runAfterSave_ok _ _ _ store').
    + rewrite (GetOne_row a store k _ v0) by done.
      by rewrite Hc; simpl; rewrite Hold.
  - rewrite (GetOne_row a store' k dest v Hk Hdest).
    + by rewrite Hc; simpl; rewrite Hunmarshal.
    + etrans; [exact Hrow'|]. apply lookup_insert_eq.
Qed.

Lemma Update_GetOne_round_trip_witness :
  ∃ store',
    Update indexOnlyTable storeA (Some keyA) (classRow ["n"%byte])
    = Done (store', None) ∧
    GetOne indexOnlyTable store' (Some keyA) (classRow [])
    = Done (classRow ["n"%byte], None).
Proof.
  apply (Update_GetOne_round_trip indexOnlyTable exampleCodec storeA keyA
           (classRow ["n"%byte]) (classRow []) (classRow ["1"%byte]) ["1"%byte]
           ["n"%byte]);
    try reflexivity; try discriminate.
  - repeat constructor.
  - repeat constructor. intros s. simpl. unfold store_Set.
    by rewrite lookup_insert_ne.
Defined.

(** Interceptors that return nil and leave the keys under a prefix as they
    are: the chain runs to its end and these keys are as they were. *)
Lemma deleteChain_frame {Msg} (itcs : list (AfterDeleteInterceptor Msg))
    (store : KVStore) rowID value (pre : list byte) :
  Forall (λ itc, ∀ s, (itc s rowID value).2 = None) itcs →
  Forall (λ itc, ∀ (s : KVStore) x,
            (itc s rowID value).1 !! (pre ++ x) = s !! (pre ++ x)) itcs →
  ∃ store' : KVStore,
    deleteChain rowID value itcs store store' ∧
    ∀ x, store' !! (pre ++ x) = store !! (pre ++ x).
Proof.
  intros Hok. revert store.
  induction Hok as [|itc itcs Hitc _ IH]; intros store Hframe.
  { exists store. split; [constructor|done]. }
  apply Forall_cons in Hframe as [Hkeys Hframe].
  destruct (itc store rowID value) as [store1 err] eqn:Hrun.
  specialize (Hitc store). specialize (Hkeys store). rewrite Hrun in Hitc, Hkeys.
  simpl in *. subst err.
  destruct (IH store1 Hframe) as (store' & Hchain & Hsame).
  exists store'. split; [by econstructor|]. intros x. by rewrite Hsame.
Qed.

(** X22. Delete removes: when the row [k] itself exists, for a [k] that
    does not end in 0xFF, the codec decodes it, no longer key of the
    namespace starts with [k], and the interceptors return nil and leave the
    namespace of the table as it is, [Delete] succeeds, and on the store
    that it leaves [Has] returns false and [GetOne] and a second [Delete]
    return ErrNotFound; the other rows of the table are as they were. *)
Theorem Delete_removes_the_row `{GoTypes Msg} (a : Table Msg) (c : Codec Msg)
    (store : KVStore) (k : list byte) (dest oldValue : ProtoMarshaler Msg)
    (v0 : list byte) :
  cdc a = Some c →
  k ≠ [] →
  last k ≠ Some xff →
  store !! ([prefix a] ++ k) = Some v0 →
  Unmarshal c v0 (reflect_New (model a)) = (oldValue, None) →
  (∀ k', k `prefix_of` k' → k' ≠ k → store !! ([prefix a] ++ k') = None) →
  TypeOf dest = PtrTo (model a) →
  Forall (λ itc, ∀ s, (itc s (Some k) oldValue).2 = None) (afterDelete a) →
  Forall (λ itc, ∀ (s : KVStore) x,
            (itc s (Some k) oldValue).1 !! ([prefix a] ++ x)
            = s !! ([prefix a] ++ x)) (afterDelete a) →
  ∃ store',
    Delete a store (Some k) = Done (store', None) ∧
    Has a store' (Some k) = Done false ∧
    GetOne a store' (Some k) dest = Done (dest, Some ErrNotFound) ∧
    Delete a store' (Some k)
    = Done (store', Some (Wrap ErrNotFound "load old value")) ∧
    ∀ k', k' ≠ k → store' !! ([prefix a] ++ k') = store !! ([prefix a] ++ k').
Proof.
  intros Hc Hk Hlast Hrow Hold Hlonger Hdest Hok Hframe.
  destruct (deleteChain_frame (afterDelete a)
              (pStore_Delete (prefix_NewStore store [prefix a]) (Some k)) (Some k)
              oldValue [prefix a] Hok Hframe) as (store' & Hchain & Hsame).
  assert (∀ k', k `prefix_of` k' → store' !! ([prefix a] ++ k') = None) as Hnone.
  { intros k' Hp. rewrite Hsame. unfold pStore_Delete, store_Delete. simpl.
    destruct (decide (k' = k)) as [->|Hne]; [apply lookup_delete_eq|].
    rewrite lookup_delete_ne by (intros [=]; done). by apply Hlonger. }
  exists store'. split_and!.
  - rewrite (Delete_unfold a store (Some k) oldValue).
    + by rewrite (runAfterDelete_ok _ _ _ store').
    + rewrite (GetOne_row a store k _ v0) by done.
      by rewrite Hc; simpl; rewrite Hold.
  - by apply Has_false.
  - by apply GetOne_not_found.
  - by apply Delete_not_found.
  - intros k' Hne. rewrite Hsame. unfold pStore_Delete, store_Delete. simpl.
    apply lookup_delete_ne. intros [=]. done.
Qed.

Lemma Delete_removes_the_row_witness :
  ∃ store',
    Delete indexOnlyTable indexedStore (Some keyA) = Done (store', None) ∧
    Has indexOnlyTable store' (Some keyA) = Done false ∧
    GetOne indexOnlyTable store' (Some keyA) (classRow [])
    = Done (classRow [], Some ErrNotFound).
Proof.
  destruct (Delete_removes_the_row indexOnlyTable exampleCodec indexedStore keyA
              (classRow []) (classRow ["1"%byte]) ["1"%byte])
    as (store' & Hdelete & Hhas & Hget & _).
  - reflexivity.
  - discriminate.
  - discriminate.
  - by_evaluation.
  - reflexivity.
  - intros k' [rest ->] Hne. destruct rest as [|b rest]; [done|].
    unfold indexedStore. by rewrite !lookup_insert_ne, lookup_singleton_ne.
  - reflexivity.
  - repeat constructor.
  - repeat constructor. intros s x. simpl. unfold store_Delete.
    by rewrite lookup_delete_ne.
  - exact (ex_intro _ store' (conj Hdelete (conj Hhas Hget))).
Defined.

(** ** Tables that share a store *)

(** The first row that the iterator of a prefix store visits depends on the
    keys under the prefix only. *)
Lemma pStore_Iterator_head_ext (store store' : KVStore) pre start end_ :
  (∀ x, store' !! (pre ++ x) = store !! (pre ++ x)) →
  head (pStore_Iterator (prefix_NewStore store' pre) start end_)
  = head (pStore_Iterator (prefix_NewStore store pre) start end_).
Proof.
  intros Hsame.
  assert (∀ e, e ∈ pStore_Iterator (prefix_NewStore store' pre) start end_ ↔
               e ∈ pStore_Iterator (prefix_NewStore store pre) start end_) as Helem.
  { intros [k v]. by rewrite !elem_of_pStore_Iterator, Hsame. }
  pose proof (pStore_Iterator_Sorted store pre start end_) as Hsorted.
  pose proof (pStore_Iterator_Sorted store' pre start end_) as Hsorted'.
  assert (∀ k v v',
            (k, v) ∈ pStore_Iterator (prefix_NewStore store pre) start end_ →
            (k, v') ∈ pStore_Iterator (prefix_NewStore store pre) start end_ →
            v = v') as Hfun.
  { intros k v v' [Hv _]%elem_of_pStore_Iterator [Hv' _]%elem_of_pStore_Iterator.
    congruence. }
  destruct (pStore_Iterator (prefix_NewStore store pre) start end_)
    as [|[x v] rest];
    destruct (pStore_Iterator (prefix_NewStore store' pre) start end_)
    as [|[x' v'] rest']; simpl.
  - done.
  - assert ((x', v') ∈ @nil entry) as Hin by (apply Helem; left).
    by apply elem_of_nil in Hin.
  - assert ((x, v) ∈ @nil entry) as Hin by (apply Helem; left).
    by apply elem_of_nil in Hin.
  - apply StronglySorted_cons in Hsorted as [Hhd _].
    apply StronglySorted_cons in Hsorted' as [Hhd' _].
    rewrite Forall_forall in Hhd, Hhd'.
    assert ((x', v') ∈ (x, v) :: rest) as Hin' by (apply Helem; left).
    assert ((x, v) ∈ (x', v') :: rest') as Hin by (apply Helem; left).
    assert (x' = x) as ->.
    { apply (anti_symm key_le).
      - apply elem_of_cons in Hin as [[= -> ->]|Hin]; [done|]. by apply Hhd' in Hin.
      - apply elem_of_cons in Hin' as [[= -> ->]|Hin']; [done|]. by apply Hhd in Hin'. }
    f_equal. f_equal. apply (Hfun x); [done|left].
Qed.

(** [Has] and [GetOne] depend on the keys under the prefix of the table
    only. *)
Lemma Has_GetOne_ext {Msg} (b : Table Msg) (store store' : KVStore) k dest :
  (∀ x, store' !! ([prefix b] ++ x) = store !! ([prefix b] ++ x)) →
  Has b store' k = Has b store k ∧ GetOne b store' k dest = GetOne b store k dest.
Proof.
  intros Hsame. destruct k as [k|]; [|by split].
  pose proof (pStore_Iterator_head_ext store store' [prefix b] (Some k)
                (rangeEnd k) Hsame) as Hhead.
  unfold Has, GetOne, NewTypeSafeRowGetter. simpl.
  destruct (pStore_Iterator (prefix_NewStore store [prefix b]) (Some k) (rangeEnd k))
    as [|[x v] rest];
    destruct (pStore_Iterator (prefix_NewStore store' [prefix b]) (Some k)
                (rangeEnd k)) as [|[x' v'] rest']; simpl in Hhead; try done.
  by simplify_eq.
Qed.

(** Without interceptors, [Create], [Update] and [Delete] leave every key
    but the one of the row as it is. *)
Lemma writes_frame `{GoTypes Msg} (a : Table Msg) (store store' : KVStore) k obj err :
  afterSave a = [] → afterDelete a = [] →
  Create a store k obj = Done (store', err)
  ∨ Update a store k obj = Done (store', err)
  ∨ Delete a store k = Done (store', err) →
  ∀ key, key ≠ [prefix a] ++ elems k → store' !! key = store !! key.
Proof.
  intros Hsave Hdelete Hop key Hkey.
  assert (pStore_Set (prefix_NewStore store [prefix a]) k
          = λ v, <[ [prefix a] ++ elems k := v ]> store) as Hset by done.
  destruct Hop as [Hop|[Hop|Hop]].
  - unfold Create in Hop. rewrite Hsave in Hop.
    destruct (assertCorrectType _ _); [by simplify_eq|].
    destruct (assertValid _); [by simplify_eq|].
    destruct (cdc a) as [c|]; [|done]. simpl in Hop.
    destruct (Marshal c obj) as [v [e|]]; simplify_eq; [done|].
    by apply lookup_insert_ne.
  - unfold Update in Hop. rewrite Hsave in Hop.
    destruct (assertCorrectType _ _); [by simplify_eq|].
    destruct (assertValid _); [by simplify_eq|].
    destruct (GetOne _ _ _ _) as [[old [e|]]|]; simpl in Hop; [by simplify_eq| |done].
    destruct (cdc a) as [c|]; [|done]. simpl in Hop.
    destruct (Marshal c obj) as [v [e|]]; simplify_eq; [done|].
    by apply lookup_insert_ne.
  - unfold Delete in Hop. rewrite Hdelete in Hop.
    destruct (GetOne _ _ _ _) as [[old [e|]]|]; simpl in Hop; [by simplify_eq| |done].
    simplify_eq. by apply lookup_delete_ne.
Qed.

(** X23. Tables with different prefixes that share a store do not see the
    rows of each other: whatever [Create], [Update] or [Delete] of a table
    without interceptors does to the store, with or without an error, [Has]
    and [GetOne] of a table with another prefix return what they returned
    before. *)
Theorem tables_do_not_interfere `{GoTypes Msg} (a b : Table Msg)
    (store store' : KVStore) (k k' : RowID) (obj dest : ProtoMarshaler Msg)
    (err : option error) :
  prefix a ≠ prefix b →
  afterSave a = [] → afterDelete a = [] →
  Create a store k obj = Done (store', err)
  ∨ Update a store k obj = Done (store', err)
  ∨ Delete a store k = Done (store', err) →
  Has b store' k' = Has b store k' ∧
  GetOne b store' k' dest = GetOne b store k' dest.
Proof.
  intros Hprefix Hsave Hdelete Hop. apply Has_GetOne_ext.
  intros x. apply (writes_frame a store store' k obj err Hsave Hdelete Hop).
  intros [=]. done.
Qed.

Lemma tables_do_not_interfere_witness :
  Has nftTable (<[ x01 :: keyB := ["n"%byte] ]> sharedStore) (Some keyB)
  = Has nftTable sharedStore (Some keyB) ∧
  GetOne nftTable (<[ x01 :: keyB := ["n"%byte] ]> sharedStore) (Some keyB) (nftRow [])
  = GetOne nftTable sharedStore (Some keyB) (nftRow []).
Proof.
  apply (tables_do_not_interfere classTable nftTable sharedStore
           (<[ x01 :: keyB := ["n"%byte] ]> sharedStore) (Some keyB) (Some keyB)
           (classRow ["n"%byte]) (nftRow []) None);
    [discriminate | reflexivity | reflexivity |].
  left. by_evaluation.
Defined.
